(** * Speculative devirtualization pass (HDevirtualization)

    A shallow embedding of
    [compiler/optimizing/extensions/passes/devirtualization.cc]:
    the prediction cache, the cost model, the guard synthesizer and the
    call rewriter, with the IR graph as an explicit store.

    Conventions.
    - A pointer to an arena object ([HInstruction*]) is its address in the
      arena, a [nat]; the arena never frees, and [new] appends.
    - [uint32_t] and [uint64_t] values are [Z] with the wrap-around written
      out ([wrap32], [wrap64]).
    - A member function that reads or writes the pass object takes the pass
      state explicitly and returns [option]: [None] stands for a run that
      does not return (a null or dangling dereference, an out-of-range
      access, a failed [CHECK], or a failed [DCHECK] in a debug build).
    - Everything the pass consumes from the runtime (dex cache, class linker,
      class hierarchy) is a field of the record [Runtime]; so are the build
      flag and the constants of devirtualization.h.
    - [size_t] is 64 bits wide.  Pass logging ([PRINT_PASS_OSTREAM_MESSAGE])
      and the scoped runtime lock ([ScopedObjectAccess]) have no effect on the
      pass state and are left out. *)

From Stdlib Require Import ZArith String.
From stdpp Require Import base option list gmap.

Local Open Scope Z_scope.

(** ** Machine integers *)

Definition wrap32 (z : Z) : Z := z mod 2 ^ 32.
Definition wrap64 (z : Z) : Z := z mod 2 ^ 64.

(** [DexFile::kDexNoIndex], the 32-bit "no index" sentinel. *)
Definition kDexNoIndex : Z := 4294967295.

(** ** Runtime objects seen through pointers *)

Abbreviation InstrRef := nat (only parsing).   (* HInstruction* *)
Abbreviation BlockRef := nat (only parsing).   (* HBasicBlock* *)
Abbreviation ArtMethod := nat (only parsing).  (* ArtMethod* (non null) *)
Abbreviation Class := nat (only parsing).      (* mirror::Class* *)
Abbreviation DexFile := nat (only parsing).    (* const DexFile* *)

(** [Handle<mirror::Class>]: [None] is the default-constructed handle, which
    has no slot ([GetReference() == nullptr]); [Some c] is a handle whose
    slot holds [c]. *)
Abbreviation TypeHandle := (option nat) (only parsing).

(** Modelled from the spec: [Handle::Get()] of the runtime's handles, which
    dereferences the slot. *)
Definition Handle_Get (h : TypeHandle) : option Class := h.

(** Modelled from the spec: [handles_->NewHandle(c)], a fresh handle on [c]. *)
Definition NewHandle (c : Class) : TypeHandle := Some c.

Inductive Primitive_Type :=
| kPrimNot | kPrimBoolean | kPrimByte | kPrimChar | kPrimShort
| kPrimInt | kPrimLong | kPrimFloat | kPrimDouble | kPrimVoid.

Inductive InvokeType := kStatic | kDirect | kVirtual | kSuper | kInterface.

Inductive SpeculationRecoveryApproach :=
| kRecoveryNotNeeded | kRecoveryDeopt | kRecoveryCodeVersioning.

#[global] Instance Primitive_Type_eq_dec : EqDecision Primitive_Type.
Proof. solve_decision. Defined.

(** ** The IR *)

Record ReferenceTypeInfo := mkRTI {
  rti_type_handle : TypeHandle;
  rti_is_exact : bool;
}.

(** [ReferenceTypeInfo::CreateInvalid()], what a fresh instruction carries. *)
Definition RTI_invalid : ReferenceTypeInfo := mkRTI None false.

Inductive SideEffects :=
| SE_None
| SE_FieldReadOfType (t : Primitive_Type) (is_volatile : bool)
| SE_CanTriggerGC
| SE_AllExceptGCDependency
| SE_Other (flags : Z).

(** An [HEnvironment] with its parent chain, innermost frame first; a frame
    is its vector of virtual registers, each an instruction or null. *)
Abbreviation HEnvironment := (list (list (option nat))) (only parsing).

Record InvokeData := mkInvokeData {
  number_of_arguments : nat;
  dex_method_index : Z;
  original_invoke_type : InvokeType;
  is_intrinsic : bool;
}.

Inductive MethodLoadKind :=
| kStringInit | kRecursive | kDirectAddress | kDirectAddressWithFixup
| kDexCachePcRelative | kDexCacheViaMethod.

Inductive CodePtrLocation :=
| kCallSelf | kCallPCRelative | kCallDirect | kCallDirectWithFixup | kCallArtMethod.

Inductive ClinitCheckRequirement := kExplicit | kImplicit | kNone.

Record DispatchInfo := mkDispatchInfo {
  method_load_kind : MethodLoadKind;
  code_ptr_location : CodePtrLocation;
  method_load_data : Z;
  direct_code_ptr : Z;
}.

Record StaticOrDirectData := mkStaticOrDirectData {
  target_method : DexFile * Z;            (* MethodReference *)
  dispatch_info : DispatchInfo;
  invoke_type : InvokeType;
  clinit_check_requirement : ClinitCheckRequirement;
}.

Record FieldInfo := mkFieldInfo {
  field_offset : Z;
  field_is_volatile : bool;
  field_index : Z;
  field_class_def_index : Z;
  field_dex_file : DexFile;
  field_dex_cache : nat;
}.

Record LoadClassData := mkLoadClassData {
  type_index : Z;
  load_dex_file : DexFile;
  is_referrers_class : bool;
  needs_access_check : bool;
  is_in_dex_cache : bool;
}.

Inductive InstrPayload :=
| PInvokeVirtual (d : InvokeData)
| PInvokeInterface (d : InvokeData)
| PInvokeStaticOrDirect (d : InvokeData) (sd : StaticOrDirectData)
| PNullCheck
| PInstanceFieldGet (f : FieldInfo)
| PLoadClass (lc : LoadClassData)
| PDevirtGuard
| PCurrentMethod
| POther.

Record HInstruction := mkHInstruction {
  payload : InstrPayload;
  inputs : list (option InstrRef);
  type_ : Primitive_Type;
  dex_pc : Z;
  environment : option HEnvironment;
  reference_type_info : ReferenceTypeInfo;
  side_effects : SideEffects;
}.

Definition set_inputs (l : list (option InstrRef)) (i : HInstruction) : HInstruction :=
  mkHInstruction (payload i) l (type_ i) (dex_pc i) (environment i)
                 (reference_type_info i) (side_effects i).

Definition set_environment (e : option HEnvironment) (i : HInstruction) : HInstruction :=
  mkHInstruction (payload i) (inputs i) (type_ i) (dex_pc i) e
                 (reference_type_info i) (side_effects i).

Definition SetReferenceTypeInfo (r : ReferenceTypeInfo) (i : HInstruction) : HInstruction :=
  mkHInstruction (payload i) (inputs i) (type_ i) (dex_pc i) (environment i)
                 r (side_effects i).

Definition SetSideEffects (se : SideEffects) (i : HInstruction) : HInstruction :=
  mkHInstruction (payload i) (inputs i) (type_ i) (dex_pc i) (environment i)
                 (reference_type_info i) se.

Definition IsInvokeVirtual (i : HInstruction) : bool :=
  match payload i with PInvokeVirtual _ => true | _ => false end.

Definition IsInvokeInterface (i : HInstruction) : bool :=
  match payload i with PInvokeInterface _ => true | _ => false end.

Definition IsNullCheck (i : HInstruction) : bool :=
  match payload i with PNullCheck => true | _ => false end.

(** Modelled from the spec: [AsInvoke()], the invoke view of an
    instruction, null when it is no invoke. *)
Definition AsInvoke (i : HInstruction) : option InvokeData :=
  match payload i with
  | PInvokeVirtual d | PInvokeInterface d | PInvokeStaticOrDirect d _ => Some d
  | _ => None
  end.

(** Modelled from the spec: [InputAt(n)]; an out-of-range read does not
    return. *)
Definition InputAt (i : HInstruction) (n : nat) : option (option InstrRef) :=
  inputs i !! n.

(** The graph: the arena (address = index), the instruction list of every
    basic block (block = index), and the two graph-level getters the pass
    uses.  [GetBlock()] of an instruction is the block whose list holds it.
    [cached_current_method_] is [None] while the graph has not materialised
    its [HCurrentMethod]; the model does not cover [GetCurrentMethod()] on
    such a graph. *)
Record HGraph := mkHGraph {
  arena : list HInstruction;
  blocks : list (list InstrRef);
  art_method_ : option ArtMethod;
  cached_current_method_ : option InstrRef;
}.

Definition set_arena (a : list HInstruction) (g : HGraph) : HGraph :=
  mkHGraph a (blocks g) (art_method_ g) (cached_current_method_ g).

Definition set_blocks (b : list (list InstrRef)) (g : HGraph) : HGraph :=
  mkHGraph (arena g) b (art_method_ g) (cached_current_method_ g).

(** ** The runtime the pass consults

    The resolver answers are functions of their arguments: during one run
    of the pass the dex cache and the class hierarchy do not change, and
    the target that [FindVirtualOrInterfaceTarget] derives for a call site
    is a property of that call site. *)

Record Runtime := mkRuntime {
  kIsDebugBuild : bool;
  (* compilation_unit_.GetDexCache()->GetResolvedMethod(idx, ptr_size) *)
  GetResolvedMethod : Z -> option ArtMethod;
  (* ext_utility: FindVirtualOrInterfaceTarget(invoke, resolved_method) *)
  FindVirtualOrInterfaceTarget : InstrRef -> ArtMethod -> option ArtMethod;
  IsMethodOrDeclaringClassFinal : ArtMethod -> bool;
  GetDeclaringClass : ArtMethod -> Class;
  (* ext_utility: FindClassIndexIn(cls, caller_dex_file, dex_cache) *)
  FindClassIndexIn : Class -> Z;
  (* ext_utility: FindMethodIndexIn(method, caller_dex_file, original_idx) *)
  FindMethodIndexIn : ArtMethod -> Z -> Z;
  FindVirtualMethodForInterface : Class -> ArtMethod -> option ArtMethod;
  FindVirtualMethodForVirtual : Class -> ArtMethod -> option ArtMethod;
  (* compilation_unit_.GetDexFile() *)
  caller_dex_file : DexFile;
  (* GetClassRoot(kJavaLangObject)->GetInstanceField(0) *)
  object_field0 : FieldInfo;
  object_field0_name : string;
  (* constants of devirtualization.h *)
  kCostOfLoadClass : Z;
  kCostOfDevirtCheck : Z;
  kCostOfLoadReferrerClass : Z;
  kCostOfVirtualInvokes : Z;
  (* what the HDevirtGuard constructor gives the guard *)
  DevirtGuard_side_effects : SideEffects;
}.

(** ** The pass object *)

Record HDevirtualization := mkPass {
  precise_prediction_ : gmap nat (option nat);
  imprecise_predictions_ : gmap nat (list (option nat));
  graph_ : HGraph;
}.

Definition set_precise (m : gmap nat (option nat)) (s : HDevirtualization) :=
  mkPass m (imprecise_predictions_ s) (graph_ s).

Definition set_imprecise (m : gmap nat (list (option nat))) (s : HDevirtualization) :=
  mkPass (precise_prediction_ s) m (graph_ s).

Definition set_graph (g : HGraph) (s : HDevirtualization) :=
  mkPass (precise_prediction_ s) (imprecise_predictions_ s) g.

(** Modelled from the spec: [SafeMap::Put] of the prediction cache ("a
    mapping from CallSite to TypePrediction"); a wrapper over
    [std::map::emplace], which leaves an existing entry alone. *)
Definition Put {V} (k : nat) (v : V) (m : gmap nat V) : gmap nat V :=
  match m !! k with
  | Some _ => m
  | None => <[k := v]> m
  end.

(** Modelled from the spec: [find(k) != end()] on such a map. *)
Definition found {V} (k : nat) (m : gmap nat V) : bool :=
  match m !! k with Some _ => true | None => false end.

(** Modelled from the spec: [count(k)] on such a map, the number of entries
    under the key. *)
Definition count {V} (k : nat) (m : gmap nat V) : Z :=
  match m !! k with Some _ => 1 | None => 0 end.

(** Modelled from the spec: the [DCHECK] macro ("reported via a debug-only
    assertion"): checked in debug builds only; the condition is not even
    evaluated otherwise. *)
Definition DCHECK (R : Runtime) (c : option bool) : option unit :=
  if kIsDebugBuild R then
    match c with Some true => Some tt | _ => None end
  else Some tt.

Section Pass.
Context (R : Runtime).

Definition IsCandidate (s : HDevirtualization) (instr : InstrRef) : option bool :=
  i ← arena (graph_ s) !! instr;
  if IsInvokeVirtual i || IsInvokeInterface i then
    d ← AsInvoke i;
    Some (negb (is_intrinsic d))
  else Some false.

Definition Gate (s : HDevirtualization) (base_gate : bool) : bool :=
  match art_method_ (graph_ s) with
  | None => false
  | Some _ => base_gate
  end.

Definition FindTypesFromProfile (invoke : InstrRef) (caller_method : option ArtMethod)
  : list TypeHandle := [].

Definition HasPrediction (instr : InstrRef) (update : bool) (s : HDevirtualization)
  : option (bool * HDevirtualization) :=
  _ ← DCHECK R (IsCandidate s instr);
  if found instr (precise_prediction_ s) then Some (true, s)
  else if found instr (imprecise_predictions_ s) then Some (true, s)
  else
    i ← arena (graph_ s) !! instr;
    invoke ← AsInvoke i;
    let method_index := dex_method_index invoke in
    match GetResolvedMethod R method_index with
    | Some resolved_method =>
        match FindVirtualOrInterfaceTarget R instr resolved_method with
        | Some actual_method =>
            if update then
              type ←
                (if IsMethodOrDeclaringClassFinal R actual_method then
                   Some (NewHandle (GetDeclaringClass R actual_method))
                 else
                   r0 ← InputAt i 0;
                   receiver ← r0;
                   ri ← arena (graph_ s) !! receiver;
                   if IsNullCheck ri then
                     r1 ← InputAt ri 0;
                     receiver' ← r1;
                     ri' ← arena (graph_ s) !! receiver';
                     Some (rti_type_handle (reference_type_info ri'))
                   else Some (rti_type_handle (reference_type_info ri)));
              _ ← DCHECK R (Some (bool_decide (is_Some type)));
              Some (true, set_precise (Put instr type (precise_prediction_ s)) s)
            else Some (true, s)
        | None =>
            let possible_targets :=
              FindTypesFromProfile instr (art_method_ (graph_ s)) in
            if negb (length possible_targets =? 0)%nat then
              if update then
                Some (true, set_imprecise
                              (Put instr possible_targets (imprecise_predictions_ s)) s)
              else Some (true, s)
            else Some (false, s)
        end
    | None => Some (false, s)
    end.

Definition GetMaxCost : Z := wrap64 (kCostOfLoadClass R + kCostOfDevirtCheck R).

(** The body of the [for (auto it : types)] loop of [GetCost]. *)
Definition GetCost_step (referrer_class : Class) (cost : Z) (it : TypeHandle) : option Z :=
  c ← Handle_Get it;
  if (c =? referrer_class)%nat then
    Some (wrap64 (cost + wrap64 (kCostOfLoadReferrerClass R + kCostOfDevirtCheck R)))
  else
    Some (wrap64 (cost + GetMaxCost)).

Fixpoint GetCost_loop (referrer_class : Class) (types : list TypeHandle) (cost : Z)
  : option Z :=
  match types with
  | [] => Some cost
  | it :: rest =>
      cost' ← GetCost_step referrer_class cost it;
      GetCost_loop referrer_class rest cost'
  end.

Definition GetCost (s : HDevirtualization) (instr : InstrRef) : option Z :=
  _ ← DCHECK R (fst <$> HasPrediction instr false s);
  if found instr (precise_prediction_ s) then Some 0
  else
    _ ← DCHECK R (Some (negb (count instr (imprecise_predictions_ s) =? 0)));
    types ← imprecise_predictions_ s !! instr;
    m ← art_method_ (graph_ s);
    let referrer_class := GetDeclaringClass R m in
    GetCost_loop referrer_class types 0.

Definition GetMispredictRate (s : HDevirtualization) (instr : InstrRef) : option (Z * Z) :=
  _ ← DCHECK R (fst <$> HasPrediction instr false s);
  if found instr (precise_prediction_ s) then Some (0, 10)
  else
    _ ← DCHECK R (Some (found instr (imprecise_predictions_ s)));
    let count := count instr (imprecise_predictions_ s) in
    if count =? 1 then Some (1, 10)
    else Some (wrap64 (count - 1), count).

Definition GetProfit (s : HDevirtualization) (instr : InstrRef) : option Z :=
  _ ← DCHECK R (fst <$> HasPrediction instr false s);
  i ← arena (graph_ s) !! instr;
  d ← AsInvoke i;
  let num_arguments := wrap32 (Z.of_nat (number_of_arguments d) + 1) in
  Some (wrap64 (kCostOfVirtualInvokes R + num_arguments)).

Definition GetPrimaryType (s : HDevirtualization) (invoke : InstrRef) : option TypeHandle :=
  if found invoke (precise_prediction_ s) then
    precise_prediction_ s !! invoke
  else
    types ← imprecise_predictions_ s !! invoke;
    types !! 0%nat.

Definition GetRecoveryMethod (s : HDevirtualization) (instr : InstrRef)
  : option SpeculationRecoveryApproach :=
  if found instr (precise_prediction_ s) then Some kRecoveryNotNeeded
  else
    types ← imprecise_predictions_ s !! instr;
    let prediction_count := length types in
    if (prediction_count =? 1)%nat then Some kRecoveryDeopt
    else Some kRecoveryCodeVersioning.

End Pass.

(** ** The IR operations the pass calls

    These belong to the graph ([HGraph], [HBasicBlock], [HInstruction]),
    which is declared outside devirtualization.cc; the pass only calls them
    ("read/insert/replace operations on instructions within a basic block,
    preserving block-local program order").  Use lists are not stored: the
    users of an instruction are the instructions of the graph that name it
    as an input or in their environment. *)

(** Modelled from the spec: [new (graph_->GetArena()) T(...)], arena
    allocation of an IR node. *)
Definition New (i : HInstruction) (g : HGraph) : InstrRef * HGraph :=
  (length (arena g), set_arena (arena g ++ [i]) g).

(** Modelled from the spec: a write through an instruction pointer. *)
Definition update_instr (r : InstrRef) (f : HInstruction -> HInstruction) (g : HGraph)
  : option HGraph :=
  _ ← arena g !! r;
  Some (set_arena (alter f r (arena g)) g).

(** Modelled from the spec: [instr->GetBlock()], null for an instruction
    that is in no block. *)
Definition GetBlock (g : HGraph) (r : InstrRef) : option BlockRef :=
  fst <$> list_find (λ l : list nat, r ∈ l) (blocks g).

Definition in_graph (g : HGraph) (r : InstrRef) : bool :=
  match GetBlock g r with Some _ => true | None => false end.

(** Modelled from the spec: [graph_->GetCurrentMethod()] on a graph that
    holds its [HCurrentMethod] in a block. *)
Definition GetCurrentMethod (g : HGraph) : option InstrRef :=
  cm ← cached_current_method_ g;
  if in_graph g cm then Some cm else None.

Fixpoint insert_before (x cursor : InstrRef) (l : list InstrRef) : option (list InstrRef) :=
  match l with
  | [] => None
  | y :: l' =>
      if decide (y = cursor) then Some (x :: y :: l')
      else (y ::.) <$> insert_before x cursor l'
  end.

Fixpoint insert_after (x cursor : InstrRef) (l : list InstrRef) : option (list InstrRef) :=
  match l with
  | [] => None
  | y :: l' =>
      if decide (y = cursor) then Some (y :: x :: l')
      else (y ::.) <$> insert_after x cursor l'
  end.

(** Modelled from the spec: [block->InsertInstructionBefore(instruction,
    cursor)]; [insert_before] is the list surgery. *)
Definition InsertInstructionBefore (b : BlockRef) (instruction cursor : InstrRef) (g : HGraph)
  : option HGraph :=
  l ← blocks g !! b;
  l' ← insert_before instruction cursor l;
  Some (set_blocks (<[b := l']> (blocks g)) g).

(** Modelled from the spec: [block->InsertInstructionAfter(instruction,
    cursor)]; [insert_after] is the list surgery. *)
Definition InsertInstructionAfter (b : BlockRef) (instruction cursor : InstrRef) (g : HGraph)
  : option HGraph :=
  l ← blocks g !! b;
  l' ← insert_after instruction cursor l;
  Some (set_blocks (<[b := l']> (blocks g)) g).

Definition replace_ref (initial other : InstrRef) (x : option InstrRef) : option InstrRef :=
  match x with
  | Some y => if decide (y = initial) then Some other else x
  | None => None
  end.

Definition replace_in_env (initial other : InstrRef) (e : HEnvironment) : HEnvironment :=
  map (map (replace_ref initial other)) e.

Definition replace_uses (initial other : InstrRef) (i : HInstruction) : HInstruction :=
  set_environment (replace_in_env initial other <$> environment i)
    (set_inputs (map (replace_ref initial other) (inputs i)) i).

(** Modelled from the spec: [initial->ReplaceWith(other)]: every user of
    [initial], by input or by environment, now names [other]. *)
Definition ReplaceWith (initial other : InstrRef) (g : HGraph) : HGraph :=
  set_arena
    (imap (λ a i, if in_graph g a then replace_uses initial other i else i) (arena g))
    g.

(** Modelled from the spec: [block->RemoveInstruction(initial)]: unlinks
    it; the object stays in the arena. *)
Definition RemoveInstruction (b : BlockRef) (initial : InstrRef) (g : HGraph) : option HGraph :=
  l ← blocks g !! b;
  Some (set_blocks (<[b := filter (λ x, x ≠ initial) l]> (blocks g)) g).

(** Modelled from the spec:
    [block->ReplaceAndRemoveInstructionWith(initial, replacement)] for an
    [initial] that is no control-flow instruction: the replacement is
    inserted before it, takes over its users, and the original is removed. *)
Definition ReplaceAndRemoveInstructionWith (b : BlockRef) (initial replacement : InstrRef)
    (g : HGraph) : option HGraph :=
  g1 ← InsertInstructionBefore b replacement initial g;
  RemoveInstruction b initial (ReplaceWith initial replacement g1).

(** Modelled from the spec: [instr->CopyEnvironmentFrom(env)]: [env] is
    dereferenced, and the instruction must sit in a block (its arena is
    reached through it). *)
Definition CopyEnvironmentFrom (r : InstrRef) (env : option HEnvironment) (g : HGraph)
  : option HGraph :=
  e ← env;
  _ ← GetBlock g r;
  update_instr r (set_environment (Some e)) g.

Definition NeedsCurrentMethodInput (k : MethodLoadKind) : bool :=
  match k with kRecursive | kDexCacheViaMethod => true | _ => false end.

(** Modelled from the spec: the [HInstanceFieldGet] constructor. *)
Definition HInstanceFieldGet_new (value : option InstrRef) (field_type : Primitive_Type)
    (f : FieldInfo) (pc : Z) : HInstruction :=
  mkHInstruction (PInstanceFieldGet f) [value] field_type pc None RTI_invalid
                 (SE_FieldReadOfType field_type (field_is_volatile f)).

(** Modelled from the spec: the [HLoadClass] constructor. *)
Definition HLoadClass_new (current_method : InstrRef) (lc : LoadClassData) (pc : Z)
  : HInstruction :=
  mkHInstruction (PLoadClass lc) [Some current_method] kPrimNot pc None RTI_invalid
                 SE_CanTriggerGC.

(** Modelled from the spec: the [HInvokeStaticOrDirect] constructor: the
    inputs are allocated and left null. *)
Definition HInvokeStaticOrDirect_new (nargs : nat) (return_type : Primitive_Type) (pc : Z)
    (method_index : Z) (target : DexFile * Z) (di : DispatchInfo)
    (original : InvokeType) (it : InvokeType) (clinit : ClinitCheckRequirement)
  : HInstruction :=
  mkHInstruction
    (PInvokeStaticOrDirect (mkInvokeData nargs method_index original false)
                           (mkStaticOrDirectData target di it clinit))
    (replicate (nargs
                + (if NeedsCurrentMethodInput (method_load_kind di) then 1 else 0)
                + (match clinit with kExplicit => 1 | _ => 0 end))%nat None)
    return_type pc None RTI_invalid SE_AllExceptGCDependency.

(** Modelled from the spec: [SetArgumentAt(index, argument)]: a write past
    the inputs does not return. *)
Definition SetArgumentAt (index : nat) (argument : option InstrRef) (i : HInstruction)
  : option HInstruction :=
  if decide (index < length (inputs i))%nat then
    Some (set_inputs (<[index := argument]> (inputs i)) i)
  else None.

Section Rewriting.
Context (R : Runtime).

(** Modelled from the spec: the [HDevirtGuard] constructor ("a guard
    instruction combining (a) and (b) into a boolean outcome"). *)
Definition HDevirtGuard_new (prediction class_getter : InstrRef) (pc : Z) : HInstruction :=
  mkHInstruction PDevirtGuard [Some prediction; Some class_getter] kPrimBoolean pc None
                 RTI_invalid (DevirtGuard_side_effects R).

Definition InsertSpeculationGuard (instr_guarded instr_cursor : InstrRef)
    (s : HDevirtualization) : option (option InstrRef * HDevirtualization) :=
  let g := graph_ s in
  i ← arena g !! instr_guarded;
  invoke ← AsInvoke i;
  object ← InputAt i 0;
  type ← GetPrimaryType s instr_guarded;
  cls ← Handle_Get type;
  let class_index := FindClassIndexIn R cls in
  if class_index =? kDexNoIndex then Some (None, s)
  else
    let loaded_type := kPrimNot in
    let field := object_field0 R in
    _ ← DCHECK R (Some (String.eqb (object_field0_name R) "shadow$_klass_"));
    let '(class_getter, g) :=
      New (HInstanceFieldGet_new object loaded_type field (dex_pc i)) g in
    g ← update_instr class_getter (SetSideEffects SE_None) g;
    m ← art_method_ g;
    let is_referrer := (cls =? GetDeclaringClass R m)%nat in
    cm ← GetCurrentMethod g;
    let '(prediction, g) :=
      New (HLoadClass_new cm
             (mkLoadClassData class_index (caller_dex_file R) is_referrer false true)
             (dex_pc i)) g in
    let '(guard_, g) := New (HDevirtGuard_new prediction class_getter (dex_pc i)) g in
    insertion_bb ← GetBlock g instr_cursor;
    g ← InsertInstructionBefore insertion_bb prediction instr_cursor g;
    g ← InsertInstructionAfter insertion_bb class_getter prediction g;
    g ← InsertInstructionAfter insertion_bb guard_ class_getter g;
    Some (Some guard_, set_graph g s).

(** The loop [for (i = 0, e = invoke->InputCount(); i < e; ++i)] of
    [HandleSpeculation], from index [i] on. *)
Fixpoint copy_arguments (src : list (option InstrRef)) (i : nat) (new_invoke : HInstruction)
  : option HInstruction :=
  match src with
  | [] => Some new_invoke
  | input :: rest =>
      new_invoke' ← SetArgumentAt i input new_invoke;
      copy_arguments rest (S i) new_invoke'
  end.

(** The scoped block of [HandleSpeculation] that finds the target method.
    [Some None] is one of its [return false] exits; [Some (Some idx)] leaves
    the block with [method_index = idx]. *)
Definition HandleSpeculation_find_target (instr : InstrRef) (guard_inserted : bool)
    (s : HDevirtualization) : option (option Z) :=
  let g := graph_ s in
  i ← arena g !! instr;
  invoke ← AsInvoke i;
  type ← GetPrimaryType s instr;
  referenceable ←
    (if negb guard_inserted || kIsDebugBuild R then
       cls ← Handle_Get type;
       let class_index := FindClassIndexIn R cls in
       if kIsDebugBuild R && guard_inserted then
         if class_index =? kDexNoIndex then None else Some true
       else if class_index =? kDexNoIndex then Some false
       else Some true
     else Some true);
  if negb referenceable then Some None
  else
    _ ← DCHECK R (Some (bool_decide (is_Some (GetResolvedMethod R (dex_method_index invoke)))));
    match GetResolvedMethod R (dex_method_index invoke) with
    | None => Some None
    | Some resolved_method =>
        actual_method ←
          (if negb (IsMethodOrDeclaringClassFinal R resolved_method) then
             cls ← Handle_Get type;
             if IsInvokeInterface i then
               Some (FindVirtualMethodForInterface R cls resolved_method)
             else
               _ ← DCHECK R (Some (IsInvokeVirtual i));
               Some (FindVirtualMethodForVirtual R cls resolved_method)
           else Some (Some resolved_method));
        match actual_method with
        | None => Some None
        | Some actual_method =>
            let method_index :=
              FindMethodIndexIn R actual_method (dex_method_index invoke) in
            if method_index =? kDexNoIndex then Some None
            else Some (Some method_index)
        end
    end.

(** The rest of [HandleSpeculation]: build the direct call and put it in
    the place of the original one. *)
Definition HandleSpeculation_rewrite (instr : InstrRef) (method_index : Z)
    (s : HDevirtualization) : option (bool * HDevirtualization) :=
  let g := graph_ s in
  i ← arena g !! instr;
  invoke ← AsInvoke i;
  let target_method := (caller_dex_file R, method_index) in
  let dispatch_info := mkDispatchInfo kDexCacheViaMethod kCallArtMethod 0 0 in
  let '(new_invoke, g) :=
    New (HInvokeStaticOrDirect_new
           (number_of_arguments invoke) (type_ i) (dex_pc i) method_index
           target_method dispatch_info (original_invoke_type invoke)
           kDirect kNone) g in
  ni ← arena g !! new_invoke;
  ni ← copy_arguments (inputs i) 0 ni;
  ni ←
    (if NeedsCurrentMethodInput (method_load_kind dispatch_info) then
       cm ← GetCurrentMethod g;
       SetArgumentAt (length (inputs i)) (Some cm) ni
     else Some ni);
  let ni :=
    if decide (type_ i = kPrimNot)
    then SetReferenceTypeInfo (reference_type_info i) ni
    else ni in
  _ ← DCHECK R (Some (negb (is_intrinsic invoke)));
  g ← update_instr new_invoke (λ _, ni) g;
  b ← GetBlock g instr;
  g ← ReplaceAndRemoveInstructionWith b instr new_invoke g;
  old ← arena g !! instr;
  g ← CopyEnvironmentFrom new_invoke (environment old) g;
  Some (true, set_graph g s).

Definition HandleSpeculation (instr : InstrRef) (guard_inserted : bool)
    (s : HDevirtualization) : option (bool * HDevirtualization) :=
  found_index ← HandleSpeculation_find_target instr guard_inserted s;
  match found_index with
  | None => Some (false, s)
  | Some method_index => HandleSpeculation_rewrite instr method_index s
  end.

Definition IsPredictionSame (s : HDevirtualization) (instr instr2 : InstrRef)
  : option bool :=
  _ ← DCHECK R (fst <$> HasPrediction R instr false s);
  _ ← DCHECK R (fst <$> HasPrediction R instr2 false s);
  i1 ← arena (graph_ s) !! instr;
  _ ← AsInvoke i1;
  i2 ← arena (graph_ s) !! instr2;
  _ ← AsInvoke i2;
  o1 ← InputAt i1 0;
  o2 ← InputAt i2 0;
  if bool_decide (o1 = o2) then Some true
  else
    type1 ← GetPrimaryType s instr;
    type2 ← GetPrimaryType s instr2;
    c1 ← Handle_Get type1;
    c2 ← Handle_Get type2;
    Some (c1 =? c2)%nat.

End Rewriting.

(** ** The pass as a state machine *)

(** The pass object as its constructor leaves it: empty caches. *)
Definition new_pass (g : HGraph) : HDevirtualization := mkPass ∅ ∅ g.

Inductive Operation :=
| OpHasPrediction (instr : InstrRef) (update : bool)
| OpGetCost (instr : InstrRef)
| OpGetMispredictRate (instr : InstrRef)
| OpGetProfit (instr : InstrRef)
| OpGetRecoveryMethod (instr : InstrRef)
| OpIsPredictionSame (instr instr2 : InstrRef)
| OpInsertSpeculationGuard (instr_guarded instr_cursor : InstrRef)
| OpHandleSpeculation (instr : InstrRef) (guard_inserted : bool).

(** The pass state an operation leaves behind, when it returns. *)
Definition run (R : Runtime) (op : Operation) (s : HDevirtualization)
  : option HDevirtualization :=
  match op with
  | OpHasPrediction instr update => snd <$> HasPrediction R instr update s
  | OpGetCost instr => _ ← GetCost R s instr; Some s
  | OpGetMispredictRate instr => _ ← GetMispredictRate R s instr; Some s
  | OpGetProfit instr => _ ← GetProfit R s instr; Some s
  | OpGetRecoveryMethod instr => _ ← GetRecoveryMethod s instr; Some s
  | OpIsPredictionSame instr instr2 => _ ← IsPredictionSame R s instr instr2; Some s
  | OpInsertSpeculationGuard instr_guarded instr_cursor =>
      snd <$> InsertSpeculationGuard R instr_guarded instr_cursor s
  | OpHandleSpeculation instr guard_inserted =>
      snd <$> HandleSpeculation R instr guard_inserted s
  end.

Fixpoint run_all (R : Runtime) (ops : list Operation) (s : HDevirtualization)
  : option HDevirtualization :=
  match ops with
  | [] => Some s
  | op :: rest => s' ← run R op s; run_all R rest s'
  end.

(** [HasPrediction(instr, false)] called [n] times in a row: the answers,
    and the pass state at the end. *)
Fixpoint query_n (R : Runtime) (instr : InstrRef) (n : nat) (s : HDevirtualization)
  : option (list bool * HDevirtualization) :=
  match n with
  | O => Some ([], s)
  | S n' =>
      '(b, s1) ← HasPrediction R instr false s;
      '(bs, s2) ← query_n R instr n' s1;
      Some (b :: bs, s2)
  end.

(** What [~HDevirtualization] checks of the two maps: every imprecise entry
    has at least one type and no precise entry beside it. *)
Definition cache_invariant (s : HDevirtualization) : Prop :=
  map_Forall
    (λ k (types : list (option nat)),
       (0 < length types)%nat ∧ precise_prediction_ s !! k = None)
    (imprecise_predictions_ s).

(** A prediction is cached for the call site. *)
Definition has_cached (s : HDevirtualization) (instr : InstrRef) : Prop :=
  is_Some (precise_prediction_ s !! instr) ∨ is_Some (imprecise_predictions_ s !! instr).

(** ** Specification vocabulary *)

(** What the cost model says one candidate costs, without any wrap-around. *)
Definition candidate_cost (R : Runtime) (referrer_class : nat) (c : nat) : Z :=
  if (c =? referrer_class)%nat
  then kCostOfLoadReferrerClass R + kCostOfDevirtCheck R
  else kCostOfLoadClass R + kCostOfDevirtCheck R.

Fixpoint total_cost (R : Runtime) (referrer_class : nat) (cls : list nat) : Z :=
  match cls with
  | [] => 0
  | c :: rest => candidate_cost R referrer_class c + total_cost R referrer_class rest
  end.


(** The constants are [uint64_t] values. *)
Definition cost_constants_in_range (R : Runtime) : Prop :=
  0 ≤ kCostOfLoadClass R < 2 ^ 64 ∧
  0 ≤ kCostOfDevirtCheck R < 2 ^ 64 ∧
  0 ≤ kCostOfLoadReferrerClass R < 2 ^ 64.

Definition graph_wf (g : HGraph) : Prop :=
  NoDup (mjoin (blocks g)) ∧
  Forall (λ r, (r < length (arena g))%nat) (mjoin (blocks g)).

(** Every object of [g] is still at its address in [g'], with its kind and
    constructor data. *)
Definition arena_extends (g g' : HGraph) : Prop :=
  ∀ r i, arena g !! r = Some i → ∃ i', arena g' !! r = Some i' ∧ payload i' = payload i.

(** The actual dispatch target that [HasPrediction] determines statically
    for a call site: the resolved method of the call, sharpened by
    [FindVirtualOrInterfaceTarget]. *)
Definition static_target (R : Runtime) (g : HGraph) (instr : nat) : option nat :=
  i ← arena g !! instr;
  invoke ← AsInvoke i;
  resolved_method ← GetResolvedMethod R (dex_method_index invoke);
  FindVirtualOrInterfaceTarget R instr resolved_method.

(** What holds of every state the pass can reach. *)
Definition only_precise (R : Runtime) (s : HDevirtualization) : Prop :=
  imprecise_predictions_ s = ∅ ∧
  ∀ instr, is_Some (precise_prediction_ s !! instr) →
           is_Some (static_target R (graph_ s) instr).

(** [seq] now sits immediately before [cursor] in its block, and nothing
    else in any block moved. *)
Definition inserted_before (g g' : HGraph) (cursor : nat) (seq : list nat) : Prop :=
  ∃ b pre post,
    GetBlock g cursor = Some b ∧
    blocks g !! b = Some (pre ++ cursor :: post) ∧
    (cursor ∉ pre) ∧
    blocks g' = <[b := pre ++ seq ++ cursor :: post]> (blocks g).

(** The load of the runtime type of [receiver]: a read, as a reference and
    at the dex pc [pc], of the first instance field of [java.lang.Object]
    (the class field), marked free of side effects. *)
Definition is_type_load (R : Runtime) (g : HGraph) (receiver : option nat) (pc : Z)
    (r : nat) : Prop :=
  ∃ i, arena g !! r = Some i ∧
       payload i = PInstanceFieldGet (object_field0 R) ∧
       inputs i = [receiver] ∧
       type_ i = kPrimNot ∧
       dex_pc i = pc ∧
       side_effects i = SE_None.

(** A reference at the dex pc [pc], through the instruction [current_method],
    to the class with index [class_index] of the caller's dex file, taken
    from the dex cache without an access check; [is_referrer] says whether it
    is the class of the method being compiled. *)
Definition is_type_reference (R : Runtime) (g : HGraph) (current_method : nat)
    (class_index : Z) (is_referrer : bool) (pc : Z) (r : nat) : Prop :=
  ∃ i, arena g !! r = Some i ∧
       payload i =
         PLoadClass (mkLoadClassData class_index (caller_dex_file R) is_referrer false true) ∧
       inputs i = [Some current_method] ∧
       dex_pc i = pc.

(** A guard at the dex pc [pc] that compares [prediction] with
    [class_getter]. *)
Definition is_guard (g : HGraph) (prediction class_getter : nat) (pc : Z) (r : nat) : Prop :=
  ∃ i, arena g !! r = Some i ∧ payload i = PDevirtGuard ∧
       inputs i = [Some prediction; Some class_getter] ∧
       dex_pc i = pc.

(** The three instructions of a guard are new and are what the block
    received, in the order [seq]: the load of the class of the receiver of
    the guarded call, the reference to its primary predicted type, and the
    guard on the two. *)
Definition guard_sequence (R : Runtime) (s s' : HDevirtualization)
    (instr cursor : nat) (load ref guard_ : nat) (seq : list nat) : Prop :=
  ∃ i cls m cm,
    arena (graph_ s) !! instr = Some i ∧
    GetPrimaryType s instr = Some (Some cls) ∧
    art_method_ (graph_ s) = Some m ∧
    GetCurrentMethod (graph_ s) = Some cm ∧
    (∃ x y z, arena (graph_ s') = arena (graph_ s) ++ [x; y; z]) ∧
    (length (arena (graph_ s)) ≤ load)%nat ∧
    (length (arena (graph_ s)) ≤ ref)%nat ∧
    (length (arena (graph_ s)) ≤ guard_)%nat ∧
    NoDup [load; ref; guard_] ∧
    inserted_before (graph_ s) (graph_ s') cursor seq ∧
    (∃ receiver, InputAt i 0 = Some receiver ∧
                 is_type_load R (graph_ s') receiver (dex_pc i) load) ∧
    is_type_reference R (graph_ s') cm (FindClassIndexIn R cls)
      (cls =? GetDeclaringClass R m)%nat (dex_pc i) ref ∧
    is_guard (graph_ s') ref load (dex_pc i) guard_.

(** The order the specification gives: type load, type reference, guard. *)
Definition guard_sequence_load_first (R : Runtime) (s s' : HDevirtualization)
    (instr cursor guard_ : nat) : Prop :=
  ∃ load ref, guard_sequence R s s' instr cursor load ref guard_ [load; ref; guard_].

(** The order of the insertions in the code: type reference, type load,
    guard. *)
Definition guard_sequence_reference_first (R : Runtime) (s s' : HDevirtualization)
    (instr cursor guard_ : nat) : Prop :=
  ∃ load ref, guard_sequence R s s' instr cursor load ref guard_ [ref; load; guard_].

(** The concrete method [HandleSpeculation] dispatches to: the resolved
    method itself when it is final, its override in the predicted type
    otherwise. *)
Inductive concrete_override (R : Runtime) (i : HInstruction) (cls : option nat)
    (resolved_method : nat) : option nat → Prop :=
| override_final :
    IsMethodOrDeclaringClassFinal R resolved_method = true →
    concrete_override R i cls resolved_method (Some resolved_method)
| override_interface c :
    IsMethodOrDeclaringClassFinal R resolved_method = false →
    cls = Some c → IsInvokeInterface i = true →
    concrete_override R i cls resolved_method
      (FindVirtualMethodForInterface R c resolved_method)
| override_virtual c :
    IsMethodOrDeclaringClassFinal R resolved_method = false →
    cls = Some c → IsInvokeInterface i = false →
    concrete_override R i cls resolved_method
      (FindVirtualMethodForVirtual R c resolved_method).

(** Why [HandleSpeculation] gives up on a call site. *)
Inductive rewrite_failure (R : Runtime) (s : HDevirtualization) (instr : nat)
    (guard_inserted : bool) : Prop :=
| failure_type_not_referenceable i invoke cls :
    arena (graph_ s) !! instr = Some i → AsInvoke i = Some invoke →
    GetPrimaryType s instr = Some (Some cls) →
    guard_inserted = false →
    FindClassIndexIn R cls = kDexNoIndex →
    rewrite_failure R s instr guard_inserted
| failure_unresolved i invoke :
    arena (graph_ s) !! instr = Some i → AsInvoke i = Some invoke →
    kIsDebugBuild R = false →
    GetResolvedMethod R (dex_method_index invoke) = None →
    rewrite_failure R s instr guard_inserted
| failure_no_override i invoke type resolved_method :
    arena (graph_ s) !! instr = Some i → AsInvoke i = Some invoke →
    GetPrimaryType s instr = Some type →
    GetResolvedMethod R (dex_method_index invoke) = Some resolved_method →
    concrete_override R i type resolved_method None →
    rewrite_failure R s instr guard_inserted
| failure_method_not_referenceable i invoke type resolved_method actual_method :
    arena (graph_ s) !! instr = Some i → AsInvoke i = Some invoke →
    GetPrimaryType s instr = Some type →
    GetResolvedMethod R (dex_method_index invoke) = Some resolved_method →
    concrete_override R i type resolved_method (Some actual_method) →
    FindMethodIndexIn R actual_method (dex_method_index invoke) = kDexNoIndex →
    rewrite_failure R s instr guard_inserted.

Module Example.

(** A method [m60] of class 160 whose body makes a virtual call (object 3)
    and an interface call on its result (object 4). *)
Definition arena0 : list HInstruction :=
  [ mkHInstruction PCurrentMethod [] kPrimInt 0 None RTI_invalid SE_None;
    mkHInstruction POther [] kPrimNot 0 None (mkRTI (Some 171%nat) true) SE_None;
    mkHInstruction POther [] kPrimInt 0 None RTI_invalid SE_None;
    mkHInstruction (PInvokeVirtual (mkInvokeData 2 7 kVirtual false))
      [Some 1%nat; Some 2%nat] kPrimNot 12
      (Some [[Some 1%nat; Some 2%nat; None]]) (mkRTI (Some 6%nat) false)
      SE_AllExceptGCDependency;
    mkHInstruction (PInvokeInterface (mkInvokeData 1 9 kInterface false))
      [Some 3%nat] kPrimInt 14
      (Some [[Some 1%nat; Some 3%nat; None]]) RTI_invalid SE_AllExceptGCDependency;
    mkHInstruction POther [Some 4%nat] kPrimVoid 15 None RTI_invalid SE_None ].

Definition graph0 : HGraph :=
  mkHGraph arena0 [[0; 1; 2]; [3; 4; 5]]%nat (Some 60%nat) (Some 0%nat).

Definition runtime0 : Runtime :=
  mkRuntime true
    (λ idx, if idx =? 7 then Some 70%nat else if idx =? 9 then Some 90%nat else None)
    (λ instr m, if (instr =? 3)%nat && (m =? 70)%nat then Some 71%nat else None)
    (λ m, (m =? 71)%nat)
    (λ m, (m + 100)%nat)
    (λ c, if (c =? 171)%nat then 4 else if (c =? 5)%nat then 12 else kDexNoIndex)
    (λ m _, if (m =? 71)%nat then 8 else kDexNoIndex)
    (λ c m, if (m =? 90)%nat then Some 72%nat else None)
    (λ c m, if (c =? 171)%nat && (m =? 70)%nat then Some 71%nat else None)
    1%nat (mkFieldInfo 0 false 0 0 2%nat 3%nat) "shadow$_klass_"
    3 2 1 10 SE_CanTriggerGC.

(** Call 3 predicted precisely. *)
Definition precise3 : HDevirtualization := mkPass {[3%nat := Some 171%nat]} ∅ graph0.

(** Call 4 with one, two and three profile-suggested types. *)
Definition one4 : HDevirtualization := mkPass ∅ {[4%nat := [Some 5%nat]]} graph0.
Definition two4 : HDevirtualization :=
  mkPass ∅ {[4%nat := [Some 5%nat; Some 160%nat]]} graph0.
Definition three4 : HDevirtualization :=
  mkPass ∅ {[4%nat := [Some 5%nat; Some 160%nat; Some 8%nat]]} graph0.

(** Call 4 predicted to be of a class the caller's dex file cannot name. *)
Definition foreign4 : HDevirtualization := mkPass ∅ {[4%nat := [Some 6%nat]]} graph0.

(** Call 3 predicted to be of class 5, which does not override its target. *)
Definition stray3 : HDevirtualization := mkPass {[3%nat := Some 5%nat]} ∅ graph0.

End Example.

(** ** Vocabulary of the further properties *)

(** The graph-level facts the pass only reads: the method being compiled and
    the graph's [HCurrentMethod]. *)
Definition same_method (g g' : HGraph) : Prop :=
  art_method_ g' = art_method_ g ∧ cached_current_method_ g' = cached_current_method_ g.

(** Both maps of [s'] answer for every call site cached in [s] what the maps
    of [s] answer. *)
Definition cache_kept (s s' : HDevirtualization) : Prop :=
  ∀ k, has_cached s k →
    precise_prediction_ s' !! k = precise_prediction_ s !! k ∧
    imprecise_predictions_ s' !! k = imprecise_predictions_ s !! k.

(** No instruction that sits in a block of [g] names [r], by input or in
    its environment. *)
Definition unused_in (g : HGraph) (r : nat) : Prop :=
  ∀ u j, in_graph g u = true → arena g !! u = Some j →
    (Some r ∉ inputs j) ∧
    (∀ env frame, environment j = Some env → frame ∈ env → Some r ∉ frame).

(** The instruction [j] names [r], by input or in its environment. *)
Definition names (j : HInstruction) (r : nat) : Prop :=
  Some r ∈ inputs j ∨
  ∃ env frame, environment j = Some env ∧ frame ∈ env ∧ Some r ∈ frame.

Module Example2.

(** A method whose virtual call (object 3) has a null check (object 2) of
    object 1 as its receiver. *)
Definition arena1 : list HInstruction :=
  [ mkHInstruction PCurrentMethod [] kPrimInt 0 None RTI_invalid SE_None;
    mkHInstruction POther [] kPrimNot 0 None (mkRTI (Some 171%nat) true) SE_None;
    mkHInstruction PNullCheck [Some 1%nat] kPrimNot 11
      (Some [[Some 1%nat]]) RTI_invalid SE_CanTriggerGC;
    mkHInstruction (PInvokeVirtual (mkInvokeData 1 7 kVirtual false))
      [Some 2%nat] kPrimInt 12
      (Some [[Some 1%nat; Some 2%nat]]) RTI_invalid SE_AllExceptGCDependency ].

Definition graph1 : HGraph :=
  mkHGraph arena1 [[0; 1; 2; 3]]%nat (Some 60%nat) (Some 0%nat).

(** The example runtime with no final method or class. *)
Definition runtime_open : Runtime :=
  mkRuntime true
    (GetResolvedMethod Example.runtime0)
    (FindVirtualOrInterfaceTarget Example.runtime0)
    (λ _, false)
    (GetDeclaringClass Example.runtime0)
    (FindClassIndexIn Example.runtime0)
    (FindMethodIndexIn Example.runtime0)
    (FindVirtualMethodForInterface Example.runtime0)
    (FindVirtualMethodForVirtual Example.runtime0)
    1%nat (mkFieldInfo 0 false 0 0 2%nat 3%nat) "shadow$_klass_"
    3 2 1 10 SE_CanTriggerGC.

(** The example runtime in a release build. *)
Definition runtime_release : Runtime :=
  mkRuntime false
    (GetResolvedMethod Example.runtime0)
    (FindVirtualOrInterfaceTarget Example.runtime0)
    (IsMethodOrDeclaringClassFinal Example.runtime0)
    (GetDeclaringClass Example.runtime0)
    (FindClassIndexIn Example.runtime0)
    (FindMethodIndexIn Example.runtime0)
    (FindVirtualMethodForInterface Example.runtime0)
    (FindVirtualMethodForVirtual Example.runtime0)
    1%nat (mkFieldInfo 0 false 0 0 2%nat 3%nat) "shadow$_klass_"
    3 2 1 10 SE_CanTriggerGC.


(** The pass on the example method: predict call 3, guard it, rewrite it. *)
Definition session : list Operation :=
  [OpHasPrediction 3 true; OpGetProfit 3; OpInsertSpeculationGuard 3 3;
   OpHandleSpeculation 3 true].

End Example2.

(** ** Proofs *)

Lemma found_true {V} k (m : gmap nat V) : found k m = true ↔ is_Some (m !! k).
Proof. unfold found. destruct (m !! k); split; intros H; try done; eauto; by destruct H. Qed.

Lemma found_false {V} k (m : gmap nat V) : found k m = false ↔ m !! k = None.
Proof. unfold found. by destruct (m !! k). Qed.

Lemma Put_fresh {V} k (v : V) m : m !! k = None → Put k v m = <[k := v]> m.
Proof. intros H. unfold Put. by rewrite H. Qed.

Lemma DCHECK_true R : DCHECK R (Some true) = Some tt.
Proof. unfold DCHECK. by destruct (kIsDebugBuild R). Qed.

Lemma HasPrediction_cached R s instr update :
  IsCandidate s instr = Some true → has_cached s instr →
  HasPrediction R instr update s = Some (true, s).
Proof.
  intros Hc Hp. unfold HasPrediction. rewrite Hc, DCHECK_true. simpl.
  destruct Hp as [Hp|Hp]; apply found_true in Hp; rewrite Hp; [done|].
  by destruct (found instr (precise_prediction_ s)).
Qed.

Lemma HasPrediction_inv R instr update s b s' :
  HasPrediction R instr update s = Some (b, s') →
  s' = s ∨
  (update = true ∧ b = true ∧
   precise_prediction_ s !! instr = None ∧ imprecise_predictions_ s !! instr = None ∧
   ((∃ type, s' = set_precise (<[instr := type]> (precise_prediction_ s)) s) ∨
    (∃ types, (0 < length types)%nat ∧
       s' = set_imprecise (<[instr := types]> (imprecise_predictions_ s)) s))).
Proof.
  unfold HasPrediction.
  generalize (FindTypesFromProfile instr (art_method_ (graph_ s))). intros types H.
  destruct (DCHECK R (IsCandidate s instr)); simpl in H; [|done].
  destruct (found instr (precise_prediction_ s)) eqn:Hp; [left; congruence|].
  destruct (found instr (imprecise_predictions_ s)) eqn:Hi; [left; congruence|].
  apply found_false in Hp, Hi. unfold Put in H. rewrite Hp, Hi in H.
  destruct (arena (graph_ s) !! instr) as [i|]; simpl in H; [|done].
  destruct (AsInvoke i) as [invoke|]; simpl in H; [|done].
  destruct (GetResolvedMethod R _) as [rm|]; [|left; congruence].
  destruct (FindVirtualOrInterfaceTarget R instr rm) as [am|].
  - destruct update; [|left; congruence].
    match type of H with (?t ≫= _) = _ => destruct t as [type|] end; simpl in H; [|done].
    destruct (DCHECK R _); simpl in H; [|done].
    injection H as <- <-. right. eauto 10.
  - destruct (Nat.eqb_spec (length types) 0); simpl in H; [left; congruence|].
    destruct update; [|left; congruence].
    injection H as <- <-. right.
    repeat split; try done. right. exists types. split; [lia|done].
Qed.

(** One step through a monadic definition that returned: the head of the
    bind returned too, the test went one way, the pair has two components. *)
Ltac bind_step H :=
  match type of H with
  | (mbind _ ?m) = Some _ =>
      let E := fresh "E" in destruct m eqn:E; simpl in H; [|discriminate H]
  | (if ?c then _ else _) = Some _ =>
      let E := fresh "E" in destruct c eqn:E; simpl in H
  | (let '(_, _) := ?p in _) = Some _ =>
      let E := fresh "E" in destruct p eqn:E; simpl in H
  end.

Lemma InsertSpeculationGuard_caches R g c s r s' :
  InsertSpeculationGuard R g c s = Some (r, s') →
  precise_prediction_ s' = precise_prediction_ s ∧
  imprecise_predictions_ s' = imprecise_predictions_ s.
Proof.
  unfold InsertSpeculationGuard, New. intros H.
  repeat (bind_step H; try discriminate H); by simplify_eq.
Qed.

Lemma HandleSpeculation_rewrite_caches R instr mi s r s' :
  HandleSpeculation_rewrite R instr mi s = Some (r, s') →
  r = true ∧ 
  precise_prediction_ s' = precise_prediction_ s ∧
  imprecise_predictions_ s' = imprecise_predictions_ s.
Proof.
  unfold HandleSpeculation_rewrite, New. intros H.
  repeat (bind_step H; try discriminate H); by simplify_eq.
Qed.

Lemma HandleSpeculation_inv R instr gi s b s' :
  HandleSpeculation R instr gi s = Some (b, s') →
  (b = false ∧ s' = s ∧ HandleSpeculation_find_target R instr gi s = Some None) ∨
  (b = true ∧ ∃ mi, HandleSpeculation_find_target R instr gi s = Some (Some mi) ∧
                    HandleSpeculation_rewrite R instr mi s = Some (true, s')).
Proof.
  unfold HandleSpeculation. intros H.
  destruct (HandleSpeculation_find_target R instr gi s) as [[mi|]|]; simpl in H; [| |done].
  - right. destruct (HandleSpeculation_rewrite_caches _ _ _ _ _ _ H) as [-> _]. eauto.
  - left. by simplify_eq.
Qed.

Lemma cache_invariant_new_pass g : cache_invariant (new_pass g).
Proof. unfold cache_invariant. simpl. apply map_Forall_empty. Qed.

Lemma cache_invariant_caches s s' :
  precise_prediction_ s' = precise_prediction_ s →
  imprecise_predictions_ s' = imprecise_predictions_ s →
  cache_invariant s → cache_invariant s'.
Proof. unfold cache_invariant. by intros -> ->. Qed.

Lemma HasPrediction_cache_invariant R instr update s b s' :
  cache_invariant s → HasPrediction R instr update s = Some (b, s') → cache_invariant s'.
Proof.
  intros Hinv H. apply HasPrediction_inv in H.
  destruct H as [->|(_ & _ & Hp & Hi & [[type ->]|(types & Hlen & ->)])]; [done| |].
  - intros k ts Hk. simpl in *. destruct (Hinv k ts Hk) as [? Hn]. split; [done|].
    rewrite lookup_insert_ne; [done|]. intros <-. congruence.
  - intros k ts Hk. simpl in *. apply lookup_insert_Some in Hk as [[<- <-]|[? Hk]]; [done|].
    by apply Hinv.
Qed.

Lemma run_caches_or_query R op s s' :
  run R op s = Some s' →
  (precise_prediction_ s' = precise_prediction_ s ∧
   imprecise_predictions_ s' = imprecise_predictions_ s) ∨
  ∃ instr update b, HasPrediction R instr update s = Some (b, s').
Proof.
  destruct op; simpl; intros H.
  - right. destruct (HasPrediction R instr update s) as [[b s1]|] eqn:E; simplify_eq/=. eauto.
  - left. destruct (GetCost R s instr); by simplify_eq/=.
  - left. destruct (GetMispredictRate R s instr); by simplify_eq/=.
  - left. destruct (GetProfit R s instr); by simplify_eq/=.
  - left. destruct (GetRecoveryMethod s instr); by simplify_eq/=.
  - left. destruct (IsPredictionSame R s instr instr2); by simplify_eq/=.
  - left. destruct (InsertSpeculationGuard R instr_guarded instr_cursor s) as [[r s1]|] eqn:E;
      simplify_eq/=. eapply InsertSpeculationGuard_caches; eauto.
  - left. destruct (HandleSpeculation R instr guard_inserted s) as [[r s1]|] eqn:E;
      simplify_eq/=.
    apply HandleSpeculation_inv in E as [(_ & -> & _)|(_ & mi & _ & E)]; [done|].
    by apply HandleSpeculation_rewrite_caches in E as (_ & ? & ?).
Qed.

Lemma run_cache_invariant R op s s' :
  cache_invariant s → run R op s = Some s' → cache_invariant s'.
Proof.
  intros Hinv H. apply run_caches_or_query in H as [[Hp Hi]|(instr & update & b & H)].
  - by eapply cache_invariant_caches.
  - by eapply HasPrediction_cache_invariant.
Qed.

Lemma cache_invariant_exclusive s instr :
  cache_invariant s →
  ¬ (is_Some (precise_prediction_ s !! instr) ∧ is_Some (imprecise_predictions_ s !! instr)).
Proof.
  intros Hinv [[t Ht] [ts Hts]]. destruct (Hinv _ _ Hts) as [_ Hn]. congruence.
Qed.

(** C2. The two maps of the prediction cache stay exclusive: whatever
    sequence of operations of the pass runs from a state that passes the
    checks of the destructor, the state it leaves passes them too, so no call
    site holds a precise and an imprecise prediction at once and no cached
    imprecise prediction has an empty list of candidates.  [HasPrediction]
    with [update = true] is the one operation that writes the maps. *)
Theorem cache_invariant_preserved R ops s s' :
  cache_invariant s → run_all R ops s = Some s' →
  cache_invariant s' ∧
  ∀ instr,
    ¬ (is_Some (precise_prediction_ s' !! instr) ∧
       is_Some (imprecise_predictions_ s' !! instr)) ∧
    ∀ types, imprecise_predictions_ s' !! instr = Some types → types ≠ [].
Proof.
  intros Hinv Hrun.
  assert (cache_invariant s') as Hinv'.
  { revert s Hinv Hrun. induction ops as [|op ops IH]; simpl; intros s Hinv Hrun.
    - by simplify_eq.
    - destruct (run R op s) as [s1|] eqn:E; simpl in Hrun; [|done].
      eapply IH; [|done]. by eapply run_cache_invariant. }
  split; [done|]. intros instr. split; [by apply cache_invariant_exclusive|].
  intros types Hts ->. destruct (Hinv' _ _ Hts) as [Hlen _]. simpl in Hlen. lia.
Qed.

Lemma IsCandidate_invoke s instr :
  IsCandidate s instr = Some true →
  ∃ i d, arena (graph_ s) !! instr = Some i ∧ AsInvoke i = Some d ∧
         (IsInvokeVirtual i || IsInvokeInterface i) = true ∧ is_intrinsic d = false.
Proof.
  unfold IsCandidate. intros H.
  destruct (arena (graph_ s) !! instr) as [i|] eqn:Hi; simpl in H; [|done].
  destruct (IsInvokeVirtual i || IsInvokeInterface i) eqn:E; [|done].
  destruct (AsInvoke i) as [d|] eqn:Hd; simpl in H; [|done].
  exists i, d. repeat split; try done. injection H as H. by destruct (is_intrinsic d).
Qed.

Lemma HasPrediction_query R s instr :
  IsCandidate s instr = Some true →
  ∃ b, HasPrediction R instr false s = Some (b, s).
Proof.
  intros Hc. destruct (IsCandidate_invoke _ _ Hc) as (i & d & Hi & Hd & _).
  unfold HasPrediction. rewrite Hc, DCHECK_true. simpl.
  destruct (found instr (precise_prediction_ s)); [eauto|].
  destruct (found instr (imprecise_predictions_ s)); [eauto|].
  rewrite Hi. simpl. rewrite Hd. simpl.
  destruct (GetResolvedMethod R _); [|eauto].
  destruct (FindVirtualOrInterfaceTarget R instr _); [eauto|].
  simpl. eauto.
Qed.

Lemma query_n_replicate R s instr b n :
  HasPrediction R instr false s = Some (b, s) →
  query_n R instr n s = Some (replicate n b, s).
Proof.
  intros H. induction n as [|n IH]; simpl; [done|].
  rewrite H. simpl. rewrite IH. done.
Qed.

(** C7. A query [HasPrediction(instr, false)] on a candidate call site
    returns and leaves the pass state as it was; repeated any number of times
    it gives the same answer each time; and when a prediction is cached the
    answer is [true] whatever the resolver would say, since the resolver is
    not consulted. *)
Theorem HasPrediction_query_idempotent R s instr :
  IsCandidate s instr = Some true →
  ∃ b,
    HasPrediction R instr false s = Some (b, s) ∧
    (∀ n, query_n R instr n s = Some (replicate n b, s)) ∧
    (has_cached s instr →
       b = true ∧ ∀ R', HasPrediction R' instr false s = Some (true, s)).
Proof.
  intros Hc. destruct (HasPrediction_query R s instr Hc) as [b Hb].
  exists b. split; [done|]. split.
  - intros n. by apply query_n_replicate.
  - intros Hp. split.
    + rewrite (HasPrediction_cached R s instr false Hc Hp) in Hb. congruence.
    + intros R'. by apply HasPrediction_cached.
Qed.

Lemma DCHECK_HasPrediction R s instr :
  IsCandidate s instr = Some true → has_cached s instr →
  DCHECK R (fst <$> HasPrediction R instr false s) = Some tt.
Proof. intros Hc Hp. rewrite HasPrediction_cached by done. apply DCHECK_true. Qed.

Lemma GetMispredictRate_precise R s instr :
  IsCandidate s instr = Some true →
  is_Some (precise_prediction_ s !! instr) →
  GetMispredictRate R s instr = Some (0, 10).
Proof.
  intros Hc Hp. unfold GetMispredictRate.
  rewrite DCHECK_HasPrediction by (done || by left). simpl.
  apply found_true in Hp. by rewrite Hp.
Qed.

Lemma GetMispredictRate_imprecise R s instr types :
  IsCandidate s instr = Some true →
  precise_prediction_ s !! instr = None →
  imprecise_predictions_ s !! instr = Some types →
  GetMispredictRate R s instr = Some (1, 10).
Proof.
  intros Hc Hp Hi. unfold GetMispredictRate.
  rewrite DCHECK_HasPrediction by (done || right; eauto). simpl.
  apply found_false in Hp. rewrite Hp.
  unfold found, count. rewrite Hi, DCHECK_true. done.
Qed.

(** C6. [GetRecoveryMethod] answers [kRecoveryNotNeeded] for a precise
    prediction, [kRecoveryDeopt] for an imprecise one with exactly one
    candidate and [kRecoveryCodeVersioning] for an imprecise one with more
    than one; the answer depends on nothing but the two cache entries of the
    call site. *)
Theorem GetRecoveryMethod_cached s instr :
  (is_Some (precise_prediction_ s !! instr) →
     GetRecoveryMethod s instr = Some kRecoveryNotNeeded) ∧
  (∀ types, precise_prediction_ s !! instr = None →
     imprecise_predictions_ s !! instr = Some types →
     (length types = 1%nat → GetRecoveryMethod s instr = Some kRecoveryDeopt) ∧
     ((1 < length types)%nat → GetRecoveryMethod s instr = Some kRecoveryCodeVersioning)) ∧
  (∀ s2, precise_prediction_ s2 !! instr = precise_prediction_ s !! instr →
     imprecise_predictions_ s2 !! instr = imprecise_predictions_ s !! instr →
     GetRecoveryMethod s2 instr = GetRecoveryMethod s instr).
Proof.
  unfold GetRecoveryMethod. split; [|split].
  - intros Hp. apply found_true in Hp. by rewrite Hp.
  - intros types Hp Hi. apply found_false in Hp. rewrite Hp, Hi. simpl.
    split; intros Hlen.
    + by rewrite Hlen.
    + destruct (Nat.eqb_spec (length types) 1); [lia|done].
  - intros s2 Hp Hi. unfold found. by rewrite Hp, Hi.
Qed.

Lemma candidate_cost_nonneg R ref c :
  cost_constants_in_range R → 0 ≤ candidate_cost R ref c.
Proof. intros (? & ? & ?). unfold candidate_cost. destruct (c =? ref)%nat; lia. Qed.

Lemma total_cost_nonneg R ref cls :
  cost_constants_in_range R → 0 ≤ total_cost R ref cls.
Proof.
  intros Hwf. induction cls as [|c cls IH]; simpl; [lia|].
  pose proof (candidate_cost_nonneg R ref c Hwf). lia.
Qed.


Lemma wrap64_add_r a b : wrap64 (a + wrap64 b) = wrap64 (a + b).
Proof. unfold wrap64. by rewrite Zplus_mod_idemp_r. Qed.

Lemma wrap64_add_l a b : wrap64 (wrap64 a + b) = wrap64 (a + b).
Proof. unfold wrap64. by rewrite Zplus_mod_idemp_l. Qed.

Lemma wrap64_small z : 0 ≤ z < 2 ^ 64 → wrap64 z = z.
Proof. intros H. unfold wrap64. by apply Z.mod_small. Qed.


Lemma GetCost_step_wrap R ref cost c :
  GetCost_step R ref cost (Some c) = Some (wrap64 (cost + candidate_cost R ref c)).
Proof.
  unfold GetCost_step, candidate_cost, GetMaxCost. simpl.
  destruct (c =? ref)%nat; by rewrite wrap64_add_r.
Qed.

Lemma GetCost_loop_wrap R ref cls cost :
  GetCost_loop R ref (Some <$> cls) (wrap64 cost) =
  Some (wrap64 (cost + total_cost R ref cls)).
Proof.
  revert cost. induction cls as [|c cls IH]; intros cost.
  - simpl. by rewrite Z.add_0_r.
  - cbn [fmap list_fmap GetCost_loop total_cost]. rewrite GetCost_step_wrap. simpl.
    rewrite wrap64_add_l, IH. f_equal. f_equal. lia.
Qed.

Lemma GetCost_imprecise R s instr cls m :
  IsCandidate s instr = Some true →
  precise_prediction_ s !! instr = None →
  imprecise_predictions_ s !! instr = Some (Some <$> cls) →
  art_method_ (graph_ s) = Some m →
  GetCost R s instr = Some (wrap64 (total_cost R (GetDeclaringClass R m) cls)).
Proof.
  intros Hc Hp Hi Hm. unfold GetCost.
  rewrite DCHECK_HasPrediction by (done || right; eauto). simpl.
  apply found_false in Hp. rewrite Hp.
  unfold count. rewrite Hi, DCHECK_true. simpl. rewrite Hm. simpl.
  change 0 with (wrap64 0) at 1. by rewrite GetCost_loop_wrap.
Qed.


Lemma insert_before_app x cursor pre post :
  cursor ∉ pre →
  insert_before x cursor (pre ++ cursor :: post) = Some (pre ++ x :: cursor :: post).
Proof.
  induction pre as [|y pre IH]; simpl; intros Hn.
  - by rewrite decide_True.
  - apply not_elem_of_cons in Hn as [Hy Hn].
    rewrite decide_False by done. by rewrite IH.
Qed.

Lemma insert_after_app x cursor pre post :
  cursor ∉ pre →
  insert_after x cursor (pre ++ cursor :: post) = Some (pre ++ cursor :: x :: post).
Proof.
  induction pre as [|y pre IH]; simpl; intros Hn.
  - by rewrite decide_True.
  - apply not_elem_of_cons in Hn as [Hy Hn].
    rewrite decide_False by done. by rewrite IH.
Qed.

Lemma filter_remove_one (x new : nat) pre post :
  x ∉ pre → x ∉ post → new ≠ x →
  filter (λ y, y ≠ x) (pre ++ new :: x :: post) = pre ++ new :: post.
Proof.
  intros Hpre Hpost Hnew.
  assert (∀ l : list nat, x ∉ l → filter (λ y, y ≠ x) l = l) as Hid.
  { intros l Hl. induction l as [|y l IH]; [done|].
    apply not_elem_of_cons in Hl as [Hy Hl].
    rewrite filter_cons_True by done. by rewrite IH. }
  rewrite filter_app, Hid by done.
  rewrite filter_cons_True by done.
  rewrite filter_cons_False by (intros H; by apply H).
  by rewrite Hid.
Qed.

Lemma GetBlock_Some g r b :
  GetBlock g r = Some b →
  ∃ pre post, blocks g !! b = Some (pre ++ r :: post) ∧ r ∉ pre.
Proof.
  unfold GetBlock. intros H.
  destruct (list_find _ (blocks g)) as [[b' l]|] eqn:E; simplify_eq/=.
  apply list_find_Some in E as (Hl & Hr & _).
  apply list_elem_of_split_l in Hr as (pre & post & -> & Hpre). eauto.
Qed.

Lemma GetBlock_blocks g g' r : blocks g' = blocks g → GetBlock g' r = GetBlock g r.
Proof. unfold GetBlock. by intros ->. Qed.

Lemma in_graph_blocks g g' r : blocks g' = blocks g → in_graph g' r = in_graph g r.
Proof. unfold in_graph. intros H. by rewrite (GetBlock_blocks _ _ _ H). Qed.

Lemma GetBlock_is_Some g r b l :
  blocks g !! b = Some l → r ∈ l → is_Some (GetBlock g r).
Proof.
  intros Hb Hr. unfold GetBlock.
  destruct (list_find (λ l : list nat, r ∈ l) (blocks g)) as [[b' l']|] eqn:E; [by eexists|].
  apply list_find_None in E. rewrite Forall_forall in E.
  exfalso. eapply E; [|done]. apply list_elem_of_lookup. eauto.
Qed.

Lemma in_graph_true g r b l : blocks g !! b = Some l → r ∈ l → in_graph g r = true.
Proof.
  intros Hb Hr. unfold in_graph.
  by destruct (GetBlock_is_Some g r b l Hb Hr) as [? ->].
Qed.

Lemma GetBlock_None g r : GetBlock g r = None ↔ ∀ l, l ∈ blocks g → r ∉ l.
Proof.
  unfold GetBlock. split.
  - intros H l Hl. destruct (list_find _ _) eqn:E; [done|].
    apply list_find_None in E. rewrite Forall_forall in E. by apply E.
  - intros H. destruct (list_find _ _) as [[b l]|] eqn:E; [|done].
    apply list_find_Some in E as (Hl & Hr & _). exfalso.
    eapply H; [|done]. apply list_elem_of_lookup. eauto.
Qed.

Lemma graph_wf_valid g b l r :
  graph_wf g → blocks g !! b = Some l → r ∈ l → (r < length (arena g))%nat.
Proof.
  intros [_ Hv] Hb Hr. rewrite Forall_forall in Hv. apply Hv.
  apply list_elem_of_join. exists l. split; [done|]. apply list_elem_of_lookup. eauto.
Qed.

Lemma graph_wf_unique g b pre r post :
  graph_wf g → blocks g !! b = Some (pre ++ r :: post) →
  (r ∉ pre) ∧ (r ∉ post) ∧
  (∀ b' l', b' ≠ b → blocks g !! b' = Some l' → r ∉ l').
Proof.
  intros [Hnd _] Hb.
  rewrite <- (take_drop_middle _ _ _ Hb) in Hnd.
  rewrite join_app in Hnd. simpl in Hnd.
  apply NoDup_app in Hnd as (Hnd1 & Hdisj & Hnd2).
  apply NoDup_app in Hnd2 as (Hnd2 & Hdisj2 & Hnd3).
  apply NoDup_app in Hnd2 as (_ & Hdisj3 & Hnd4).
  apply NoDup_cons in Hnd4 as [Hpost _].
  assert (r ∈ pre ++ r :: post) as Hin.
  { apply elem_of_app. right. apply list_elem_of_here. }
  split; [|split; [done|]].
  - intros Hpre. by apply (Hdisj3 r Hpre), list_elem_of_here.
  - intros b' l' Hne Hb' Hr.
    destruct (decide (b' < b)%nat) as [Hlt|Hge].
    + apply (Hdisj r); [|apply elem_of_app; by left].
      apply list_elem_of_join. exists l'. split; [done|].
      apply list_elem_of_lookup. exists b'. rewrite lookup_take_lt; done.
    + apply (Hdisj2 r Hin).
      apply list_elem_of_join. exists l'. split; [done|].
      apply list_elem_of_lookup. exists (b' - S b)%nat.
      rewrite lookup_drop. rewrite <- Hb'. f_equal. lia.
Qed.

Lemma update_instr_fresh a x f bl am cm :
  update_instr (length a) f (mkHGraph (a ++ [x]) bl am cm) =
  Some (mkHGraph (a ++ [f x]) bl am cm).
Proof.
  unfold update_instr. simpl.
  rewrite lookup_app_r, Nat.sub_diag by lia. simpl.
  unfold set_arena. simpl. f_equal. f_equal.
  rewrite alter_app_r_alt, Nat.sub_diag by lia. done.
Qed.

Lemma GetCurrentMethod_blocks g g' :
  blocks g' = blocks g → cached_current_method_ g' = cached_current_method_ g →
  GetCurrentMethod g' = GetCurrentMethod g.
Proof.
  intros Hb Hc. unfold GetCurrentMethod. rewrite Hc.
  destruct (cached_current_method_ g) as [cm|]; simpl; [|done].
  by rewrite (in_graph_blocks _ _ _ Hb).
Qed.

Lemma InsertSpeculationGuard_computes R s instr cursor i invoke object cls m cm b pre post :
  arena (graph_ s) !! instr = Some i →
  AsInvoke i = Some invoke →
  InputAt i 0 = Some object →
  GetPrimaryType s instr = Some (Some cls) →
  FindClassIndexIn R cls ≠ kDexNoIndex →
  DCHECK R (Some (String.eqb (object_field0_name R) "shadow$_klass_")) = Some tt →
  art_method_ (graph_ s) = Some m →
  GetCurrentMethod (graph_ s) = Some cm →
  GetBlock (graph_ s) cursor = Some b →
  blocks (graph_ s) !! b = Some (pre ++ cursor :: post) →
  cursor ∉ pre →
  (∀ r, r ∈ pre → (r < length (arena (graph_ s)))%nat) →
  let n := length (arena (graph_ s)) in
  InsertSpeculationGuard R instr cursor s =
  Some (Some (S (S n)),
        set_graph
          (mkHGraph
             (arena (graph_ s) ++
                [SetSideEffects SE_None
                   (HInstanceFieldGet_new object kPrimNot (object_field0 R) (dex_pc i));
                 HLoadClass_new cm
                   (mkLoadClassData (FindClassIndexIn R cls) (caller_dex_file R)
                      (cls =? GetDeclaringClass R m)%nat false true)
                   (dex_pc i);
                 HDevirtGuard_new R (S n) n (dex_pc i)])
             (<[b := pre ++ [S n; n; S (S n)] ++ cursor :: post]> (blocks (graph_ s)))
             (art_method_ (graph_ s))
             (cached_current_method_ (graph_ s)))
          s).
Proof.
  intros Hi Hinv Hobj Hty Hidx Hname Hm Hcm Hb Hl Hpre Hvalid n.
  assert (b < length (blocks (graph_ s)))%nat as Hblen by (by eapply lookup_lt_Some).
  unfold InsertSpeculationGuard.
  rewrite Hi; simpl. rewrite Hinv; simpl. rewrite Hobj; simpl. rewrite Hty; simpl.
  apply Z.eqb_neq in Hidx. rewrite Hidx.
  rewrite Hname. simpl.
  destruct (graph_ s) as [a bl am ccm] eqn:Hg. simpl in *. subst n.
  unfold New, set_arena. simpl.
  rewrite update_instr_fresh. simpl. rewrite Hm. simpl.
  rewrite (GetCurrentMethod_blocks (mkHGraph a bl am ccm)) by done.
  rewrite Hcm. simpl.
  rewrite (GetBlock_blocks (mkHGraph a bl am ccm)) by done.
  rewrite Hb. simpl.
  unfold InsertInstructionBefore, InsertInstructionAfter, set_blocks. simpl.
  rewrite Hl. simpl. rewrite insert_before_app by done. simpl.
  rewrite list_lookup_insert_eq by done. simpl.
  rewrite !length_app. simpl. rewrite !Nat.add_1_r.
  rewrite (insert_after_app (length a) (S (length a)) pre (cursor :: post)).
  2:{ intros Hin. apply Hvalid in Hin. lia. }
  simpl. rewrite list_lookup_insert_eq by (by rewrite length_insert). simpl.
  assert (pre ++ S (length a) :: length a :: cursor :: post =
          (pre ++ [S (length a)]) ++ length a :: cursor :: post) as ->
    by (by rewrite <- app_assoc).
  rewrite insert_after_app.
  2:{ intros [Hin|Hin]%elem_of_app; [apply Hvalid in Hin; lia|].
      apply list_elem_of_singleton in Hin. lia. }
  simpl. rewrite list_insert_insert_eq, list_insert_insert_eq.
  rewrite <- !app_assoc. simpl. done.
Qed.

Lemma SetArgumentAt_fields k x ni ni' :
  SetArgumentAt k x ni = Some ni' →
  payload ni' = payload ni ∧ type_ ni' = type_ ni ∧
  environment ni' = environment ni ∧
  reference_type_info ni' = reference_type_info ni ∧
  dex_pc ni' = dex_pc ni.
Proof. unfold SetArgumentAt. intros H. case_decide; by simplify_eq/=. Qed.

Lemma copy_arguments_fields src k ni ni' :
  copy_arguments src k ni = Some ni' →
  payload ni' = payload ni ∧ type_ ni' = type_ ni ∧
  environment ni' = environment ni ∧
  reference_type_info ni' = reference_type_info ni ∧
  dex_pc ni' = dex_pc ni.
Proof.
  revert k ni. induction src as [|x src IH]; simpl; intros k ni H; [by simplify_eq|].
  destruct (SetArgumentAt k x ni) as [ni1|] eqn:E; simpl in H; [|done].
  apply SetArgumentAt_fields in E as (? & ? & ? & ? & ?).
  apply IH in H as (? & ? & ? & ? & ?). repeat split; congruence.
Qed.

Lemma ReplaceAndRemoveInstructionWith_computes a bl am ccm b initial repl pre post :
  bl !! b = Some (pre ++ initial :: post) →
  initial ∉ pre → initial ∉ post → repl ≠ initial →
  ReplaceAndRemoveInstructionWith b initial repl (mkHGraph a bl am ccm) =
  Some (mkHGraph
          (imap (λ r i,
                   if in_graph (mkHGraph a (<[b := pre ++ repl :: initial :: post]> bl) am ccm) r
                   then replace_uses initial repl i else i) a)
          (<[b := pre ++ repl :: post]> bl) am ccm).
Proof.
  intros Hb Hpre Hpost Hne.
  assert (b < length bl)%nat as Hblen by (by eapply lookup_lt_Some).
  unfold ReplaceAndRemoveInstructionWith, InsertInstructionBefore. simpl.
  rewrite Hb. simpl. rewrite insert_before_app by done. simpl.
  unfold RemoveInstruction, ReplaceWith, set_blocks, set_arena. simpl.
  rewrite list_lookup_insert_eq by done. simpl.
  by rewrite filter_remove_one, list_insert_insert_eq.
Qed.

Lemma replace_ref_id initial other x : x ≠ Some initial → replace_ref initial other x = x.
Proof. unfold replace_ref. destruct x as [y|]; [|done]. intros H. rewrite decide_False; congruence. Qed.

Lemma replace_in_env_id initial other (e : list (list (option nat))) :
  (∀ frame, frame ∈ e → Some initial ∉ frame) → replace_in_env initial other e = e.
Proof.
  intros H. unfold replace_in_env.
  induction e as [|frame e IH]; simpl; [done|]. f_equal.
  - assert (Some initial ∉ frame) as Hf by (apply H; apply list_elem_of_here).
    clear -Hf. induction frame as [|x frame IH]; simpl; [done|].
    apply not_elem_of_cons in Hf as [Hx Hf]. rewrite replace_ref_id by done. by rewrite IH.
  - apply IH. intros f Hf. apply H. by apply list_elem_of_further.
Qed.

Lemma HandleSpeculation_rewrite_inv R instr mi s s' :
  graph_wf (graph_ s) →
  HandleSpeculation_rewrite R instr mi s = Some (true, s') →
  ∃ i invoke b pre post env0 new_i sd,
    let new_invoke := length (arena (graph_ s)) in
    arena (graph_ s) !! instr = Some i ∧
    AsInvoke i = Some invoke ∧
    blocks (graph_ s) !! b = Some (pre ++ instr :: post) ∧
    blocks (graph_ s') = <[b := pre ++ new_invoke :: post]> (blocks (graph_ s)) ∧
    GetBlock (graph_ s') instr = None ∧
    GetBlock (graph_ s') new_invoke = Some b ∧
    length (arena (graph_ s')) = S new_invoke ∧
    arena (graph_ s') !! new_invoke = Some new_i ∧
    payload new_i =
      PInvokeStaticOrDirect
        (mkInvokeData (number_of_arguments invoke) mi (original_invoke_type invoke) false) sd ∧
    invoke_type sd = kDirect ∧
    target_method sd = (caller_dex_file R, mi) ∧
    type_ new_i = type_ i ∧
    dex_pc new_i = dex_pc i ∧
    environment i = Some env0 ∧
    environment new_i = Some (replace_in_env instr new_invoke env0) ∧
    reference_type_info new_i =
      (if decide (type_ i = kPrimNot) then reference_type_info i else RTI_invalid) ∧
    precise_prediction_ s' = precise_prediction_ s ∧
    imprecise_predictions_ s' = imprecise_predictions_ s.
Proof.
  intros Hwf H. unfold HandleSpeculation_rewrite in H.
  destruct (arena (graph_ s) !! instr) as [i|] eqn:Hi; simpl in H; [|done].
  destruct (AsInvoke i) as [invoke|] eqn:Hinv; simpl in H; [|done].
  destruct (graph_ s) as [a bl am ccm] eqn:Hg. simpl in *.
  unfold New, set_arena in H. simpl in H.
  rewrite lookup_app_r, Nat.sub_diag in H by lia. simpl in H.
  match type of H with (copy_arguments ?x ?k ?n ≫= _) = _ =>
    destruct (copy_arguments x k n) as [ni1|] eqn:Hcopy; simpl in H; [|done] end.
  rewrite (GetCurrentMethod_blocks (mkHGraph a bl am ccm)) in H by done.
  destruct (GetCurrentMethod _) as [cm|] eqn:Hcm; simpl in H; [|done].
  destruct (SetArgumentAt _ _ ni1) as [ni2|] eqn:Hset; simpl in H; [|done].
  destruct (DCHECK R _); simpl in H; [|done].
  rewrite update_instr_fresh in H. simpl in H.
  apply copy_arguments_fields in Hcopy as (Hp1 & Ht1 & He1 & Hr1 & Hd1).
  apply SetArgumentAt_fields in Hset as (Hp2 & Ht2 & He2 & Hr2 & Hd2).
  simpl in *.
  set (ni3 := if decide (type_ i = kPrimNot)
              then SetReferenceTypeInfo (reference_type_info i) ni2 else ni2) in *.
  assert (payload ni3 = payload ni2 ∧ type_ ni3 = type_ ni2 ∧ dex_pc ni3 = dex_pc ni2 ∧
          environment ni3 = environment ni2 ∧
          reference_type_info ni3 =
            if decide (type_ i = kPrimNot) then reference_type_info i
            else reference_type_info ni2) as (Hp3 & Ht3 & Hd3 & He3 & Hr3).
  { subst ni3. by destruct (decide (type_ i = kPrimNot)). }
  clearbody ni3.
  rewrite (GetBlock_blocks (mkHGraph a bl am ccm)) in H by done.
  destruct (GetBlock _ instr) as [b|] eqn:Hb; simpl in H; [|done].
  apply GetBlock_Some in Hb as (pre & post & Hl & Hpre). simpl in Hl.
  destruct (graph_wf_unique _ _ _ _ _ Hwf Hl) as (_ & Hpost & Hother).
  assert (instr < length a)%nat as Hlt by (by eapply lookup_lt_Some).
  assert (b < length bl)%nat as Hblen by (by eapply lookup_lt_Some).
  rewrite (ReplaceAndRemoveInstructionWith_computes _ _ _ _ _ _ _ pre post) in H
    by (done || lia).
  simpl in H.
  set (g2 := mkHGraph (a ++ [ni3]) (<[b:=pre ++ length a :: instr :: post]> bl) am ccm) in *.
  assert (blocks g2 !! b = Some (pre ++ length a :: instr :: post)) as Hl2.
  { subst g2. simpl. by apply list_lookup_insert_eq. }
  assert (in_graph g2 instr = true) as Hin1.
  { eapply in_graph_true; [done|]. apply elem_of_app. right.
    apply list_elem_of_further, list_elem_of_here. }
  assert (in_graph g2 (length a) = true) as Hin2.
  { eapply in_graph_true; [done|]. apply elem_of_app. right. apply list_elem_of_here. }
  rewrite list_lookup_imap, lookup_app_l, Hi in H by done. simpl in H.
  rewrite Hin1 in H. simpl in H.
  unfold CopyEnvironmentFrom in H.
  destruct (environment i) as [env0|] eqn:Henv; simpl in H; [|done].
  destruct (GetBlock _ (length a)) as [b2|] eqn:Hb2 in H; simpl in H; [|done].
  unfold update_instr in H. simpl in H.
  rewrite list_lookup_imap, lookup_app_r, Nat.sub_diag in H by lia. simpl in H.
  injection H as <-.
  assert (b2 = b) as ->.
  { apply GetBlock_Some in Hb2 as (pre2 & post2 & Hl2' & _). simpl in Hl2'.
    destruct (decide (b2 = b)) as [|Hne]; [done|].
    rewrite list_lookup_insert_ne in Hl2' by done.
    assert (length a < length a)%nat; [|lia].
    eapply (graph_wf_valid _ b2 _ (length a) Hwf); [done|].
    apply elem_of_app. right. apply list_elem_of_here. }
  exists i, invoke, b, pre, post, env0,
    (set_environment (Some (replace_in_env instr (length a) env0))
       (replace_uses instr (length a) ni3)),
    (mkStaticOrDirectData (caller_dex_file R, mi)
       (mkDispatchInfo kDexCacheViaMethod kCallArtMethod 0 0) kDirect kNone).
  simpl. split_and!; try done.
  - apply GetBlock_None. simpl. intros l Hl' Hin.
    apply list_elem_of_lookup in Hl' as [b' Hb'].
    destruct (decide (b' = b)) as [->|Hne].
    + rewrite list_lookup_insert_eq in Hb' by done. simplify_eq.
      apply elem_of_app in Hin as [Hin|Hin]; [done|].
      apply elem_of_cons in Hin as [Hin|Hin]; [lia|done].
    + rewrite list_lookup_insert_ne in Hb' by done. by eapply Hother.
  - by rewrite length_alter, length_imap, length_app, Nat.add_1_r.
  - rewrite list_lookup_alter_eq, list_lookup_imap, lookup_app_r, Nat.sub_diag by lia.
    simpl. by rewrite Hin2.
  - by rewrite Hp3, Hp2, Hp1.
  - by rewrite Ht3, Ht2, Ht1.
  - by rewrite Hd3, Hd2, Hd1.
  - rewrite Hr3. destruct (decide (type_ i = kPrimNot)); [done|]. by rewrite Hr2, Hr1.
Qed.

Lemma arena_extends_refl g : arena_extends g g.
Proof. intros r i H. eauto. Qed.

Lemma arena_extends_trans g1 g2 g3 :
  arena_extends g1 g2 → arena_extends g2 g3 → arena_extends g1 g3.
Proof.
  intros H12 H23 r i H. destruct (H12 r i H) as (i2 & H2 & Hp2).
  destruct (H23 r i2 H2) as (i3 & H3 & Hp3). exists i3. split; [done|congruence].
Qed.

Lemma arena_extends_same g g' : arena g' = arena g → arena_extends g g'.
Proof. intros E r i H. rewrite E. eauto. Qed.

Lemma New_extends x g r g' : New x g = (r, g') → arena_extends g g'.
Proof.
  unfold New. intros H r0 i Hi. simplify_eq/=. exists i. split; [|done].
  by apply lookup_app_l_Some.
Qed.

Lemma update_instr_extends r f g g' :
  (∀ i, payload (f i) = payload i) → update_instr r f g = Some g' → arena_extends g g'.
Proof.
  unfold update_instr. intros Hf H r0 i Hi.
  destruct (arena g !! r); simplify_eq/=.
  destruct (decide (r = r0)) as [->|Hne].
  - exists (f i). by rewrite list_lookup_alter_eq, Hi.
  - exists i. by rewrite list_lookup_alter_ne.
Qed.

Lemma New_update_extends x g r g1 f g2 :
  New x g = (r, g1) → update_instr r f g1 = Some g2 → arena_extends g g2.
Proof.
  unfold New, update_instr. intros H1 H2 r0 i Hi. simplify_eq/=.
  destruct ((arena g ++ [x]) !! length (arena g)); simplify_eq/=.
  exists i. split; [|done].
  rewrite list_lookup_alter_ne by (apply lookup_lt_Some in Hi; lia).
  by apply lookup_app_l_Some.
Qed.

Lemma InsertInstructionBefore_arena b x c g g' :
  InsertInstructionBefore b x c g = Some g' → arena g' = arena g.
Proof.
  unfold InsertInstructionBefore. intros H.
  destruct (blocks g !! b); simpl in H; [|done].
  destruct (insert_before x c l); by simplify_eq/=.
Qed.

Lemma InsertInstructionAfter_arena b x c g g' :
  InsertInstructionAfter b x c g = Some g' → arena g' = arena g.
Proof.
  unfold InsertInstructionAfter. intros H.
  destruct (blocks g !! b); simpl in H; [|done].
  destruct (insert_after x c l); by simplify_eq/=.
Qed.

Lemma ReplaceWith_extends initial other g : arena_extends g (ReplaceWith initial other g).
Proof.
  intros r i Hi. unfold ReplaceWith. simpl. rewrite list_lookup_imap, Hi. simpl.
  destruct (in_graph g r); eauto.
Qed.

Lemma ReplaceAndRemoveInstructionWith_extends b initial repl g g' :
  ReplaceAndRemoveInstructionWith b initial repl g = Some g' → arena_extends g g'.
Proof.
  unfold ReplaceAndRemoveInstructionWith, RemoveInstruction. intros H.
  destruct (InsertInstructionBefore b repl initial g) as [g1|] eqn:E1; simpl in H; [|done].
  destruct (blocks g1 !! b); simplify_eq/=.
  eapply arena_extends_trans.
  - apply arena_extends_same. by eapply InsertInstructionBefore_arena.
  - eapply arena_extends_trans; [apply (ReplaceWith_extends initial repl g1)|].
    by apply arena_extends_same.
Qed.

Lemma CopyEnvironmentFrom_extends r env g g' :
  CopyEnvironmentFrom r env g = Some g' → arena_extends g g'.
Proof.
  unfold CopyEnvironmentFrom. intros H.
  destruct env; simpl in H; [|done].
  destruct (GetBlock g r); simpl in H; [|done].
  eapply update_instr_extends; [|exact H]. done.
Qed.

Lemma InsertSpeculationGuard_extends R g c s r s' :
  InsertSpeculationGuard R g c s = Some (r, s') →
  arena_extends (graph_ s) (graph_ s').
Proof.
  unfold InsertSpeculationGuard. intros H.
  repeat (bind_step H; try discriminate H); simplify_eq/=.
  - apply arena_extends_refl.
  - match goal with E : InsertInstructionAfter _ _ _ ?h = Some h3 |- _ =>
      apply InsertInstructionAfter_arena in E end.
    match goal with E : InsertInstructionAfter _ _ _ ?h = Some h2 |- _ =>
      apply InsertInstructionAfter_arena in E end.
    match goal with E : InsertInstructionBefore _ _ _ ?h = Some h1 |- _ =>
      apply InsertInstructionBefore_arena in E end.
    match goal with E : update_instr _ _ _ = Some h0 |- _ =>
      apply update_instr_extends in E; [|done] end.
    intros r0 i0 Hi0.
    match goal with E : arena_extends _ h0 |- _ =>
      destruct (E r0 i0) as (i1 & Hi1 & Hp1); [simpl; by apply lookup_app_l_Some|] end.
    exists i1. split; [|done].
    simpl in *. repeat match goal with E : arena _ = _ |- _ => rewrite E; clear E end.
    by apply lookup_app_l_Some, lookup_app_l_Some.
Qed.

Lemma HandleSpeculation_rewrite_extends R instr mi s r s' :
  HandleSpeculation_rewrite R instr mi s = Some (r, s') →
  arena_extends (graph_ s) (graph_ s').
Proof.
  unfold HandleSpeculation_rewrite. intros H.
  destruct (arena (graph_ s) !! instr) as [i|] eqn:Hi; simpl in H; [|done].
  destruct (AsInvoke i) as [invoke|] eqn:Hinv; simpl in H; [|done].
  repeat (bind_step H; try discriminate H); simplify_eq/=.
  match goal with E : update_instr _ _ _ = Some ?h |- _ =>
    apply (New_update_extends _ (graph_ s) _ _ _ _ eq_refl) in E end.
  match goal with E : ReplaceAndRemoveInstructionWith _ _ _ _ = Some _ |- _ =>
    apply ReplaceAndRemoveInstructionWith_extends in E end.
  match goal with E : CopyEnvironmentFrom _ _ _ = Some _ |- _ =>
    apply CopyEnvironmentFrom_extends in E end.
  eauto using arena_extends_trans.
Qed.

Lemma run_extends R op s s' :
  run R op s = Some s' → arena_extends (graph_ s) (graph_ s').
Proof.
  destruct op; simpl; intros H.
  - destruct (HasPrediction R instr update s) as [[b s1]|] eqn:E; simplify_eq/=.
    apply HasPrediction_inv in E.
    destruct E as [->|(_ & _ & _ & _ & [[type ->]|(types & _ & ->)])];
      apply arena_extends_refl.
  - destruct (GetCost R s instr); simplify_eq/=. apply arena_extends_refl.
  - destruct (GetMispredictRate R s instr); simplify_eq/=. apply arena_extends_refl.
  - destruct (GetProfit R s instr); simplify_eq/=. apply arena_extends_refl.
  - destruct (GetRecoveryMethod s instr); simplify_eq/=. apply arena_extends_refl.
  - destruct (IsPredictionSame R s instr instr2); simplify_eq/=. apply arena_extends_refl.
  - destruct (InsertSpeculationGuard R instr_guarded instr_cursor s) as [[r s1]|] eqn:E;
      simplify_eq/=. by eapply InsertSpeculationGuard_extends.
  - destruct (HandleSpeculation R instr guard_inserted s) as [[r s1]|] eqn:E;
      simplify_eq/=.
    apply HandleSpeculation_inv in E as [(_ & -> & _)|(_ & mi & _ & E)].
    + apply arena_extends_refl.
    + by eapply HandleSpeculation_rewrite_extends.
Qed.

Lemma static_target_extends R g g' instr :
  arena_extends g g' → is_Some (static_target R g instr) → 
  static_target R g' instr = static_target R g instr.
Proof.
  intros Hext [am H]. unfold static_target in *.
  destruct (arena g !! instr) as [i|] eqn:Hi; simpl in H; [|done].
  destruct (Hext instr i Hi) as (i' & -> & Hp). simpl.
  unfold AsInvoke. by rewrite Hp.
Qed.

Lemma HasPrediction_only_precise R instr update s b s' :
  only_precise R s → HasPrediction R instr update s = Some (b, s') → only_precise R s'.
Proof.
  intros [Hi Hp] H. unfold HasPrediction in H.
  destruct (DCHECK R (IsCandidate s instr)); simpl in H; [|done].
  destruct (found instr (precise_prediction_ s)) eqn:Hfp; [by simplify_eq|].
  destruct (found instr (imprecise_predictions_ s)) eqn:Hfi; [by simplify_eq|].
  apply found_false in Hfp, Hfi. unfold Put in H. rewrite Hfp in H.
  destruct (static_target R (graph_ s) instr) as [am|] eqn:Hst.
  - pose proof Hst as Hst'. unfold static_target in Hst.
    destruct (arena (graph_ s) !! instr) as [i|]; simpl in *; [|done].
    destruct (AsInvoke i) as [invoke|]; simpl in *; [|done].
    destruct (GetResolvedMethod R _) as [rm|]; simpl in *; [|done].
    rewrite Hst in H.
    destruct update; [|by simplify_eq].
    match type of H with (?t ≫= _) = _ => destruct t as [type|] end; simpl in H; [|done].
    destruct (DCHECK R _); simpl in H; [|done].
    injection H as <- <-. split; [done|]. simpl.
    intros k [t Hk]. apply lookup_insert_Some in Hk as [[<- _]|[_ Hk]]; [|by eauto].
    by rewrite Hst'.
  - unfold static_target in Hst.
    destruct (arena (graph_ s) !! instr) as [i|]; simpl in *; [|done].
    destruct (AsInvoke i) as [invoke|]; simpl in *; [|done].
    destruct (GetResolvedMethod R _) as [rm|]; simpl in *; [|by simplify_eq].
    rewrite Hst in H. by simplify_eq.
Qed.

Lemma HasPrediction_no_static_target R instr update s :
  only_precise R s →
  IsCandidate s instr = Some true →
  static_target R (graph_ s) instr = None →
  HasPrediction R instr update s = Some (false, s).
Proof.
  intros [Hi Hp] Hc Hst.
  destruct (IsCandidate_invoke _ _ Hc) as (i & d & Hai & Hd & _).
  unfold HasPrediction. rewrite Hc, DCHECK_true. simpl.
  destruct (found instr (precise_prediction_ s)) eqn:Hfp.
  { apply found_true, Hp in Hfp as [am Ham]. congruence. }
  unfold found at 1. rewrite Hi, lookup_empty.
  unfold static_target in Hst. rewrite Hai in *. simpl in *. rewrite Hd in *. simpl in *.
  destruct (GetResolvedMethod R _) as [rm|]; simpl in *; [|done].
  by rewrite Hst.
Qed.

Lemma run_only_precise R op s s' :
  only_precise R s → run R op s = Some s' → only_precise R s'.
Proof.
  intros Hinv H.
  pose proof (run_extends _ _ _ _ H) as Hext.
  destruct (run_caches_or_query _ _ _ _ H) as [[Hp Hi]|(instr & update & b & Hq)].
  - destruct Hinv as [Himp Hpre]. split; [by rewrite Hi|].
    intros k Hk. rewrite Hp in Hk. apply Hpre in Hk.
    by rewrite (static_target_extends R _ _ k Hext Hk).
  - by eapply HasPrediction_only_precise.
Qed.

Lemma run_all_only_precise R ops s s' :
  only_precise R s → run_all R ops s = Some s' → only_precise R s'.
Proof.
  revert s. induction ops as [|op ops IH]; simpl; intros s Hinv H; [by simplify_eq|].
  destruct (run R op s) as [s1|] eqn:E; simpl in H; [|done].
  eapply IH; [|done]. by eapply run_only_precise.
Qed.

Lemma only_precise_new_pass R g : only_precise R (new_pass g).
Proof. split; [done|]. simpl. intros k [t Hk]. by rewrite lookup_empty in Hk. Qed.

(** C10. [FindTypesFromProfile] returns no type, so in every state the pass
    reaches from a fresh pass object the imprecise map is empty, every cached
    prediction is a precise one, and [HasPrediction] answers [false] for a
    candidate call site that has no statically determined dispatch target. *)
Theorem profile_stub_only_precise R g ops s :
  run_all R ops (new_pass g) = Some s →
  (∀ invoke caller_method, FindTypesFromProfile invoke caller_method = []) ∧
  imprecise_predictions_ s = ∅ ∧
  (∀ instr, has_cached s instr → is_Some (precise_prediction_ s !! instr)) ∧
  (∀ instr update,
     IsCandidate s instr = Some true →
     static_target R (graph_ s) instr = None →
     HasPrediction R instr update s = Some (false, s)).
Proof.
  intros H.
  pose proof (run_all_only_precise R ops _ _ (only_precise_new_pass R g) H) as Hinv.
  split; [done|]. split; [apply Hinv|]. split.
  - intros instr [Hp|[ts Hi]]; [done|].
    destruct Hinv as [Himp _]. rewrite Himp, lookup_empty in Hi. done.
  - intros instr update Hc Hst. by apply HasPrediction_no_static_target.
Qed.

(** C4, as the code has it.  When the primary predicted type of the call
    site has an index in the caller's dex file, [InsertSpeculationGuard]
    returns the guard, and exactly three new instructions sit immediately
    before the cursor: the reference to the predicted type, then the
    side-effect-free load of the receiver's class, then the guard that
    compares the two.  Nothing else in the graph moved and the caches are as
    they were. *)
Theorem InsertSpeculationGuard_success R s instr cursor i invoke object cls m cm b :
  graph_wf (graph_ s) →
  arena (graph_ s) !! instr = Some i →
  AsInvoke i = Some invoke →
  InputAt i 0 = Some object →
  GetPrimaryType s instr = Some (Some cls) →
  FindClassIndexIn R cls ≠ kDexNoIndex →
  object_field0_name R = "shadow$_klass_"%string →
  art_method_ (graph_ s) = Some m →
  GetCurrentMethod (graph_ s) = Some cm →
  GetBlock (graph_ s) cursor = Some b →
  ∃ guard_ s',
    InsertSpeculationGuard R instr cursor s = Some (Some guard_, s') ∧
    guard_sequence_reference_first R s s' instr cursor guard_ ∧
    precise_prediction_ s' = precise_prediction_ s ∧
    imprecise_predictions_ s' = imprecise_predictions_ s.
Proof.
  intros Hwf Hi Hinv Hobj Hty Hidx Hname Hm Hcm Hb.
  destruct (GetBlock_Some _ _ _ Hb) as (pre & post & Hl & Hpre).
  eexists _, _. split.
  - eapply InsertSpeculationGuard_computes; try done.
    { by rewrite Hname, String.eqb_refl, DCHECK_true. }
    intros r Hr. eapply graph_wf_valid; [done..|]. apply elem_of_app. by left.
  - split; [|done]. simpl.
    set (n := length (arena (graph_ s))).
    exists n, (S n). exists i, cls, m, cm. simpl.
    split_and!; try done; try lia.
    + eauto.
    + apply (NoDup_seq n 3).
    + exists b, pre, post. split_and!; done.
    + exists object. split; [done|]. eexists.
      split_and!; [simpl; by rewrite lookup_app_r, Nat.sub_diag by done|done..].
    + assert (S n - length (arena (graph_ s)) = 1)%nat as Hsub by (unfold n; lia).
      eexists.
      split_and!; [simpl; by rewrite lookup_app_r, Hsub by (unfold n; lia)|done..].
    + assert (S (S n) - length (arena (graph_ s)) = 2)%nat as Hsub by (unfold n; lia).
      eexists.
      split_and!; [simpl; by rewrite lookup_app_r, Hsub by (unfold n; lia)|done..].
Qed.

(** C8. When the primary predicted type of the call site has no index in
    the caller's dex file, [InsertSpeculationGuard] returns null and the pass
    state, graph included, is exactly what it was. *)
Theorem InsertSpeculationGuard_unreferenceable R s instr cursor i invoke object cls :
  arena (graph_ s) !! instr = Some i →
  AsInvoke i = Some invoke →
  InputAt i 0 = Some object →
  GetPrimaryType s instr = Some (Some cls) →
  FindClassIndexIn R cls = kDexNoIndex →
  InsertSpeculationGuard R instr cursor s = Some (None, s).
Proof.
  intros Hi Hinv Hobj Hty Hidx. unfold InsertSpeculationGuard.
  rewrite Hi; simpl. rewrite Hinv; simpl. rewrite Hobj; simpl. rewrite Hty; simpl.
  by rewrite Hidx.
Qed.

Lemma HandleSpeculation_find_target_None R instr gi s :
  HandleSpeculation_find_target R instr gi s = Some None → rewrite_failure R s instr gi.
Proof.
  unfold HandleSpeculation_find_target. intros H.
  destruct (arena (graph_ s) !! instr) as [i|] eqn:Hi; simpl in H; [|done].
  destruct (AsInvoke i) as [invoke|] eqn:Hinv; simpl in H; [|done].
  destruct (GetPrimaryType s instr) as [type|] eqn:Hty; simpl in H; [|done].
  match type of H with (?t ≫= _) = _ => destruct t as [referenceable|] eqn:Href end;
    simpl in H; [|done].
  destruct referenceable; simpl in H.
  - destruct (GetResolvedMethod R (dex_method_index invoke)) as [rm|] eqn:Hrm.
    + rewrite bool_decide_true, DCHECK_true in H by eauto. simpl in H.
      match type of H with (?t ≫= _) = _ => destruct t as [actual|] eqn:Hact end;
        simpl in H; [|done].
      assert (concrete_override R i type rm actual) as Hov.
      { destruct (IsMethodOrDeclaringClassFinal R rm) eqn:Hfin; simpl in Hact.
        - injection Hact as <-. by constructor.
        - destruct type as [c|]; simpl in Hact; [|done].
          destruct (IsInvokeInterface i) eqn:Hif.
          + injection Hact as <-. by eapply override_interface.
          + destruct (DCHECK R _); simpl in Hact; [|done].
            injection Hact as <-. by eapply override_virtual. }
      destruct actual as [am|]; [|by eapply failure_no_override].
      destruct (Z.eqb_spec (FindMethodIndexIn R am (dex_method_index invoke)) kDexNoIndex);
        [|done].
      by eapply failure_method_not_referenceable.
    + eapply failure_unresolved; try done.
      unfold DCHECK in H. destruct (kIsDebugBuild R); [|done]. by simpl in H.
  - destruct (negb gi || kIsDebugBuild R) eqn:Hc; [|done].
    destruct type as [cls|]; simpl in Href; [|done].
    destruct (kIsDebugBuild R && gi) eqn:Hd.
    + by destruct (FindClassIndexIn R cls =? kDexNoIndex).
    + destruct (Z.eqb_spec (FindClassIndexIn R cls) kDexNoIndex); [|done].
      eapply failure_type_not_referenceable; try done.
      destruct gi; [|done]. simpl in Hc. rewrite Hc in Hd. done.
Qed.

(** C9. Whenever [HandleSpeculation] returns [false], the pass state, graph
    included, is exactly what it was, and the reason is one of: the predicted
    type is not referenceable and no guard was inserted, the call does not
    resolve, no concrete override is found, or the concrete method has no
    index in the caller's dex file. *)
Theorem HandleSpeculation_failure_unchanged R instr guard_inserted s s' :
  HandleSpeculation R instr guard_inserted s = Some (false, s') →
  s' = s ∧ rewrite_failure R s instr guard_inserted.
Proof.
  intros H. apply HandleSpeculation_inv in H as [(_ & -> & H)|(? & _)]; [|done].
  split; [done|]. by apply HandleSpeculation_find_target_None.
Qed.

(** C3. After [HandleSpeculation] returned [true] on a well-formed graph,
    the original call is in no block any more; in its place stands a new
    direct call with the same number of arguments and the same result type,
    whose environment is the copy of the original's and which, for a
    reference-typed result, carries the original's reference type
    information. *)
Theorem HandleSpeculation_success R instr guard_inserted s s' :
  graph_wf (graph_ s) →
  HandleSpeculation R instr guard_inserted s = Some (true, s') →
  ∃ i invoke b pre post env0 new_i sd,
    let new_invoke := length (arena (graph_ s)) in
    arena (graph_ s) !! instr = Some i ∧
    AsInvoke i = Some invoke ∧
    blocks (graph_ s) !! b = Some (pre ++ instr :: post) ∧
    blocks (graph_ s') = <[b := pre ++ new_invoke :: post]> (blocks (graph_ s)) ∧
    GetBlock (graph_ s') instr = None ∧
    (∀ l, l ∈ blocks (graph_ s') → instr ∉ l) ∧
    arena (graph_ s') !! new_invoke = Some new_i ∧
    (∃ d, payload new_i = PInvokeStaticOrDirect d sd ∧
          number_of_arguments d = number_of_arguments invoke) ∧
    invoke_type sd = kDirect ∧
    type_ new_i = type_ i ∧
    environment i = Some env0 ∧
    environment new_i = Some (replace_in_env instr new_invoke env0) ∧
    ((∀ frame, frame ∈ env0 → Some instr ∉ frame) →
       environment new_i = environment i) ∧
    (type_ i = kPrimNot → reference_type_info new_i = reference_type_info i).
Proof.
  intros Hwf H. apply HandleSpeculation_inv in H as [(? & _)|(_ & mi & _ & H)]; [done|].
  apply HandleSpeculation_rewrite_inv in H
    as (i & invoke & b & pre & post & env0 & new_i & sd & H); [|done].
  simpl in H.
  destruct H as (Hi & Hinv & Hl & Hbl & Hgone & _ & _ & Hnew & Hpay & Hdir & _ & Hty & _ &
                 Henv & Henv' & Hrti & _).
  exists i, invoke, b, pre, post, env0, new_i, sd. simpl.
  split_and!; try done.
  - by apply GetBlock_None.
  - eauto.
  - intros Hfree. by rewrite Henv', Henv, replace_in_env_id.
  - intros Hnot. by rewrite Hrti, decide_True.
Qed.

(** Replacing a segment of a duplicate-free list of valid addresses by a
    duplicate-free segment of old members of the segment and fresh
    addresses. *)
Lemma NoDup_replace_segment (n : nat) (A mid mid' B : list nat) :
  NoDup (A ++ mid ++ B) →
  Forall (λ r, r < n)%nat (A ++ mid ++ B) →
  NoDup mid' →
  (∀ x, x ∈ mid' → x ∈ mid ∨ (n ≤ x)%nat) →
  NoDup (A ++ mid' ++ B).
Proof.
  intros Hnd Hv Hnd' Hmid.
  apply NoDup_app in Hnd as (HA & HAd & Hnd).
  apply NoDup_app in Hnd as (_ & Hmd & HB).
  rewrite !Forall_app in Hv. destruct Hv as (HvA & _ & HvB).
  rewrite Forall_forall in HvA, HvB.
  apply NoDup_app. split; [done|]. split.
  - intros x Hx [Hin|Hin]%elem_of_app.
    + destruct (Hmid x Hin) as [Hm|Hfresh].
      * apply (HAd x Hx), elem_of_app. by left.
      * apply HvA in Hx. lia.
    + apply (HAd x Hx), elem_of_app. by right.
  - apply NoDup_app. split; [done|]. split; [|done].
    intros x Hx Hin. destruct (Hmid x Hx) as [Hm|Hfresh].
    + by apply (Hmd x Hm).
    + apply HvB in Hin. lia.
Qed.

Lemma graph_wf_replace_block g g' b l l' :
  graph_wf g →
  blocks g !! b = Some l →
  blocks g' = <[b := l']> (blocks g) →
  (length (arena g) ≤ length (arena g'))%nat →
  NoDup l' →
  (∀ x, x ∈ l' → x ∈ l ∨ (length (arena g) ≤ x)%nat) →
  (∀ x, x ∈ l' → (x < length (arena g'))%nat) →
  graph_wf g'.
Proof.
  intros [Hnd Hv] Hb Hbl Hlen Hnd' Hmem Hv'.
  assert (b < length (blocks g))%nat as Hblen by (by eapply lookup_lt_Some).
  rewrite <- (take_drop_middle _ _ _ Hb), join_app in Hnd, Hv. simpl in Hnd, Hv.
  split; rewrite Hbl, insert_take_drop, join_app by done; simpl.
  - by eapply NoDup_replace_segment.
  - rewrite !Forall_app in Hv. destruct Hv as (HvA & _ & HvB).
    rewrite !Forall_app. split_and!.
    + eapply Forall_impl; [exact HvA|]. simpl. intros. lia.
    + by apply Forall_forall.
    + eapply Forall_impl; [exact HvB|]. simpl. intros. lia.
Qed.

Lemma InsertSpeculationGuard_inv R instr cursor s r s' :
  InsertSpeculationGuard R instr cursor s = Some (r, s') →
  (r = None ∧ s' = s) ∨
  ∃ i invoke object cls m cm b,
    arena (graph_ s) !! instr = Some i ∧
    AsInvoke i = Some invoke ∧
    InputAt i 0 = Some object ∧
    GetPrimaryType s instr = Some (Some cls) ∧
    FindClassIndexIn R cls ≠ kDexNoIndex ∧
    DCHECK R (Some (String.eqb (object_field0_name R) "shadow$_klass_")) = Some tt ∧
    art_method_ (graph_ s) = Some m ∧
    GetCurrentMethod (graph_ s) = Some cm ∧
    GetBlock (graph_ s) cursor = Some b.
Proof.
  unfold InsertSpeculationGuard. intros H.
  destruct (arena (graph_ s) !! instr) as [i|] eqn:Hi; simpl in H; [|done].
  destruct (AsInvoke i) as [invoke|] eqn:Hinv; simpl in H; [|done].
  destruct (InputAt i 0) as [object|] eqn:Hobj; simpl in H; [|done].
  destruct (GetPrimaryType s instr) as [[cls|]|] eqn:Hty; simpl in H; [|done..].
  destruct (Z.eqb_spec (FindClassIndexIn R cls) kDexNoIndex) as [|Hidx];
    [left; by simplify_eq|].
  destruct (DCHECK R _) as [[]|] eqn:Hd; simpl in H; [|done].
  right. exists i, invoke, object, cls.
  destruct (graph_ s) as [a bl am ccm] eqn:Hg. simpl in *.
  unfold New, set_arena in H. simpl in H.
  rewrite update_instr_fresh in H. simpl in H.
  destruct am as [m|]; simpl in H; [|done].
  rewrite (GetCurrentMethod_blocks (mkHGraph a bl (Some m) ccm)) in H by done.
  destruct (GetCurrentMethod _) as [cm|] eqn:Hcm; simpl in H; [|done].
  rewrite (GetBlock_blocks (mkHGraph a bl (Some m) ccm)) in H by done.
  destruct (GetBlock _ cursor) as [b|] eqn:Hb; simpl in H; [|done].
  exists m, cm, b. split_and!; done.
Qed.

Lemma InsertSpeculationGuard_graph_wf R instr cursor s r s' :
  graph_wf (graph_ s) →
  InsertSpeculationGuard R instr cursor s = Some (r, s') →
  graph_wf (graph_ s').
Proof.
  intros Hwf H.
  destruct (InsertSpeculationGuard_inv _ _ _ _ _ _ H)
    as [[_ ->]|(i & invoke & object & cls & m & cm & b & Hi & Hinv & Hobj & Hty & Hidx &
                Hd & Hm & Hcm & Hb)]; [done|].
  destruct (GetBlock_Some _ _ _ Hb) as (pre & post & Hl & Hpre).
  assert (∀ x, x ∈ pre ++ cursor :: post → (x < length (arena (graph_ s)))%nat) as Hvalid.
  { intros x Hx. by eapply graph_wf_valid. }
  rewrite (InsertSpeculationGuard_computes R s instr cursor i invoke object cls m cm b pre post)
    in H; try done.
  2:{ intros x Hx. apply Hvalid, elem_of_app. by left. }
  injection H as _ <-. simpl.
  destruct (graph_ s) as [a bl am ccm] eqn:Hg. simpl in *.
  set (n := length a) in *.
  assert (∀ x, x ∈ [S n; n; S (S n)] → (n ≤ x < n + 3)%nat) as Hfresh.
  { intros x Hx. repeat (apply elem_of_cons in Hx as [->|Hx]; [lia|]).
    by apply elem_of_nil in Hx. }
  eapply (graph_wf_replace_block (mkHGraph a bl am ccm) _ b (pre ++ cursor :: post));
    try done; simpl.
  - rewrite length_app. lia.
  - destruct (graph_wf_unique _ _ _ _ _ Hwf Hl) as (_ & Hpost & _).
    pose proof Hwf as [Hnd _]. simpl in Hnd.
    apply (NoDup_replace_segment n pre [] [S n; n; S (S n)] (cursor :: post)).
    + simpl. rewrite <- (take_drop_middle _ _ _ Hl), join_app in Hnd. simpl in Hnd.
      apply NoDup_app in Hnd as (_ & _ & Hnd). by apply NoDup_app in Hnd as (Hnd & _ & _).
    + simpl. by apply Forall_forall.
    + repeat (apply NoDup_cons; split); rewrite ?elem_of_cons, ?elem_of_nil; try lia.
      apply NoDup_nil_2.
    + intros x Hx. right. apply Hfresh in Hx. lia.
  - intros x [Hx|Hx]%elem_of_app; [left; apply elem_of_app; by left|].
    do 3 (apply elem_of_cons in Hx as [->|Hx]; [right; lia|]).
    left. apply elem_of_app. by right.
  - intros x Hx. rewrite length_app. simpl.
    apply elem_of_app in Hx as [Hx|Hx].
    { assert (x < n)%nat; [|lia]. apply Hvalid, elem_of_app. by left. }
    do 3 (apply elem_of_cons in Hx as [->|Hx]; [lia|]).
    assert (x < n)%nat; [|lia]. apply Hvalid, elem_of_app. by right.
Qed.

Lemma HandleSpeculation_graph_wf R instr guard_inserted s r s' :
  graph_wf (graph_ s) →
  HandleSpeculation R instr guard_inserted s = Some (r, s') →
  graph_wf (graph_ s').
Proof.
  intros Hwf H.
  apply HandleSpeculation_inv in H as [(_ & -> & _)|(_ & mi & _ & H)]; [done|].
  apply HandleSpeculation_rewrite_inv in H
    as (i & invoke & b & pre & post & env0 & new_i & sd & H); [|done].
  simpl in H. destruct H as (Hi & _ & Hl & Hbl & _ & _ & Hlen & _).
  destruct (graph_wf_unique _ _ _ _ _ Hwf Hl) as (Hpre & Hpost & _).
  assert (∀ x, x ∈ pre ++ instr :: post → (x < length (arena (graph_ s)))%nat) as Hvalid.
  { intros x Hx. by eapply graph_wf_valid. }
  pose proof Hwf as [Hnd _].
  rewrite <- (take_drop_middle _ _ _ Hl), join_app in Hnd. simpl in Hnd.
  apply NoDup_app in Hnd as (_ & _ & Hnd). apply NoDup_app in Hnd as (Hnd & _ & _).
  eapply (graph_wf_replace_block _ _ b (pre ++ instr :: post)); try done.
  - lia.
  - apply (NoDup_replace_segment (length (arena (graph_ s))) pre [instr]
             [length (arena (graph_ s))] post); [done| |apply NoDup_singleton|].
    + by apply Forall_forall.
    + intros x ->%list_elem_of_singleton. by right.
  - intros x [Hx|Hx]%elem_of_app; [left; apply elem_of_app; by left|].
    apply elem_of_cons in Hx as [->|Hx]; [by right|].
    left. apply elem_of_app. right. by apply list_elem_of_further.
  - intros x Hx. rewrite Hlen.
    apply elem_of_app in Hx as [Hx|Hx].
    { assert (x < length (arena (graph_ s)))%nat; [|lia]. apply Hvalid, elem_of_app. by left. }
    apply elem_of_cons in Hx as [->|Hx]; [lia|].
    assert (x < length (arena (graph_ s)))%nat; [|lia].
    apply Hvalid, elem_of_app. right. by apply list_elem_of_further.
Qed.

Lemma run_graph_wf R op s s' :
  graph_wf (graph_ s) → run R op s = Some s' → graph_wf (graph_ s').
Proof.
  intros Hwf. destruct op; simpl; intros H.
  - destruct (HasPrediction R instr update s) as [[b s1]|] eqn:E; simplify_eq/=.
    apply HasPrediction_inv in E.
    by destruct E as [->|(_ & _ & _ & _ & [[type ->]|(types & _ & ->)])].
  - destruct (GetCost R s instr); by simplify_eq/=.
  - destruct (GetMispredictRate R s instr); by simplify_eq/=.
  - destruct (GetProfit R s instr); by simplify_eq/=.
  - destruct (GetRecoveryMethod s instr); by simplify_eq/=.
  - destruct (IsPredictionSame R s instr instr2); by simplify_eq/=.
  - destruct (InsertSpeculationGuard R instr_guarded instr_cursor s) as [[r s1]|] eqn:E;
      simplify_eq/=. by eapply InsertSpeculationGuard_graph_wf.
  - destruct (HandleSpeculation R instr guard_inserted s) as [[r s1]|] eqn:E;
      simplify_eq/=. by eapply HandleSpeculation_graph_wf.
Qed.

(** Well-formedness of the graph is an invariant of the pass. *)
Lemma run_all_graph_wf R ops s s' :
  graph_wf (graph_ s) → run_all R ops s = Some s' → graph_wf (graph_ s').
Proof.
  revert s. induction ops as [|op ops IH]; simpl; intros s Hwf H; [by simplify_eq|].
  destruct (run R op s) as [s1|] eqn:E; simpl in H; [|done].
  eapply IH; [|done]. by eapply run_graph_wf.
Qed.

(** The example graph is well formed. *)
Lemma graph0_wf : graph_wf Example.graph0.
Proof.
  split.
  - apply (NoDup_seq 0 6).
  - simpl. repeat constructor.
Qed.

(** ** The claims on a concrete method *)




Lemma cache_invariant_two4 : cache_invariant Example.two4.
Proof.
  intros k types Hk. simpl in Hk. apply lookup_singleton_Some in Hk as [<- <-].
  split; [simpl; lia|reflexivity].
Defined.

(** A run on the example method that ends with a precise entry for call 3 beside
    the imprecise entry for call 4. *)
Lemma cache_invariant_preserved_witness :
  ∃ s',
    run_all Example.runtime0
      [OpHasPrediction 3 true; OpHasPrediction 4 true; OpGetCost 4;
       OpInsertSpeculationGuard 4 4; OpHandleSpeculation 3 false]
      Example.two4 = Some s' ∧
    is_Some (precise_prediction_ s' !! 3%nat) ∧
    is_Some (imprecise_predictions_ s' !! 4%nat) ∧
    cache_invariant s'.
Proof.
  eexists. split; [vm_compute; reflexivity|].
  split; [by eexists|]. split; [by eexists|].
  refine (proj1 (cache_invariant_preserved Example.runtime0
                   [OpHasPrediction 3 true; OpHasPrediction 4 true; OpGetCost 4;
                    OpInsertSpeculationGuard 4 4; OpHandleSpeculation 3 false]
                   Example.two4 _ cache_invariant_two4 _)).
  vm_compute. reflexivity.
Defined.

(** Queries on call 4 of the example method, which has a cached prediction. *)
Lemma HasPrediction_query_idempotent_witness :
  ∃ b,
    HasPrediction Example.runtime0 4 false Example.two4 = Some (b, Example.two4) ∧
    (∀ n, query_n Example.runtime0 4 n Example.two4 = Some (replicate n b, Example.two4)) ∧
    (has_cached Example.two4 4 →
       b = true ∧
       ∀ R', HasPrediction R' 4 false Example.two4 = Some (true, Example.two4)).
Proof. apply (HasPrediction_query_idempotent Example.runtime0 Example.two4 4). reflexivity. Defined.

(** The three recovery methods on the example method. *)
Lemma GetRecoveryMethod_cached_witness :
  GetRecoveryMethod Example.precise3 3 = Some kRecoveryNotNeeded ∧
  GetRecoveryMethod Example.one4 4 = Some kRecoveryDeopt ∧
  GetRecoveryMethod Example.three4 4 = Some kRecoveryCodeVersioning.
Proof.
  split; [|split].
  - apply (proj1 (GetRecoveryMethod_cached Example.precise3 3)). by eexists.
  - apply (proj1 (proj2 (GetRecoveryMethod_cached Example.one4 4)) [Some 5%nat]);
      reflexivity.
  - apply (proj1 (proj2 (GetRecoveryMethod_cached Example.three4 4))
             [Some 5; Some 160; Some 8]%nat); [reflexivity..|simpl; lia].
Defined.

Lemma cost_constants_runtime0 : cost_constants_in_range Example.runtime0.
Proof. unfold cost_constants_in_range. simpl. lia. Defined.



(** A run from a fresh pass on the example method: call 3 gets its precise
    prediction, call 4 has no static target and gets none. *)
Lemma profile_stub_only_precise_witness :
  ∃ s,
    run_all Example.runtime0
      [OpHasPrediction 3 true; OpHasPrediction 4 true; OpHandleSpeculation 3 false]
      (new_pass Example.graph0) = Some s ∧
    is_Some (precise_prediction_ s !! 3%nat) ∧
    imprecise_predictions_ s = ∅ ∧
    HasPrediction Example.runtime0 4 true s = Some (false, s).
Proof.
  eexists. split; [vm_compute; reflexivity|]. split; [by eexists|].
  match goal with |- imprecise_predictions_ ?s = _ ∧ _ =>
    destruct (profile_stub_only_precise Example.runtime0 Example.graph0
                [OpHasPrediction 3 true; OpHasPrediction 4 true;
                 OpHandleSpeculation 3 false] s)
      as (_ & Hempty & _ & Hfalse); [vm_compute; reflexivity|]
  end.
  split; [exact Hempty|]. apply Hfalse; reflexivity.
Defined.

(** The guard of call 3 of the example method, in the state the pass
    reaches by predicting the call. *)
Lemma InsertSpeculationGuard_success_witness :
  run_all Example.runtime0 [OpHasPrediction 3 true] (new_pass Example.graph0) =
    Some Example.precise3 ∧
  ∃ guard_ s',
    InsertSpeculationGuard Example.runtime0 3 3 Example.precise3 = Some (Some guard_, s') ∧
    guard_sequence_reference_first Example.runtime0 Example.precise3 s' 3 3 guard_ ∧
    precise_prediction_ s' = precise_prediction_ Example.precise3 ∧
    imprecise_predictions_ s' = imprecise_predictions_ Example.precise3.
Proof.
  split; [vm_compute; reflexivity|].
  eapply (InsertSpeculationGuard_success Example.runtime0 Example.precise3 3 3
            _ _ _ 171 60 0 1).
  - exact graph0_wf.
  - reflexivity.
  - reflexivity.
  - reflexivity.
  - reflexivity.
  - discriminate.
  - reflexivity.
  - reflexivity.
  - reflexivity.
  - reflexivity.
Defined.

(** Call 4 predicted to be of a class without an index: no guard. *)
Lemma InsertSpeculationGuard_unreferenceable_witness :
  InsertSpeculationGuard Example.runtime0 4 4 Example.foreign4 = Some (None, Example.foreign4).
Proof.
  eapply (InsertSpeculationGuard_unreferenceable Example.runtime0 Example.foreign4 4 4 _ _ _ 6);
    reflexivity.
Defined.

(** Call 4 predicted to be of a class without an index, no guard inserted: no
    rewrite. *)
Lemma HandleSpeculation_failure_unchanged_witness :
  ∃ s',
    HandleSpeculation Example.runtime0 4 false Example.foreign4 = Some (false, s') ∧
    s' = Example.foreign4 ∧
    rewrite_failure Example.runtime0 Example.foreign4 4 false.
Proof.
  eexists. split; [vm_compute; reflexivity|].
  apply (HandleSpeculation_failure_unchanged Example.runtime0 4 false Example.foreign4).
  vm_compute. reflexivity.
Defined.

(** The rewrite of call 3 of the example method into the direct call 6. *)
Lemma HandleSpeculation_success_witness :
  ∃ s' new_i,
    HandleSpeculation Example.runtime0 3 false Example.precise3 = Some (true, s') ∧
    GetBlock (graph_ s') 3 = None ∧
    arena (graph_ s') !! 6%nat = Some new_i ∧
    type_ new_i = kPrimNot ∧
    environment new_i = Some [[Some 1%nat; Some 2%nat; None]] ∧
    reference_type_info new_i = mkRTI (Some 6%nat) false.
Proof.
  destruct (HandleSpeculation Example.runtime0 3 false Example.precise3)
    as [[b s']|] eqn:Hrun; [|vm_compute in Hrun; discriminate Hrun].
  assert (b = true) as -> by (vm_compute in Hrun; congruence).
  destruct (HandleSpeculation_success Example.runtime0 3 false Example.precise3 s'
              graph0_wf Hrun)
    as (i & invoke & bl & pre & post & env0 & new_i & sd & Hi & _ & _ & _ & Hgone &
        _ & Hnew & _ & _ & Hty & Henv & _ & Hcopy & Hrti).
  simpl in Hi, Hnew. injection Hi as <-. simpl in *. injection Henv as <-.
  exists s', new_i. split_and!; try done.
  - apply Hcopy. intros frame Hf%list_elem_of_singleton. subst frame.
    intros Hin. repeat (apply elem_of_cons in Hin as [Hin|Hin]; [discriminate Hin|]).
    by apply elem_of_nil in Hin.
  - by apply Hrti.
Defined.

(** C4, as stated, fails on the example method, in the state the pass
    reaches by predicting call 3: the guard of the call is returned, but the
    first of the three instructions before the call is the type reference,
    not the type load, so they are not in the order type load, type
    reference, guard. *)
Lemma InsertSpeculationGuard_order_counterexample :
  run_all Example.runtime0 [OpHasPrediction 3 true] (new_pass Example.graph0) =
    Some Example.precise3 ∧
  ∃ s',
    InsertSpeculationGuard Example.runtime0 3 3 Example.precise3 = Some (Some 8%nat, s') ∧
    ¬ guard_sequence_load_first Example.runtime0 Example.precise3 s' 3 3 8.
Proof.
  split; [vm_compute; reflexivity|].
  eexists. split; [vm_compute; reflexivity|].
  intros (load & ref & i & cls & m & cm & _ & _ & _ & _ & _ & _ & _ & _ & _ &
          Hins & Hload & _ & _).
  destruct Hins as (b & pre & post & Hb & Hl & Hpre & Hbl).
  vm_compute in Hb. injection Hb as <-.
  simpl in Hl. injection Hl as Hl.
  destruct pre as [|x pre]; simpl in Hl.
  - injection Hl as <-. vm_compute in Hbl. injection Hbl as <- <-.
    destruct Hload as (receiver & _ & li & Hli & Hpay & _).
    vm_compute in Hli. injection Hli as <-. discriminate Hpay.
  - injection Hl as <- _. exfalso. apply Hpre, list_elem_of_here.
Qed.

(** The three ways of the specification to fail a rewrite, on the example
    method: a type without an index (no guard inserted), a type without an
    override of the target, a concrete method without an index. *)
Example HandleSpeculation_type_not_referenceable :
  HandleSpeculation Example.runtime0 4 false Example.foreign4 =
  Some (false, Example.foreign4).
Proof. reflexivity. Qed.

Example HandleSpeculation_no_override :
  HandleSpeculation Example.runtime0 3 false Example.stray3 = Some (false, Example.stray3).
Proof. reflexivity. Qed.

Example HandleSpeculation_method_not_referenceable :
  HandleSpeculation Example.runtime0 4 true Example.one4 = Some (false, Example.one4).
Proof. reflexivity. Qed.

(** ** Further properties of the pass *)

Lemma same_method_refl g : same_method g g.
Proof. by split. Qed.

Lemma same_method_trans g1 g2 g3 :
  same_method g1 g2 → same_method g2 g3 → same_method g1 g3.
Proof. intros [? ?] [? ?]. split; congruence. Qed.

Lemma update_instr_same_method r f g g' :
  update_instr r f g = Some g' → same_method g g'.
Proof.
  unfold update_instr. intros H. destruct (arena g !! r); simplify_eq/=. by split.
Qed.

Lemma InsertInstructionBefore_same_method b x c g g' :
  InsertInstructionBefore b x c g = Some g' → same_method g g'.
Proof.
  unfold InsertInstructionBefore. intros H.
  destruct (blocks g !! b); simpl in H; [|done].
  destruct (insert_before x c l); simplify_eq/=. by split.
Qed.

Lemma InsertInstructionAfter_same_method b x c g g' :
  InsertInstructionAfter b x c g = Some g' → same_method g g'.
Proof.
  unfold InsertInstructionAfter. intros H.
  destruct (blocks g !! b); simpl in H; [|done].
  destruct (insert_after x c l); simplify_eq/=. by split.
Qed.

Lemma ReplaceAndRemoveInstructionWith_same_method b initial repl g g' :
  ReplaceAndRemoveInstructionWith b initial repl g = Some g' → same_method g g'.
Proof.
  unfold ReplaceAndRemoveInstructionWith, RemoveInstruction. intros H.
  destruct (InsertInstructionBefore b repl initial g) as [g1|] eqn:E1; simpl in H; [|done].
  destruct (blocks g1 !! b); simplify_eq/=.
  apply InsertInstructionBefore_same_method in E1 as [? ?]. by split.
Qed.

Lemma CopyEnvironmentFrom_same_method r env g g' :
  CopyEnvironmentFrom r env g = Some g' → same_method g g'.
Proof.
  unfold CopyEnvironmentFrom. intros H.
  destruct env; simpl in H; [|done].
  destruct (GetBlock g r); simpl in H; [|done].
  by eapply update_instr_same_method.
Qed.

Lemma InsertSpeculationGuard_same_method R g c s r s' :
  InsertSpeculationGuard R g c s = Some (r, s') →
  same_method (graph_ s) (graph_ s').
Proof.
  unfold InsertSpeculationGuard. intros H.
  repeat (bind_step H; try discriminate H); simplify_eq/=.
  - apply same_method_refl.
  - match goal with E : InsertInstructionAfter _ _ _ ?h = Some h3 |- _ =>
      apply InsertInstructionAfter_same_method in E end.
    match goal with E : InsertInstructionAfter _ _ _ ?h = Some h2 |- _ =>
      apply InsertInstructionAfter_same_method in E end.
    match goal with E : InsertInstructionBefore _ _ _ ?h = Some h1 |- _ =>
      apply InsertInstructionBefore_same_method in E end.
    match goal with E : update_instr _ _ _ = Some h0 |- _ =>
      apply update_instr_same_method in E end.
    repeat match goal with E : same_method _ _ |- _ => destruct E as [? ?] end.
    simpl in *. split; congruence.
Qed.

Lemma HandleSpeculation_rewrite_same_method R instr mi s r s' :
  HandleSpeculation_rewrite R instr mi s = Some (r, s') →
  same_method (graph_ s) (graph_ s').
Proof.
  unfold HandleSpeculation_rewrite. intros H.
  destruct (arena (graph_ s) !! instr) as [i|] eqn:Hi; simpl in H; [|done].
  destruct (AsInvoke i) as [invoke|] eqn:Hinv; simpl in H; [|done].
  repeat (bind_step H; try discriminate H); simplify_eq/=.
  match goal with E : update_instr _ _ _ = Some ?h |- _ =>
    apply update_instr_same_method in E end.
  match goal with E : ReplaceAndRemoveInstructionWith _ _ _ _ = Some _ |- _ =>
    apply ReplaceAndRemoveInstructionWith_same_method in E end.
  match goal with E : CopyEnvironmentFrom _ _ _ = Some _ |- _ =>
    apply CopyEnvironmentFrom_same_method in E end.
  repeat match goal with E : same_method _ _ |- _ => destruct E as [? ?] end.
  simpl in *. split; congruence.
Qed.

Lemma run_same_method R op s s' :
  run R op s = Some s' → same_method (graph_ s) (graph_ s').
Proof.
  destruct op; simpl; intros H.
  - destruct (HasPrediction R instr update s) as [[b s1]|] eqn:E; simplify_eq/=.
    apply HasPrediction_inv in E.
    destruct E as [->|(_ & _ & _ & _ & [[type ->]|(types & _ & ->)])];
      apply same_method_refl.
  - destruct (GetCost R s instr); simplify_eq/=. apply same_method_refl.
  - destruct (GetMispredictRate R s instr); simplify_eq/=. apply same_method_refl.
  - destruct (GetProfit R s instr); simplify_eq/=. apply same_method_refl.
  - destruct (GetRecoveryMethod s instr); simplify_eq/=. apply same_method_refl.
  - destruct (IsPredictionSame R s instr instr2); simplify_eq/=. apply same_method_refl.
  - destruct (InsertSpeculationGuard R instr_guarded instr_cursor s) as [[r s1]|] eqn:E;
      simplify_eq/=. by eapply InsertSpeculationGuard_same_method.
  - destruct (HandleSpeculation R instr guard_inserted s) as [[r s1]|] eqn:E;
      simplify_eq/=.
    apply HandleSpeculation_inv in E as [(_ & -> & _)|(_ & mi & _ & E)].
    + apply same_method_refl.
    + by eapply HandleSpeculation_rewrite_same_method.
Qed.

Lemma run_all_same_method R ops s s' :
  run_all R ops s = Some s' → same_method (graph_ s) (graph_ s').
Proof.
  revert s. induction ops as [|op ops IH]; simpl; intros s H.
  - simplify_eq. apply same_method_refl.
  - destruct (run R op s) as [s1|] eqn:E; simpl in H; [|done].
    eapply same_method_trans; [by eapply run_same_method|by apply IH].
Qed.

Lemma run_all_extends R ops s s' :
  run_all R ops s = Some s' → arena_extends (graph_ s) (graph_ s').
Proof.
  revert s. induction ops as [|op ops IH]; simpl; intros s H.
  - simplify_eq. apply arena_extends_refl.
  - destruct (run R op s) as [s1|] eqn:E; simpl in H; [|done].
    eapply arena_extends_trans; [by eapply run_extends|by apply IH].
Qed.

(** X1. [Gate] is closed whenever the graph has no [ArtMethod], whatever the
    gate of the base pass says, and no operation of the pass moves it: after
    any sequence of operations it answers what it answered before, and where
    it answered [true] the base gate is open and the graph still has its
    method. *)
Theorem Gate_stable R ops s s' base_gate :
  run_all R ops s = Some s' →
  Gate s' base_gate = Gate s base_gate ∧
  (Gate s base_gate = true → base_gate = true ∧ is_Some (art_method_ (graph_ s'))).
Proof.
  intros H. destruct (run_all_same_method _ _ _ _ H) as [Hm _].
  unfold Gate. rewrite Hm. split; [done|].
  destruct (art_method_ (graph_ s)); [|done]. eauto.
Qed.

(** X2. No operation of the pass changes whether an instruction is a
    candidate: after any sequence of operations [IsCandidate] answers for
    every instruction the graph had what it answered before; this includes a
    call that [HandleSpeculation] has taken out of its block. *)
Theorem IsCandidate_stable R ops s s' instr :
  run_all R ops s = Some s' →
  is_Some (arena (graph_ s) !! instr) →
  IsCandidate s' instr = IsCandidate s instr.
Proof.
  intros H [i Hi]. destruct (run_all_extends _ _ _ _ H instr i Hi) as (i' & Hi' & Hp).
  unfold IsCandidate, IsInvokeVirtual, IsInvokeInterface, AsInvoke.
  rewrite Hi, Hi'. simpl. by rewrite Hp.
Qed.

(** *** The prediction cache *)

Lemma DCHECK_Some_true R c : DCHECK R (Some c) = Some tt ↔ (kIsDebugBuild R = true → c = true).
Proof.
  unfold DCHECK. destruct (kIsDebugBuild R), c; split; intros H; try done; eauto.
  by specialize (H eq_refl).
Qed.

Lemma HasPrediction_hit R s instr update :
  DCHECK R (IsCandidate s instr) = Some tt → has_cached s instr →
  HasPrediction R instr update s = Some (true, s).
Proof.
  intros Hc Hp. unfold HasPrediction. rewrite Hc. simpl.
  destruct Hp as [Hp|Hp]; apply found_true in Hp; rewrite Hp; [done|].
  by destruct (found instr (precise_prediction_ s)).
Qed.

(** What a committing [HasPrediction] does, case by case. *)
Lemma HasPrediction_commit_inv R instr s b s' :
  HasPrediction R instr true s = Some (b, s') →
  DCHECK R (IsCandidate s instr) = Some tt ∧
  ((has_cached s instr ∧ b = true ∧ s' = s) ∨
   (¬ has_cached s instr ∧ b = false ∧ s' = s ∧ static_target R (graph_ s) instr = None) ∨
   (¬ has_cached s instr ∧ b = true ∧ is_Some (static_target R (graph_ s) instr) ∧
    ∃ type, (kIsDebugBuild R = true → is_Some type) ∧
            s' = set_precise (<[instr := type]> (precise_prediction_ s)) s)).
Proof.
  unfold HasPrediction. intros H.
  destruct (DCHECK R (IsCandidate s instr)) as [[]|] eqn:Hc; simpl in H; [|done].
  split; [done|].
  destruct (found instr (precise_prediction_ s)) eqn:Hp.
  { left. simplify_eq. split; [|done]. left. by apply found_true. }
  destruct (found instr (imprecise_predictions_ s)) eqn:Hi.
  { left. simplify_eq. split; [|done]. right. by apply found_true. }
  apply found_false in Hp, Hi.
  assert (¬ has_cached s instr) as Hnc.
  { intros [[? ?]|[? ?]]; congruence. }
  right. unfold static_target. unfold Put in H. rewrite Hp in H.
  destruct (arena (graph_ s) !! instr) as [i|]; simpl in *; [|done].
  destruct (AsInvoke i) as [invoke|]; simpl in *; [|done].
  destruct (GetResolvedMethod R _) as [rm|]; simpl in *; [|left; by simplify_eq].
  destruct (FindVirtualOrInterfaceTarget R instr rm) as [am|]; [|left; by simplify_eq].
  right.
  match type of H with (?t ≫= _) = _ => destruct t as [type|] end; simpl in H; [|done].
  destruct (DCHECK R (Some (bool_decide (is_Some type)))) as [[]|] eqn:Hd;
    simpl in H; [|done].
  injection H as <- <-. split_and!; try done.
  exists type. split; [|done]. intros Hdbg.
  pose proof (proj1 (DCHECK_Some_true _ _) Hd Hdbg) as Hx.
  by apply bool_decide_eq_true in Hx.
Qed.

Lemma cache_kept_has_cached s s' k : cache_kept s s' → has_cached s k → has_cached s' k.
Proof. intros Hk Hc. destruct (Hk k Hc) as [Hp Hi]. unfold has_cached. by rewrite Hp, Hi. Qed.

Lemma HasPrediction_cache_kept R instr update s b s' :
  HasPrediction R instr update s = Some (b, s') → cache_kept s s'.
Proof.
  intros H. apply HasPrediction_inv in H.
  destruct H as [->|(_ & _ & Hp & Hi & [[type ->]|(types & _ & ->)])]; [done| |];
    intros k Hc; simpl; (split; [|done]) || (split; [done|]);
    apply lookup_insert_ne; intros <-; destruct Hc as [[? ?]|[? ?]]; congruence.
Qed.

Lemma run_cache_kept R op s s' : run R op s = Some s' → cache_kept s s'.
Proof.
  intros H. destruct (run_caches_or_query _ _ _ _ H) as [[Hp Hi]|(instr & u & b & Hq)].
  - intros k _. by rewrite Hp, Hi.
  - by eapply HasPrediction_cache_kept.
Qed.

Lemma run_all_cache_kept R ops s s' : run_all R ops s = Some s' → cache_kept s s'.
Proof.
  revert s. induction ops as [|op ops IH]; simpl; intros s H; [by simplify_eq|].
  destruct (run R op s) as [s1|] eqn:E; simpl in H; [|done].
  pose proof (run_cache_kept _ _ _ _ E) as H1. pose proof (IH _ H) as H2.
  intros k Hc. destruct (H1 k Hc) as [Hp1 Hi1].
  destruct (H2 k (cache_kept_has_cached _ _ _ H1 Hc)) as [Hp2 Hi2].
  split; congruence.
Qed.

(** X3. A cached prediction is never overwritten or dropped: after any
    sequence of operations both maps hold, for a call site that had a cached
    prediction, the entries they held, so [GetPrimaryType] and
    [GetRecoveryMethod] answer for it as before. *)
Theorem cache_entries_kept R ops s s' instr :
  run_all R ops s = Some s' →
  has_cached s instr →
  precise_prediction_ s' !! instr = precise_prediction_ s !! instr ∧
  imprecise_predictions_ s' !! instr = imprecise_predictions_ s !! instr ∧
  GetPrimaryType s' instr = GetPrimaryType s instr ∧
  GetRecoveryMethod s' instr = GetRecoveryMethod s instr.
Proof.
  intros H Hc. destruct (run_all_cache_kept _ _ _ _ H instr Hc) as [Hp Hi].
  split; [done|]. split; [done|].
  unfold GetPrimaryType, GetRecoveryMethod, found. by rewrite Hp, Hi.
Qed.

(** X4. [HasPrediction(instr, true)] returns [true] exactly when it leaves a
    cached prediction for [instr]; when it returns [false] the pass state is
    what it was; it never touches the graph; and after a [true] answer in a
    state that passes the destructor's checks [GetPrimaryType] has a
    result. *)
Theorem HasPrediction_commit R instr s b s' :
  HasPrediction R instr true s = Some (b, s') →
  (b = true ↔ has_cached s' instr) ∧
  (b = false → s' = s) ∧
  graph_ s' = graph_ s ∧
  (cache_invariant s → b = true → is_Some (GetPrimaryType s' instr)).
Proof.
  intros H. apply HasPrediction_commit_inv in H as [_ H].
  destruct H as [(Hc & -> & ->)|[(Hnc & -> & -> & _)|(Hnc & -> & _ & type & _ & ->)]].
  - split_and!; try done.
    intros Hinv _. unfold GetPrimaryType, found.
    destruct Hc as [[t Ht]|[ts Hts]]; [rewrite Ht; eauto|].
    destruct (Hinv _ _ Hts) as [Hlen Hp]. rewrite Hp, Hts. simpl.
    destruct ts; simpl in *; [lia|eauto].
  - split_and!; done.
  - assert (has_cached (set_precise (<[instr:=type]> (precise_prediction_ s)) s) instr) as Hc.
    { left. simpl. rewrite lookup_insert_eq. eauto. }
    split_and!; try done.
    intros _ _. unfold GetPrimaryType, found. simpl. rewrite lookup_insert_eq. eauto.
Qed.

(** X5. The query announces the commit: whenever [HasPrediction(instr,
    true)] returns, [HasPrediction(instr, false)] in the state before gives
    the same answer and changes nothing, and both forms asked again in the
    state after give that answer once more and change nothing. *)
Theorem HasPrediction_query_then_commit R instr s b s' :
  HasPrediction R instr true s = Some (b, s') →
  HasPrediction R instr false s = Some (b, s) ∧
  HasPrediction R instr false s' = Some (b, s') ∧
  HasPrediction R instr true s' = Some (b, s').
Proof.
  intros H. pose proof H as H0.
  apply HasPrediction_commit_inv in H as [Hd H].
  destruct H as [(Hc & -> & ->)|[(Hnc & -> & -> & Hst)|(Hnc & -> & [am Hst] & type & _ & ->)]].
  - split_and!; by apply HasPrediction_hit.
  - assert (HasPrediction R instr false s = Some (false, s)) as Hq; [|by split_and!].
    revert H0. unfold HasPrediction. rewrite Hd. simpl.
    destruct (found instr (precise_prediction_ s)); [done|].
    destruct (found instr (imprecise_predictions_ s)); [done|].
    unfold static_target in Hst.
    destruct (arena (graph_ s) !! instr) as [i|]; simpl in *; [|done].
    destruct (AsInvoke i) as [invoke|]; simpl in *; [|done].
    destruct (GetResolvedMethod R _) as [rm|]; simpl in *; [|done].
    by rewrite Hst.
  - assert (has_cached (set_precise (<[instr:=type]> (precise_prediction_ s)) s) instr) as Hc.
    { left. simpl. rewrite lookup_insert_eq. eauto. }
    split; [|split; by apply HasPrediction_hit].
    unfold HasPrediction. rewrite Hd. simpl.
    assert (found instr (precise_prediction_ s) = false) as ->.
    { apply found_false. destruct (precise_prediction_ s !! instr) eqn:E; [|done].
      exfalso. apply Hnc. left. eauto. }
    assert (found instr (imprecise_predictions_ s) = false) as ->.
    { apply found_false. destruct (imprecise_predictions_ s !! instr) eqn:E; [|done].
      exfalso. apply Hnc. right. eauto. }
    unfold static_target in Hst.
    destruct (arena (graph_ s) !! instr) as [i|]; simpl in *; [|done].
    destruct (AsInvoke i) as [invoke|]; simpl in *; [|done].
    destruct (GetResolvedMethod R _) as [rm|]; simpl in *; [|done].
    by rewrite Hst.
Qed.

(** X6. For a candidate call site without a cached prediction whose
    statically found target is final (the method or its declaring class),
    [HasPrediction(instr, true)] returns [true] and records as the precise
    prediction the declaring class of that target; [GetPrimaryType] then
    returns this class and [GetRecoveryMethod] [kRecoveryNotNeeded]. *)
Theorem HasPrediction_final_target R instr s am :
  IsCandidate s instr = Some true →
  ¬ has_cached s instr →
  static_target R (graph_ s) instr = Some am →
  IsMethodOrDeclaringClassFinal R am = true →
  let s' := set_precise (<[instr := Some (GetDeclaringClass R am)]> (precise_prediction_ s)) s in
  HasPrediction R instr true s = Some (true, s') ∧
  GetPrimaryType s' instr = Some (Some (GetDeclaringClass R am)) ∧
  GetRecoveryMethod s' instr = Some kRecoveryNotNeeded.
Proof.
  intros Hc Hnc Hst Hfin s'.
  assert (precise_prediction_ s !! instr = None) as Hp.
  { destruct (precise_prediction_ s !! instr) eqn:E; [|done]. exfalso. apply Hnc. left. eauto. }
  assert (imprecise_predictions_ s !! instr = None) as Hi.
  { destruct (imprecise_predictions_ s !! instr) eqn:E; [|done].
    exfalso. apply Hnc. right. eauto. }
  split; [|split].
  - unfold HasPrediction. rewrite Hc, DCHECK_true. simpl.
    rewrite (proj2 (found_false _ _) Hp), (proj2 (found_false _ _) Hi).
    unfold static_target in Hst.
    destruct (arena (graph_ s) !! instr) as [i|]; simpl in *; [|done].
    destruct (AsInvoke i) as [invoke|]; simpl in *; [|done].
    destruct (GetResolvedMethod R _) as [rm|]; simpl in *; [|done].
    rewrite Hst, Hfin. simpl. rewrite DCHECK_true. simpl.
    by rewrite Put_fresh.
  - unfold GetPrimaryType, found. subst s'. simpl. by rewrite lookup_insert_eq.
  - unfold GetRecoveryMethod, found. subst s'. simpl. by rewrite lookup_insert_eq.
Qed.

(** X7. For a candidate call site without a cached prediction whose
    statically found target is not final, [HasPrediction(instr, true)]
    records the type of the reference type info of the receiver (input 0);
    when the receiver is a null check it records the type of the checked
    value instead, one level down and no further. *)
Theorem HasPrediction_receiver_type R instr s am i receiver ri :
  IsCandidate s instr = Some true →
  ¬ has_cached s instr →
  static_target R (graph_ s) instr = Some am →
  IsMethodOrDeclaringClassFinal R am = false →
  arena (graph_ s) !! instr = Some i →
  InputAt i 0 = Some (Some receiver) →
  arena (graph_ s) !! receiver = Some ri →
  (IsNullCheck ri = false →
   ∀ c, rti_type_handle (reference_type_info ri) = Some c →
     ∃ s', HasPrediction R instr true s = Some (true, s') ∧
           precise_prediction_ s' !! instr = Some (Some c)) ∧
  (IsNullCheck ri = true →
   ∀ checked rc c,
     InputAt ri 0 = Some (Some checked) →
     arena (graph_ s) !! checked = Some rc →
     rti_type_handle (reference_type_info rc) = Some c →
     ∃ s', HasPrediction R instr true s = Some (true, s') ∧
           precise_prediction_ s' !! instr = Some (Some c)).
Proof.
  intros Hc Hnc Hst Hfin Hi Hin Hri.
  assert (precise_prediction_ s !! instr = None) as Hp.
  { destruct (precise_prediction_ s !! instr) eqn:E; [|done]. exfalso. apply Hnc. left. eauto. }
  assert (imprecise_predictions_ s !! instr = None) as Him.
  { destruct (imprecise_predictions_ s !! instr) eqn:E; [|done].
    exfalso. apply Hnc. right. eauto. }
  assert (∀ c t, t = Some (Some c) →
    (InputAt i 0 ≫= λ r0, r0 ≫= λ receiver, arena (graph_ s) !! receiver ≫= λ ri,
       if IsNullCheck ri
       then InputAt ri 0 ≫= λ r1, r1 ≫= λ receiver', arena (graph_ s) !! receiver' ≫= λ ri',
              Some (rti_type_handle (reference_type_info ri'))
       else Some (rti_type_handle (reference_type_info ri))) = t →
    ∃ s', HasPrediction R instr true s = Some (true, s') ∧
          precise_prediction_ s' !! instr = Some (Some c)) as Hgen.
  { intros c t -> Hty. eexists. split.
    - unfold HasPrediction. rewrite Hc, DCHECK_true. simpl.
      rewrite (proj2 (found_false _ _) Hp), (proj2 (found_false _ _) Him).
      unfold static_target in Hst. rewrite Hi in *. simpl in *.
      destruct (AsInvoke i) as [invoke|]; simpl in *; [|done].
      destruct (GetResolvedMethod R _) as [rm|]; simpl in *; [|done].
      rewrite Hst, Hfin. rewrite Hty. simpl. rewrite DCHECK_true. simpl.
      rewrite Put_fresh by done. reflexivity.
    - simpl. by rewrite lookup_insert_eq. }
  split.
  - intros Hnull c Hrti. apply (Hgen c _ eq_refl).
    rewrite Hin. simpl. rewrite Hri. simpl. by rewrite Hnull, Hrti.
  - intros Hnull checked rc c Hin2 Hrc Hrti. apply (Hgen c _ eq_refl).
    rewrite Hin. simpl. rewrite Hri. simpl. rewrite Hnull, Hin2. simpl.
    rewrite Hrc. simpl. by rewrite Hrti.
Qed.

(** *** The queries on the cache *)

(** X8. In a state that passes the destructor's checks [GetPrimaryType] has
    a result exactly for the call sites with a cached prediction: the precise
    entry where there is one, and otherwise the first candidate of the
    imprecise entry, which exists. *)
Theorem GetPrimaryType_cached s instr :
  cache_invariant s →
  (has_cached s instr ↔ is_Some (GetPrimaryType s instr)) ∧
  (∀ t, precise_prediction_ s !! instr = Some t → GetPrimaryType s instr = Some t) ∧
  (∀ ts, precise_prediction_ s !! instr = None →
         imprecise_predictions_ s !! instr = Some ts →
         ∃ t rest, ts = t :: rest ∧ GetPrimaryType s instr = Some t).
Proof.
  intros Hinv. unfold GetPrimaryType, found, has_cached. split_and!.
  - destruct (precise_prediction_ s !! instr) as [t|] eqn:Hp.
    { split; eauto. }
    destruct (imprecise_predictions_ s !! instr) as [ts|] eqn:Hi; simpl.
    + destruct (Hinv _ _ Hi) as [Hlen _].
      destruct ts; simpl in *; [lia|]. split; eauto.
    + split; [intros [[? ?]|[? ?]]; done|intros [? ?]; done].
  - intros t Hp. by rewrite Hp.
  - intros ts Hp Hi. rewrite Hp, Hi. simpl.
    destruct (Hinv _ _ Hi) as [Hlen _]. destruct ts; simpl in *; [lia|eauto].
Qed.

(** X9. The three queries agree on what is precise.  For a candidate call
    site with a cached prediction: the prediction is precise if and only if
    [GetRecoveryMethod] is [kRecoveryNotNeeded], if and only if
    [GetMispredictRate] is 0 in 10; and then [GetCost] is 0. *)
Theorem precise_consistency R s instr :
  IsCandidate s instr = Some true →
  has_cached s instr →
  (is_Some (precise_prediction_ s !! instr) ↔
     GetRecoveryMethod s instr = Some kRecoveryNotNeeded) ∧
  (is_Some (precise_prediction_ s !! instr) ↔
     GetMispredictRate R s instr = Some (0, 10)) ∧
  (is_Some (precise_prediction_ s !! instr) → GetCost R s instr = Some 0).
Proof.
  intros Hc Hp.
  destruct (precise_prediction_ s !! instr) as [t|] eqn:Ht.
  - assert (is_Some (precise_prediction_ s !! instr)) as Hs by (rewrite Ht; eauto).
    rewrite (GetMispredictRate_precise R s instr Hc Hs).
    unfold GetRecoveryMethod, GetCost, found.
    rewrite DCHECK_HasPrediction by done. rewrite Ht. simpl.
    split_and!; [split; eauto..|done].
  - destruct Hp as [[t' Ht']|[ts Hts]]; [congruence|].
    rewrite (GetMispredictRate_imprecise R s instr ts Hc Ht Hts).
    unfold GetRecoveryMethod, found. rewrite Ht, Hts. simpl.
    split_and!.
    + split; [intros [? ?]; done|]. by destruct (length ts =? 1)%nat.
    + split; [intros [? ?]; done|done].
    + intros [? ?]; done.
Qed.

(** X10. For a candidate call site with a cached prediction
    [GetMispredictRate] is a fraction over 10 with numerator 0 or 1.  Without
    a cached prediction, in a release build (where the [DCHECK]s are no
    code), it returns a pair whose second component is 0. *)
Theorem GetMispredictRate_denominator R s instr :
  (IsCandidate s instr = Some true → has_cached s instr →
   ∃ n, GetMispredictRate R s instr = Some (n, 10) ∧ 0 ≤ n ≤ 1) ∧
  (¬ has_cached s instr → kIsDebugBuild R = false →
   ∃ n, GetMispredictRate R s instr = Some (n, 0)).
Proof.
  split.
  - intros Hc [Hp|[ts Hts]].
    + exists 0. split; [by apply GetMispredictRate_precise|lia].
    + destruct (precise_prediction_ s !! instr) as [t|] eqn:Ht.
      * exists 0. split; [apply GetMispredictRate_precise; [done|by rewrite Ht]|lia].
      * exists 1. split; [by eapply GetMispredictRate_imprecise|lia].
  - intros Hnc Hd.
    assert (precise_prediction_ s !! instr = None) as Hp.
    { destruct (precise_prediction_ s !! instr) eqn:E; [|done].
      exfalso. apply Hnc. left. eauto. }
    assert (imprecise_predictions_ s !! instr = None) as Hi.
    { destruct (imprecise_predictions_ s !! instr) eqn:E; [|done].
      exfalso. apply Hnc. right. eauto. }
    unfold GetMispredictRate, found, count, DCHECK. rewrite Hp, Hi, Hd. simpl. eauto.
Qed.

(** X11. Without a cached prediction for the call site [GetCost],
    [GetRecoveryMethod] and [GetPrimaryType] have no result (a failed
    [DCHECK] in a debug build, the entry past the end of the map otherwise),
    and in a debug build [GetMispredictRate] has none either. *)
Theorem queries_need_cached_prediction R s instr :
  ¬ has_cached s instr →
  GetCost R s instr = None ∧
  GetRecoveryMethod s instr = None ∧
  GetPrimaryType s instr = None ∧
  (kIsDebugBuild R = true → GetMispredictRate R s instr = None).
Proof.
  intros Hnc.
  assert (precise_prediction_ s !! instr = None) as Hp.
  { destruct (precise_prediction_ s !! instr) eqn:E; [|done]. exfalso. apply Hnc. left. eauto. }
  assert (imprecise_predictions_ s !! instr = None) as Hi.
  { destruct (imprecise_predictions_ s !! instr) eqn:E; [|done].
    exfalso. apply Hnc. right. eauto. }
  unfold GetCost, GetRecoveryMethod, GetPrimaryType, GetMispredictRate, found, count.
  rewrite Hp, Hi. simpl. split_and!; try done.
  - repeat (match goal with |- context [DCHECK ?R ?c] => destruct (DCHECK R c) end; simpl);
      done.
  - intros Hd. destruct (DCHECK R (fst <$> _)); simpl; [|done].
    unfold DCHECK. by rewrite Hd.
Qed.

(** X12. For a candidate call site with a cached prediction [GetProfit] is
    [kCostOfVirtualInvokes] plus the number of arguments plus one, as long as
    these sums fit their integer types ([uint32_t] for the argument count,
    [uint64_t] for the profit); it is then more than
    [kCostOfVirtualInvokes]. *)
Theorem GetProfit_value R s instr i d :
  IsCandidate s instr = Some true →
  has_cached s instr →
  arena (graph_ s) !! instr = Some i →
  AsInvoke i = Some d →
  0 ≤ kCostOfVirtualInvokes R →
  Z.of_nat (number_of_arguments d) + 1 < 2 ^ 32 →
  kCostOfVirtualInvokes R + Z.of_nat (number_of_arguments d) + 1 < 2 ^ 64 →
  GetProfit R s instr =
    Some (kCostOfVirtualInvokes R + Z.of_nat (number_of_arguments d) + 1) ∧
  ∀ profit, GetProfit R s instr = Some profit → kCostOfVirtualInvokes R < profit.
Proof.
  intros Hc Hp Hi Hd Hk H32 H64.
  assert (GetProfit R s instr =
          Some (kCostOfVirtualInvokes R + Z.of_nat (number_of_arguments d) + 1)) as Hv.
  { unfold GetProfit. rewrite DCHECK_HasPrediction by done. simpl.
    rewrite Hi. simpl. rewrite Hd. simpl. f_equal.
    unfold wrap32. rewrite (Z.mod_small (_ + 1)) by lia.
    rewrite wrap64_small by lia. lia. }
  split; [done|]. intros profit Hpr. rewrite Hv in Hpr. injection Hpr as <-. lia.
Qed.

Lemma total_cost_bound R ref cls :
  cost_constants_in_range R →
  kCostOfLoadReferrerClass R ≤ kCostOfLoadClass R →
  total_cost R ref cls ≤
    Z.of_nat (length cls) * (kCostOfLoadClass R + kCostOfDevirtCheck R) ∧
  (ref ∉ cls →
   total_cost R ref cls =
     Z.of_nat (length cls) * (kCostOfLoadClass R + kCostOfDevirtCheck R)).
Proof.
  intros (? & ? & ?) Hle. induction cls as [|c cls [IH1 IH2]].
  - simpl. split; [lia|intros; lia].
  - cbn [total_cost length]. unfold candidate_cost.
    destruct (Nat.eqb_spec c ref) as [->|Hne].
    + split; [lia|]. intros Hn. exfalso. apply Hn, list_elem_of_here.
    + split; [lia|]. intros Hn. apply not_elem_of_cons in Hn as [_ Hn].
      rewrite (IH2 Hn). lia.
Qed.

(** X13. [GetMaxCost] bounds the cost of each candidate.  When loading the
    referrer's class costs no more than loading another class and nothing
    overflows, [GetCost] of an imprecise prediction with [n] candidates is at
    most [n] times [GetMaxCost], and exactly that when the class being
    compiled is not among the candidates. *)
Theorem GetCost_at_most_max R s instr cls m :
  cost_constants_in_range R →
  kCostOfLoadReferrerClass R ≤ kCostOfLoadClass R →
  Z.of_nat (length cls) * (kCostOfLoadClass R + kCostOfDevirtCheck R) < 2 ^ 64 →
  kCostOfLoadClass R + kCostOfDevirtCheck R < 2 ^ 64 →
  IsCandidate s instr = Some true →
  precise_prediction_ s !! instr = None →
  imprecise_predictions_ s !! instr = Some (Some <$> cls) →
  art_method_ (graph_ s) = Some m →
  ∃ cost,
    GetCost R s instr = Some cost ∧
    cost ≤ Z.of_nat (length cls) * GetMaxCost R ∧
    (GetDeclaringClass R m ∉ cls → cost = Z.of_nat (length cls) * GetMaxCost R).
Proof.
  intros Hwf Hle Hfit Hmax Hc Hp Hi Hm.
  pose proof (total_cost_nonneg R (GetDeclaringClass R m) cls Hwf) as Hnn.
  destruct (total_cost_bound R (GetDeclaringClass R m) cls Hwf Hle) as [Hb Heq].
  assert (GetMaxCost R = kCostOfLoadClass R + kCostOfDevirtCheck R) as ->.
  { unfold GetMaxCost. destruct Hwf as (? & ? & ?). apply wrap64_small. lia. }
  exists (total_cost R (GetDeclaringClass R m) cls). split_and!; [|done..].
  rewrite (GetCost_imprecise R s instr cls m) by done.
  f_equal. apply wrap64_small. lia.
Qed.

(** X14. [IsPredictionSame] does not depend on the order of its two
    arguments, and it answers [true] for two candidate call sites with cached
    predictions on the same receiver (input 0), whatever the predicted types
    are. *)
Theorem IsPredictionSame_symmetric R s instr instr2 :
  IsPredictionSame R s instr instr2 = IsPredictionSame R s instr2 instr ∧
  (∀ i1 i2 receiver,
     IsCandidate s instr = Some true → IsCandidate s instr2 = Some true →
     has_cached s instr → has_cached s instr2 →
     arena (graph_ s) !! instr = Some i1 → arena (graph_ s) !! instr2 = Some i2 →
     InputAt i1 0 = Some receiver → InputAt i2 0 = Some receiver →
     IsPredictionSame R s instr instr2 = Some true).
Proof.
  split.
  - unfold IsPredictionSame.
    destruct (DCHECK R (fst <$> HasPrediction R instr false s)),
             (DCHECK R (fst <$> HasPrediction R instr2 false s)); simpl; try done.
    destruct (arena (graph_ s) !! instr) as [i1|], (arena (graph_ s) !! instr2) as [i2|];
      simpl; try done; try (by destruct (AsInvoke _)).
    destruct (AsInvoke i1), (AsInvoke i2); simpl; try done.
    destruct (InputAt i1 0) as [o1|], (InputAt i2 0) as [o2|]; simpl; try done.
    rewrite (bool_decide_ext (o2 = o1) (o1 = o2)) by (split; congruence).
    destruct (bool_decide (o1 = o2)); [done|].
    destruct (GetPrimaryType s instr) as [t1|], (GetPrimaryType s instr2) as [t2|];
      simpl; try done; try (by destruct (Handle_Get _)).
    destruct (Handle_Get t1), (Handle_Get t2); simpl; try done.
    by rewrite Nat.eqb_sym.
  - intros i1 i2 receiver Hc1 Hc2 Hp1 Hp2 Hi1 Hi2 Hr1 Hr2.
    destruct (IsCandidate_invoke _ _ Hc1) as (i1' & d1 & Hi1' & Hd1 & _).
    destruct (IsCandidate_invoke _ _ Hc2) as (i2' & d2 & Hi2' & Hd2 & _).
    simplify_eq. unfold IsPredictionSame.
    rewrite !DCHECK_HasPrediction by done. simpl.
    rewrite Hi1. simpl. rewrite Hd1. simpl. rewrite Hi2. simpl. rewrite Hd2. simpl.
    rewrite Hr1, Hr2. simpl. by rewrite bool_decide_true.
Qed.

Lemma SetArgumentAt_inputs k x ni ni' :
  SetArgumentAt k x ni = Some ni' →
  (k < length (inputs ni))%nat ∧ inputs ni' = <[k := x]> (inputs ni).
Proof. unfold SetArgumentAt. intros H. case_decide; by simplify_eq/=. Qed.

Lemma copy_arguments_inputs src k ni ni' :
  (k ≤ length (inputs ni))%nat →
  copy_arguments src k ni = Some ni' →
  (k + length src ≤ length (inputs ni))%nat ∧
  inputs ni' = take k (inputs ni) ++ src ++ drop (k + length src) (inputs ni).
Proof.
  revert k ni. induction src as [|x src IH]; simpl; intros k ni Hk H.
  - simplify_eq. rewrite Nat.add_0_r, take_drop. split; [lia|done].
  - destruct (SetArgumentAt k x ni) as [ni1|] eqn:E; simpl in H; [|done].
    apply SetArgumentAt_inputs in E as [Hlt E].
    apply IH in H as [Hlen H]; [|rewrite E, length_insert; lia].
    rewrite E, length_insert in Hlen. split; [lia|].
    rewrite H, E.
    rewrite (take_S_r _ _ x) by (by apply list_lookup_insert_eq).
    rewrite take_insert_ge by lia.
    rewrite drop_insert_lt by lia.
    rewrite <- app_assoc. simpl.
    replace (k + S (length src))%nat with (S (k + length src)) by lia. done.
Qed.

Lemma replace_ref_not_initial initial other x :
  other ≠ initial → replace_ref initial other x ≠ Some initial.
Proof.
  intros Hne. unfold replace_ref. destruct x as [y|]; [|done].
  case_decide; congruence.
Qed.

Lemma map_replace_ref_unused initial other l :
  other ≠ initial → Some initial ∉ map (replace_ref initial other) l.
Proof.
  intros Hne Hin. apply list_elem_of_In, in_map_iff in Hin as (x & Hx & _).
  by apply (replace_ref_not_initial initial other x).
Qed.

Lemma replace_in_env_unused initial other (e : list (list (option nat))) frame :
  other ≠ initial → frame ∈ replace_in_env initial other e → Some initial ∉ frame.
Proof.
  intros Hne Hin. unfold replace_in_env in Hin.
  apply list_elem_of_In, in_map_iff in Hin as (f & <- & _).
  by apply map_replace_ref_unused.
Qed.

Lemma split_at_unique (x : nat) l1 l2 k1 k2 :
  l1 ++ x :: l2 = k1 ++ x :: k2 → x ∉ l1 → x ∉ k1 → l1 = k1 ∧ l2 = k2.
Proof.
  revert k1. induction l1 as [|y l1 IH]; intros [|z k1] H Hl Hk; simpl in H.
  - by injection H as ->.
  - injection H as -> _. exfalso. apply Hk, list_elem_of_here.
  - injection H as -> _. exfalso. apply Hl, list_elem_of_here.
  - injection H as -> H.
    apply not_elem_of_cons in Hl as [_ Hl]. apply not_elem_of_cons in Hk as [_ Hk].
    destruct (IH _ H Hl Hk) as [-> ->]. done.
Qed.

(** The graph a successful rewrite leaves, in full. *)
Lemma HandleSpeculation_rewrite_graph R instr mi s s' :
  graph_wf (graph_ s) →
  HandleSpeculation_rewrite R instr mi s = Some (true, s') →
  ∃ i invoke b pre post env0 cm ni g2,
    let n := length (arena (graph_ s)) in
    arena (graph_ s) !! instr = Some i ∧
    AsInvoke i = Some invoke ∧
    environment i = Some env0 ∧
    GetCurrentMethod (graph_ s) = Some cm ∧
    blocks (graph_ s) !! b = Some (pre ++ instr :: post) ∧
    (instr ∉ pre) ∧ (instr ∉ post) ∧
    (length (inputs i) ≤ number_of_arguments invoke)%nat ∧
    payload ni =
      PInvokeStaticOrDirect
        (mkInvokeData (number_of_arguments invoke) mi (original_invoke_type invoke) false)
        (mkStaticOrDirectData (caller_dex_file R, mi)
           (mkDispatchInfo kDexCacheViaMethod kCallArtMethod 0 0) kDirect kNone) ∧
    inputs ni =
      inputs i ++ Some cm ::
      replicate (number_of_arguments invoke - length (inputs i)) None ∧
    blocks g2 = <[b := pre ++ n :: instr :: post]> (blocks (graph_ s)) ∧
    blocks (graph_ s') = <[b := pre ++ n :: post]> (blocks (graph_ s)) ∧
    arena (graph_ s') =
      alter (set_environment (Some (replace_in_env instr n env0))) n
        (imap (λ r j, if in_graph g2 r then replace_uses instr n j else j)
              (arena (graph_ s) ++ [ni])).
Proof.
  intros Hwf H. unfold HandleSpeculation_rewrite in H.
  destruct (arena (graph_ s) !! instr) as [i|] eqn:Hi; simpl in H; [|done].
  destruct (AsInvoke i) as [invoke|] eqn:Hinv; simpl in H; [|done].
  destruct (graph_ s) as [a bl am ccm] eqn:Hg. simpl in *.
  unfold New, set_arena in H. simpl in H.
  rewrite lookup_app_r, Nat.sub_diag in H by lia. simpl in H.
  match type of H with (copy_arguments ?x ?k ?n ≫= _) = _ =>
    destruct (copy_arguments x k n) as [ni1|] eqn:Hcopy; simpl in H; [|done] end.
  rewrite (GetCurrentMethod_blocks (mkHGraph a bl am ccm)) in H by done.
  destruct (GetCurrentMethod _) as [cm|] eqn:Hcm; simpl in H; [|done].
  destruct (SetArgumentAt _ _ ni1) as [ni2|] eqn:Hset; simpl in H; [|done].
  destruct (DCHECK R _); simpl in H; [|done].
  rewrite update_instr_fresh in H. simpl in H.
  pose proof (copy_arguments_fields _ _ _ _ Hcopy) as (Hp1 & _).
  pose proof (SetArgumentAt_fields _ _ _ _ Hset) as (Hp2 & _).
  apply copy_arguments_inputs in Hcopy as [Hlen1 Hin1]; [|simpl; lia].
  apply SetArgumentAt_inputs in Hset as [Hlen2 Hin2].
  simpl in *. rewrite length_replicate in *.
  set (ni3 := if decide (type_ i = kPrimNot)
              then SetReferenceTypeInfo (reference_type_info i) ni2 else ni2) in *.
  assert (payload ni3 = payload ni2 ∧ inputs ni3 = inputs ni2) as (Hp3 & Hin3).
  { subst ni3. by destruct (decide (type_ i = kPrimNot)). }
  clearbody ni3.
  rewrite (GetBlock_blocks (mkHGraph a bl am ccm)) in H by done.
  destruct (GetBlock _ instr) as [b|] eqn:Hb; simpl in H; [|done].
  apply GetBlock_Some in Hb as (pre & post & Hl & Hpre). simpl in Hl.
  destruct (graph_wf_unique _ _ _ _ _ Hwf Hl) as (_ & Hpost & Hother).
  assert (instr < length a)%nat as Hlt by (by eapply lookup_lt_Some).
  assert (b < length bl)%nat as Hblen by (by eapply lookup_lt_Some).
  rewrite (ReplaceAndRemoveInstructionWith_computes _ _ _ _ _ _ _ pre post) in H
    by (done || lia).
  simpl in H.
  set (g2 := mkHGraph (a ++ [ni3]) (<[b:=pre ++ length a :: instr :: post]> bl) am ccm) in *.
  assert (blocks g2 !! b = Some (pre ++ length a :: instr :: post)) as Hl2.
  { subst g2. simpl. by apply list_lookup_insert_eq. }
  assert (in_graph g2 instr = true) as Hing.
  { eapply in_graph_true; [done|]. apply elem_of_app. right.
    apply list_elem_of_further, list_elem_of_here. }
  rewrite list_lookup_imap, lookup_app_l, Hi in H by done. simpl in H.
  rewrite Hing in H. simpl in H.
  unfold CopyEnvironmentFrom in H.
  destruct (environment i) as [env0|] eqn:Henv; simpl in H; [|done].
  destruct (GetBlock _ (length a)) as [b2|] eqn:Hb2 in H; simpl in H; [|done].
  unfold update_instr in H. simpl in H.
  rewrite list_lookup_imap, lookup_app_r, Nat.sub_diag in H by lia. simpl in H.
  injection H as <-.
  exists i, invoke, b, pre, post, env0, cm, ni3, g2. simpl.
  assert (length (inputs i) ≤ number_of_arguments invoke)%nat as Hargs.
  { rewrite Hin1, !length_app, length_drop, length_replicate in Hlen2. lia. }
  split_and!; try done.
  - by rewrite Hp3, Hp2, Hp1.
  - rewrite Hin3, Hin2, Hin1. rewrite drop_replicate.
    replace (length (inputs i)) with (length (inputs i) + 0)%nat at 1 by lia.
    rewrite insert_app_r.
    replace (number_of_arguments invoke + 1 + 0 - length (inputs i))%nat
      with (S (number_of_arguments invoke - length (inputs i))) by lia.
    done.
Qed.

Lemma map_replace_ref_id initial other l :
  Some initial ∉ l → map (replace_ref initial other) l = l.
Proof.
  induction l as [|x l IH]; simpl; intros Hn; [done|].
  apply not_elem_of_cons in Hn as [Hx Hn].
  rewrite replace_ref_id by done. by rewrite IH.
Qed.

Lemma in_graph_true_inv g r :
  in_graph g r = true → ∃ b l, blocks g !! b = Some l ∧ r ∈ l.
Proof.
  unfold in_graph. destruct (GetBlock g r) as [b|] eqn:Hb; [|done]. intros _.
  apply GetBlock_Some in Hb as (pre & post & Hl & _).
  exists b, (pre ++ r :: post). split; [done|].
  apply elem_of_app. right. apply list_elem_of_here.
Qed.

(** X15. After a successful [HandleSpeculation] on a well-formed graph the
    direct call has the inputs of the original call, then the current method
    of the graph, then null for every argument slot the original left
    unfilled (with the original call itself, should it occur there, replaced
    by the new one).  For an original with as many inputs as arguments that
    does not use itself these are the original's inputs followed by the
    current method. *)
Theorem HandleSpeculation_arguments R instr guard_inserted s s' :
  graph_wf (graph_ s) →
  HandleSpeculation R instr guard_inserted s = Some (true, s') →
  ∃ i invoke cm new_i,
    let new_invoke := length (arena (graph_ s)) in
    arena (graph_ s) !! instr = Some i ∧
    AsInvoke i = Some invoke ∧
    GetCurrentMethod (graph_ s) = Some cm ∧
    arena (graph_ s') !! new_invoke = Some new_i ∧
    (length (inputs i) ≤ number_of_arguments invoke)%nat ∧
    inputs new_i =
      map (replace_ref instr new_invoke)
          (inputs i ++ Some cm ::
           replicate (number_of_arguments invoke - length (inputs i)) None) ∧
    (length (inputs i) = number_of_arguments invoke →
     Some instr ∉ inputs i → cm ≠ instr →
     inputs new_i = inputs i ++ [Some cm]).
Proof.
  intros Hwf H. apply HandleSpeculation_inv in H as [(? & _)|(_ & mi & _ & H)]; [done|].
  apply HandleSpeculation_rewrite_graph in H
    as (i & invoke & b & pre & post & env0 & cm & ni & g2 & H); [|done].
  simpl in H.
  destruct H as (Hi & Hinv & Henv & Hcm & Hl & Hpre & Hpost & Hargs & Hpay & Hin & Hg2 &
                 Hbl & Har).
  assert (b < length (blocks (graph_ s)))%nat as Hblen by (by eapply lookup_lt_Some).
  assert (in_graph g2 (length (arena (graph_ s))) = true) as Hing.
  { eapply (in_graph_true _ _ b); [rewrite Hg2; by apply list_lookup_insert_eq|].
    apply elem_of_app. right. apply list_elem_of_here. }
  eexists i, invoke, cm, _. simpl. split_and!; try done.
  - rewrite Har, list_lookup_alter_eq, list_lookup_imap, lookup_app_r, Nat.sub_diag by lia.
    simpl. rewrite Hing. reflexivity.
  - simpl. by rewrite Hin.
  - intros Hlen Hself Hcmne. simpl. rewrite Hin, Hlen, Nat.sub_diag. simpl.
    apply map_replace_ref_id. intros [Hx|Hx]%elem_of_app; [done|].
    apply list_elem_of_singleton in Hx. congruence.
Qed.

(** X16. After a successful [HandleSpeculation] on a well-formed graph no
    instruction that sits in a block names the original call any more,
    neither as an input nor in its environment; the direct call, which
    received a copy of the original's environment, included. *)
Theorem HandleSpeculation_no_use_left R instr guard_inserted s s' :
  graph_wf (graph_ s) →
  HandleSpeculation R instr guard_inserted s = Some (true, s') →
  unused_in (graph_ s') instr.
Proof.
  intros Hwf H. apply HandleSpeculation_inv in H as [(? & _)|(_ & mi & _ & H)]; [done|].
  apply HandleSpeculation_rewrite_graph in H
    as (i & invoke & b & pre & post & env0 & cm & ni & g2 & H); [|done].
  simpl in H.
  destruct H as (Hi & Hinv & Henv & Hcm & Hl & Hpre & Hpost & Hargs & Hpay & Hin & Hg2 &
                 Hbl & Har).
  set (n := length (arena (graph_ s))) in *.
  assert (b < length (blocks (graph_ s)))%nat as Hblen by (by eapply lookup_lt_Some).
  assert (instr < n)%nat as Hlt by (by eapply lookup_lt_Some).
  assert (n ≠ instr) as Hne by lia.
  intros u j Hu Hj.
  assert (in_graph g2 u = true) as Hug2.
  { apply in_graph_true_inv in Hu as (b' & l & Hb' & Hul). rewrite Hbl in Hb'.
    destruct (decide (b' = b)) as [->|Hbne].
    - rewrite list_lookup_insert_eq in Hb' by done. simplify_eq.
      eapply (in_graph_true _ _ b); [rewrite Hg2; by apply list_lookup_insert_eq|].
      apply elem_of_app in Hul as [Hul|Hul]; apply elem_of_app; [by left|right].
      apply elem_of_cons in Hul as [->|Hul]; [apply list_elem_of_here|].
      by apply list_elem_of_further, list_elem_of_further.
    - rewrite list_lookup_insert_ne in Hb' by done.
      eapply (in_graph_true _ _ b'); [|done].
      rewrite Hg2. by rewrite list_lookup_insert_ne. }
  rewrite Har in Hj.
  destruct (decide (u = n)) as [->|Hun].
  - rewrite list_lookup_alter_eq, list_lookup_imap in Hj. rewrite Hug2 in Hj.
    destruct ((arena (graph_ s) ++ [ni]) !! n) as [x|]; simplify_eq/=.
    split; [by apply map_replace_ref_unused|].
    intros env frame Henv' Hframe. simplify_eq. by eapply replace_in_env_unused.
  - rewrite list_lookup_alter_ne, list_lookup_imap in Hj by done. rewrite Hug2 in Hj.
    destruct ((arena (graph_ s) ++ [ni]) !! u) as [x|]; simplify_eq/=.
    split; [by apply map_replace_ref_unused|].
    intros env frame Henv' Hframe.
    destruct (environment x) as [ex|]; simplify_eq/=. by eapply replace_in_env_unused.
Qed.

(** X17. The direct call that a successful [HandleSpeculation] creates is no
    candidate of the pass, while [IsCandidate] still answers for the original
    call what it answered before. *)
Theorem HandleSpeculation_result_not_candidate R instr guard_inserted s s' :
  graph_wf (graph_ s) →
  HandleSpeculation R instr guard_inserted s = Some (true, s') →
  IsCandidate s' (length (arena (graph_ s))) = Some false ∧
  IsCandidate s' instr = IsCandidate s instr.
Proof.
  intros Hwf H. pose proof H as H0.
  apply HandleSpeculation_inv in H as [(? & _)|(_ & mi & _ & H)]; [done|].
  pose proof (HandleSpeculation_rewrite_extends _ _ _ _ _ _ H) as Hext.
  apply HandleSpeculation_rewrite_inv in H
    as (i & invoke & b & pre & post & env0 & new_i & sd & H); [|done].
  simpl in H. destruct H as (Hi & _ & _ & _ & _ & _ & _ & Hnew & Hpay & _).
  split.
  - unfold IsCandidate, IsInvokeVirtual, IsInvokeInterface. rewrite Hnew. simpl.
    by rewrite Hpay.
  - destruct (Hext instr i Hi) as (i' & Hi' & Hp).
    unfold IsCandidate, IsInvokeVirtual, IsInvokeInterface, AsInvoke.
    rewrite Hi, Hi'. simpl. by rewrite Hp.
Qed.

Lemma HandleSpeculation_rewrite_in_block R instr mi s x :
  HandleSpeculation_rewrite R instr mi s = Some x → is_Some (GetBlock (graph_ s) instr).
Proof.
  unfold HandleSpeculation_rewrite. intros H.
  destruct (arena (graph_ s) !! instr) as [i|] eqn:Hi; simpl in H; [|done].
  destruct (AsInvoke i) as [invoke|] eqn:Hinv; simpl in H; [|done].
  destruct (graph_ s) as [a bl am ccm] eqn:Hg. simpl in *.
  unfold New, set_arena in H. simpl in H.
  rewrite lookup_app_r, Nat.sub_diag in H by lia. simpl in H.
  match type of H with (copy_arguments ?x ?k ?n ≫= _) = _ =>
    destruct (copy_arguments x k n) as [ni1|]; simpl in H; [|done] end.
  match type of H with ((?t ≫= _) ≫= _) = _ => destruct t as [cm|]; simpl in H; [|done] end.
  destruct (SetArgumentAt _ _ ni1) as [ni2|]; simpl in H; [|done].
  destruct (DCHECK R _); simpl in H; [|done].
  rewrite update_instr_fresh in H. simpl in H.
  rewrite (GetBlock_blocks (mkHGraph a bl am ccm)) in H by done.
  destruct (GetBlock _ instr) as [b|]; [eauto|done].
Qed.

Lemma arena_extends_length g g' :
  arena_extends g g' → (length (arena g) ≤ length (arena g'))%nat.
Proof.
  intros Hext.
  destruct (arena g) as [|x a] eqn:Ha using rev_ind; [simpl; lia|].
  clear IHa. rewrite length_app. simpl.
  destruct (Hext (length a) x) as (i' & Hi' & _).
  { rewrite Ha. by rewrite lookup_app_r, Nat.sub_diag by lia. }
  apply lookup_lt_Some in Hi'. lia.
Qed.

(** A block that is replaced by a list of its old members and of new
    objects takes in no old object that was in no block. *)
Lemma stays_out_replace_block g g' b old new x :
  blocks g !! b = Some old →
  blocks g' = <[b := new]> (blocks g) →
  (∀ y, y ∈ new → y ∈ old ∨ (length (arena g) ≤ y)%nat) →
  (x < length (arena g))%nat →
  GetBlock g x = None → GetBlock g' x = None.
Proof.
  intros Hold Hbl Hnew Hx Hout.
  rewrite GetBlock_None in Hout. apply GetBlock_None. intros l Hl Hin.
  rewrite Hbl in Hl. apply list_elem_of_lookup in Hl as [k Hk].
  destruct (decide (k = b)) as [->|Hne].
  - rewrite list_lookup_insert_eq in Hk by (by eapply lookup_lt_Some).
    injection Hk as <-. destruct (Hnew _ Hin) as [Hin'|Hge]; [|lia].
    apply (Hout old); [|done]. apply list_elem_of_lookup. eauto.
  - rewrite list_lookup_insert_ne in Hk by done.
    apply (Hout l); [|done]. apply list_elem_of_lookup. eauto.
Qed.

Lemma InsertSpeculationGuard_stays_out R instr cursor s r s' x :
  graph_wf (graph_ s) →
  InsertSpeculationGuard R instr cursor s = Some (r, s') →
  (x < length (arena (graph_ s)))%nat →
  GetBlock (graph_ s) x = None → GetBlock (graph_ s') x = None.
Proof.
  intros Hwf H Hx Hout. pose proof H as H0.
  apply InsertSpeculationGuard_inv in H
    as [(_ & ->)|(i & invoke & object & cls & m & cm & b & Hins & Hinv & Hobj & Hty & Hidx &
                  Hname & Hm & Hcm & Hb)]; [done|].
  destruct (GetBlock_Some _ _ _ Hb) as (pre & post & Hl & Hpre).
  rewrite (InsertSpeculationGuard_computes R s instr cursor i invoke object cls m cm b pre post)
    in H0; try done.
  2:{ intros y Hy. eapply graph_wf_valid; [done..|]. apply elem_of_app. by left. }
  injection H0 as _ <-.
  eapply (stays_out_replace_block (graph_ s)); [exact Hl|reflexivity| |done..].
  intros y Hy. simpl in Hy.
  apply elem_of_app in Hy as [Hy|Hy]; [left; apply elem_of_app; by left|].
  repeat (apply elem_of_cons in Hy as [->|Hy]; [right; lia|]).
  left. apply elem_of_app. by right.
Qed.

Lemma HandleSpeculation_stays_out R instr guard_inserted s r s' x :
  graph_wf (graph_ s) →
  HandleSpeculation R instr guard_inserted s = Some (r, s') →
  (x < length (arena (graph_ s)))%nat →
  GetBlock (graph_ s) x = None → GetBlock (graph_ s') x = None.
Proof.
  intros Hwf H Hx Hout.
  apply HandleSpeculation_inv in H as [(_ & -> & _)|(_ & mi & _ & H)]; [done|].
  apply HandleSpeculation_rewrite_inv in H
    as (i & invoke & b & pre & post & env0 & new_i & sd & H); [|done].
  simpl in H. destruct H as (_ & _ & Hl & Hbl & _).
  eapply (stays_out_replace_block (graph_ s)); [exact Hl|exact Hbl| |done..].
  intros y Hy.
  apply elem_of_app in Hy as [Hy|Hy]; [left; apply elem_of_app; by left|].
  apply elem_of_cons in Hy as [->|Hy]; [right; lia|].
  left. apply elem_of_app. right. by apply list_elem_of_further.
Qed.

Lemma run_stays_out R op s s' x :
  graph_wf (graph_ s) →
  run R op s = Some s' →
  (x < length (arena (graph_ s)))%nat →
  GetBlock (graph_ s) x = None → GetBlock (graph_ s') x = None.
Proof.
  intros Hwf. destruct op; simpl; intros H Hx Hout.
  - destruct (HasPrediction R instr update s) as [[b s1]|] eqn:E; simplify_eq/=.
    apply HasPrediction_inv in E.
    by destruct E as [->|(_ & _ & _ & _ & [[type ->]|(types & _ & ->)])].
  - destruct (GetCost R s instr); by simplify_eq/=.
  - destruct (GetMispredictRate R s instr); by simplify_eq/=.
  - destruct (GetProfit R s instr); by simplify_eq/=.
  - destruct (GetRecoveryMethod s instr); by simplify_eq/=.
  - destruct (IsPredictionSame R s instr instr2); by simplify_eq/=.
  - destruct (InsertSpeculationGuard R instr_guarded instr_cursor s) as [[r s1]|] eqn:E;
      simplify_eq/=. by eapply InsertSpeculationGuard_stays_out.
  - destruct (HandleSpeculation R instr guard_inserted s) as [[r s1]|] eqn:E;
      simplify_eq/=. by eapply HandleSpeculation_stays_out.
Qed.

(** An instruction that has left the blocks never comes back. *)
Lemma run_all_stays_out R ops s s' x :
  graph_wf (graph_ s) →
  run_all R ops s = Some s' →
  (x < length (arena (graph_ s)))%nat →
  GetBlock (graph_ s) x = None → GetBlock (graph_ s') x = None.
Proof.
  revert s. induction ops as [|op ops IH]; simpl; intros s Hwf H Hx Hout;
    [by simplify_eq|].
  destruct (run R op s) as [s1|] eqn:E; simpl in H; [|done].
  eapply (IH s1); [by eapply run_graph_wf|done| |by eapply run_stays_out].
  pose proof (arena_extends_length _ _ (run_extends _ _ _ _ E)). lia.
Qed.

(** X18. A call site is rewritten at most once.  [HandleSpeculation] returns
    [true] only for a call that sits in a block and has a cached prediction
    (which it keeps).  Whatever operations of the pass follow, the call stays
    out of the blocks and its prediction stays cached, and
    [HandleSpeculation] called on it again, with either flag, never returns
    [true]: it returns [false] with the state unchanged or does not return
    (the call has no block). *)
Theorem HandleSpeculation_once R instr guard_inserted s s' :
  graph_wf (graph_ s) →
  HandleSpeculation R instr guard_inserted s = Some (true, s') →
  is_Some (GetBlock (graph_ s) instr) ∧
  has_cached s' instr ∧
  ∀ ops s'',
    run_all R ops s' = Some s'' →
    GetBlock (graph_ s'') instr = None ∧
    has_cached s'' instr ∧
    ∀ again r s3,
      HandleSpeculation R instr again s'' = Some (r, s3) → r = false ∧ s3 = s''.
Proof.
  intros Hwf H. pose proof H as H0.
  pose proof (HandleSpeculation_graph_wf _ _ _ _ _ _ Hwf H0) as Hwf'.
  apply HandleSpeculation_inv in H as [(? & _)|(_ & mi & Hft & H)]; [done|].
  pose proof (HandleSpeculation_rewrite_in_block _ _ _ _ _ H) as Hin.
  pose proof (HandleSpeculation_rewrite_inv _ _ _ _ _ Hwf H)
    as (i & invoke & b & pre & post & env0 & new_i & sd & H1).
  simpl in H1. destruct H1 as (Hi & _ & _ & _ & Hgone & _ & Hlen & _).
  assert (precise_prediction_ s' = precise_prediction_ s ∧
          imprecise_predictions_ s' = imprecise_predictions_ s) as [Hp Hi'].
  { by apply HandleSpeculation_rewrite_caches in H as (_ & ? & ?). }
  assert (has_cached s' instr) as Hc.
  { unfold has_cached. rewrite Hp, Hi'.
    unfold HandleSpeculation_find_target in Hft.
    destruct (arena (graph_ s) !! instr); simpl in Hft; [|done].
    destruct (AsInvoke _); simpl in Hft; [|done].
    unfold GetPrimaryType, found in Hft.
    destruct (precise_prediction_ s !! instr); [left; eauto|].
    destruct (imprecise_predictions_ s !! instr); [right; eauto|done]. }
  split; [done|]. split; [done|].
  intros ops s'' Hrun.
  assert (GetBlock (graph_ s'') instr = None) as Hout.
  { eapply run_all_stays_out; [exact Hwf'|exact Hrun| |exact Hgone].
    apply lookup_lt_Some in Hi. lia. }
  split; [done|]. split.
  - eapply cache_kept_has_cached; [by eapply run_all_cache_kept|done].
  - intros again r s3 H2.
    apply HandleSpeculation_inv in H2 as [(-> & -> & _)|(_ & mi' & _ & H2)]; [done|].
    apply HandleSpeculation_rewrite_in_block in H2 as [b' Hb']. congruence.
Qed.

Lemma replace_in_env_id' initial other (e : HEnvironment) :
  (∀ frame, frame ∈ e → Some initial ∉ frame) →
  replace_in_env initial other e = e.
Proof.
  unfold replace_in_env. induction e as [|f e IH]; simpl; intros H; [done|].
  rewrite map_replace_ref_id by (apply H, list_elem_of_here).
  rewrite IH; [done|]. intros frame Hf. by apply H, list_elem_of_further.
Qed.

Lemma replace_uses_id initial other j :
  ¬ names j initial → replace_uses initial other j = j.
Proof.
  intros Hn. unfold replace_uses. destruct j as [p ins ty pc env rti se]. simpl in *.
  unfold set_environment, set_inputs. simpl.
  rewrite map_replace_ref_id by (intros Hin; apply Hn; by left).
  destruct env as [e|]; simpl; [|done].
  rewrite replace_in_env_id'; [done|].
  intros frame Hf Hin. apply Hn. right. simpl. eauto.
Qed.

Lemma HandleSpeculation_rewrite_frame R instr mi s s' r j :
  graph_wf (graph_ s) →
  HandleSpeculation_rewrite R instr mi s = Some (true, s') →
  arena (graph_ s) !! r = Some j →
  ¬ names j instr →
  arena (graph_ s') !! r = Some j.
Proof.
  intros Hwf H Hr Hn.
  apply HandleSpeculation_rewrite_graph in H
    as (i & invoke & b & pre & post & env0 & cm & ni & g2 & H); [|done].
  simpl in H.
  destruct H as (_ & _ & _ & _ & _ & _ & _ & _ & _ & _ & _ & _ & Har).
  assert (r < length (arena (graph_ s)))%nat as Hlt by (by eapply lookup_lt_Some).
  rewrite Har, list_lookup_alter_ne, list_lookup_imap by lia.
  rewrite lookup_app_l by done. rewrite Hr. simpl.
  destruct (in_graph g2 r); [|done]. by rewrite replace_uses_id.
Qed.

(** What a successful rewrite keeps of every instruction the graph had:
    its kind and constructor data, type, dex pc and side effects; its inputs
    are as they were up to the replacement of the rewritten call. *)
Lemma HandleSpeculation_rewrite_old R instr mi s s' r j :
  graph_wf (graph_ s) →
  HandleSpeculation_rewrite R instr mi s = Some (true, s') →
  arena (graph_ s) !! r = Some j →
  ∃ j', arena (graph_ s') !! r = Some j' ∧
        payload j' = payload j ∧ type_ j' = type_ j ∧ dex_pc j' = dex_pc j ∧
        side_effects j' = side_effects j ∧
        (inputs j' = inputs j ∨
         inputs j' = map (replace_ref instr (length (arena (graph_ s)))) (inputs j)).
Proof.
  intros Hwf H Hr.
  apply HandleSpeculation_rewrite_graph in H
    as (i & invoke & b & pre & post & env0 & cm & ni & g2 & H); [|done].
  simpl in H.
  destruct H as (_ & _ & _ & _ & _ & _ & _ & _ & _ & _ & _ & _ & Har).
  assert (r < length (arena (graph_ s)))%nat as Hlt by (by eapply lookup_lt_Some).
  rewrite Har, list_lookup_alter_ne, list_lookup_imap by lia.
  rewrite lookup_app_l by done. rewrite Hr. simpl.
  destruct (in_graph g2 r); eexists; (split; [reflexivity|]); simpl; split_and!; auto.
Qed.

(** X19. A successful [HandleSpeculation] on a well-formed graph leaves every
    instruction that does not name the rewritten call, by input or in its
    environment, exactly as it was, and leaves both maps of the prediction
    cache as they were. *)
Theorem HandleSpeculation_frame R instr guard_inserted s s' r j :
  graph_wf (graph_ s) →
  HandleSpeculation R instr guard_inserted s = Some (true, s') →
  arena (graph_ s) !! r = Some j →
  ¬ names j instr →
  arena (graph_ s') !! r = Some j ∧
  precise_prediction_ s' = precise_prediction_ s ∧
  imprecise_predictions_ s' = imprecise_predictions_ s.
Proof.
  intros Hwf H Hr Hn.
  apply HandleSpeculation_inv in H as [(? & _)|(_ & mi & _ & H)]; [done|].
  split; [by eapply HandleSpeculation_rewrite_frame|].
  by apply HandleSpeculation_rewrite_caches in H as (_ & ? & ?).
Qed.

Lemma HandleSpeculation_find_target_guard_flag R instr s cls :
  GetPrimaryType s instr = Some (Some cls) →
  FindClassIndexIn R cls ≠ kDexNoIndex →
  HandleSpeculation_find_target R instr true s =
  HandleSpeculation_find_target R instr false s.
Proof.
  intros Hty Hidx. unfold HandleSpeculation_find_target.
  destruct (arena (graph_ s) !! instr) as [i|]; simpl; [|done].
  destruct (AsInvoke i) as [invoke|]; simpl; [|done].
  rewrite Hty. simpl. apply Z.eqb_neq in Hidx. rewrite Hidx.
  by destruct (kIsDebugBuild R).
Qed.

(** X20. Once [InsertSpeculationGuard] has returned a guard for a call site,
    [HandleSpeculation] on that call site does the same with [guard_inserted]
    [true] and [false]: the [CHECK_NE] on the class index cannot fail and the
    class index is not what makes it return [false]. *)
Theorem HandleSpeculation_after_guard R instr cursor s guard_ s1 :
  InsertSpeculationGuard R instr cursor s = Some (Some guard_, s1) →
  HandleSpeculation R instr true s1 = HandleSpeculation R instr false s1.
Proof.
  intros H.
  destruct (InsertSpeculationGuard_caches _ _ _ _ _ _ H) as [Hp Hi].
  apply InsertSpeculationGuard_inv in H
    as [(? & _)|(i & invoke & object & cls & m & cm & b & _ & _ & _ & Hty & Hidx & _)];
    [done|].
  unfold HandleSpeculation.
  rewrite (HandleSpeculation_find_target_guard_flag R instr s1 cls); [done| |done].
  unfold GetPrimaryType in *. by rewrite Hp, Hi.
Qed.

(** X21. The cost model and the guard agree on the referrer's class.  For a
    candidate call site with one imprecise candidate type, the [HLoadClass]
    that a successful [InsertSpeculationGuard] creates is marked as loading
    the referrer's class exactly when that type is the declaring class of the
    method being compiled, and [GetCost] charges
    [kCostOfLoadReferrerClass + kCostOfDevirtCheck] when it is so marked and
    [kCostOfLoadClass + kCostOfDevirtCheck] when it is not. *)
Theorem guard_cost_agreement R instr cursor s guard_ s1 cls :
  graph_wf (graph_ s) →
  IsCandidate s instr = Some true →
  precise_prediction_ s !! instr = None →
  imprecise_predictions_ s !! instr = Some [Some cls] →
  InsertSpeculationGuard R instr cursor s = Some (Some guard_, s1) →
  ∃ m ld lc,
    art_method_ (graph_ s) = Some m ∧
    arena (graph_ s1) !! S (length (arena (graph_ s))) = Some ld ∧
    payload ld = PLoadClass lc ∧
    (is_referrers_class lc = true ↔ cls = GetDeclaringClass R m) ∧
    GetCost R s instr =
      Some (wrap64 (if is_referrers_class lc
                    then kCostOfLoadReferrerClass R + kCostOfDevirtCheck R
                    else kCostOfLoadClass R + kCostOfDevirtCheck R)).
Proof.
  intros Hwf Hc Hp Hi H. pose proof H as H0.
  apply InsertSpeculationGuard_inv in H
    as [(? & _)|(i & invoke & object & cls' & m & cm & b & Hins & Hinv & Hobj & Hty & Hidx &
                 Hname & Hm & Hcm & Hb)]; [done|].
  assert (cls' = cls) as ->.
  { unfold GetPrimaryType in Hty. apply found_false in Hp. rewrite Hp, Hi in Hty.
    simpl in Hty. congruence. }
  destruct (GetBlock_Some _ _ _ Hb) as (pre & post & Hl & Hpre).
  rewrite (InsertSpeculationGuard_computes R s instr cursor i invoke object cls m cm b pre post)
    in H0; try done.
  2:{ intros r Hr. eapply graph_wf_valid; [done..|]. apply elem_of_app. by left. }
  simplify_eq/=.
  eexists m, _, _. split; [done|]. split.
  { rewrite lookup_app_r by lia.
    replace (S (length (arena (graph_ s))) - length (arena (graph_ s)))%nat with 1%nat by lia.
    reflexivity. }
  split; [reflexivity|]. split.
  - simpl. by rewrite Nat.eqb_eq.
  - rewrite (GetCost_imprecise R s instr [cls] m) by done. simpl.
    unfold candidate_cost. by rewrite Z.add_0_r.
Qed.

(** X22. Guarding a call at its own position and then rewriting it leaves,
    where the call was, four new instructions in a row: the [HLoadClass] of
    the predicted type (its class index in the caller's dex file), the
    [HInstanceFieldGet] of the class field, free of side effects, the guard
    on these two and the direct call, all at the dex pc of the call; the rest
    of the block and the other blocks are as they were.  Unless the call is
    its own receiver or the current method, the two loads still read the
    receiver and the current method. *)
Theorem guard_then_direct_call R instr guard_inserted s guard_ s1 s2 :
  graph_wf (graph_ s) →
  InsertSpeculationGuard R instr instr s = Some (Some guard_, s1) →
  HandleSpeculation R instr guard_inserted s1 = Some (true, s2) →
  ∃ b pre post i receiver cls m cm,
    let n := length (arena (graph_ s)) in
    arena (graph_ s) !! instr = Some i ∧
    InputAt i 0 = Some receiver ∧
    GetPrimaryType s instr = Some (Some cls) ∧
    art_method_ (graph_ s) = Some m ∧
    GetCurrentMethod (graph_ s) = Some cm ∧
    blocks (graph_ s) !! b = Some (pre ++ instr :: post) ∧
    guard_ = S (S n) ∧
    blocks (graph_ s2) =
      <[b := pre ++ [S n; n; guard_; S (S (S n))] ++ post]> (blocks (graph_ s)) ∧
    (∃ ref, arena (graph_ s2) !! S n = Some ref ∧
            payload ref =
              PLoadClass (mkLoadClassData (FindClassIndexIn R cls) (caller_dex_file R)
                            (cls =? GetDeclaringClass R m)%nat false true) ∧
            dex_pc ref = dex_pc i) ∧
    (∃ load, arena (graph_ s2) !! n = Some load ∧
             payload load = PInstanceFieldGet (object_field0 R) ∧
             type_ load = kPrimNot ∧
             side_effects load = SE_None ∧
             dex_pc load = dex_pc i) ∧
    is_guard (graph_ s2) (S n) n (dex_pc i) guard_ ∧
    (∃ call d sd, arena (graph_ s2) !! S (S (S n)) = Some call ∧
                  payload call = PInvokeStaticOrDirect d sd ∧
                  invoke_type sd = kDirect ∧
                  dex_pc call = dex_pc i) ∧
    (cm ≠ instr →
     is_type_reference R (graph_ s2) cm (FindClassIndexIn R cls)
       (cls =? GetDeclaringClass R m)%nat (dex_pc i) (S n)) ∧
    (receiver ≠ Some instr → is_type_load R (graph_ s2) receiver (dex_pc i) n).
Proof.
  intros Hwf H1 H2.
  pose proof (InsertSpeculationGuard_graph_wf _ _ _ _ _ _ Hwf H1) as Hwf1.
  pose proof H1 as H0.
  apply InsertSpeculationGuard_inv in H1
    as [(? & _)|(i & invoke & object & cls & m & cm & b & Hins & Hinv & Hobj & Hty & Hidx &
                 Hname & Hm & Hcm & Hb)]; [done|].
  destruct (GetBlock_Some _ _ _ Hb) as (pre & post & Hl & Hpre).
  assert (b < length (blocks (graph_ s)))%nat as Hblen by (by eapply lookup_lt_Some).
  assert (instr < length (arena (graph_ s)))%nat as Hlt by (by eapply lookup_lt_Some).
  rewrite (InsertSpeculationGuard_computes R s instr instr i invoke object cls m cm b pre post)
    in H0; try done.
  2:{ intros r Hr. eapply graph_wf_valid; [done..|]. apply elem_of_app. by left. }
  injection H0 as <- Hs1.
  set (n := length (arena (graph_ s))) in *.
  assert (arena (graph_ s1) !! n =
          Some (SetSideEffects SE_None
                  (HInstanceFieldGet_new object kPrimNot (object_field0 R) (dex_pc i))))
    as Hget.
  { rewrite <- Hs1. simpl. by rewrite lookup_app_r, Nat.sub_diag by (unfold n; lia). }
  assert (arena (graph_ s1) !! S n =
          Some (HLoadClass_new cm
                  (mkLoadClassData (FindClassIndexIn R cls) (caller_dex_file R)
                     (cls =? GetDeclaringClass R m)%nat false true) (dex_pc i))) as Hld.
  { rewrite <- Hs1. simpl. rewrite lookup_app_r by (unfold n; lia).
    replace (S n - length (arena (graph_ s)))%nat with 1%nat by (unfold n; lia).
    reflexivity. }
  assert (arena (graph_ s1) !! S (S n) = Some (HDevirtGuard_new R (S n) n (dex_pc i))) as Hg.
  { rewrite <- Hs1. simpl. rewrite lookup_app_r by (unfold n; lia).
    replace (S (S n) - length (arena (graph_ s)))%nat with 2%nat by (unfold n; lia).
    reflexivity. }
  assert (arena (graph_ s1) !! instr = Some i) as Hins1.
  { rewrite <- Hs1. simpl. by rewrite lookup_app_l. }
  assert (blocks (graph_ s1) !! b =
          Some ((pre ++ [S n; n; S (S n)]) ++ instr :: post)) as Hl1.
  { rewrite <- Hs1. simpl. rewrite list_lookup_insert_eq by done.
    by rewrite <- app_assoc. }
  assert (length (arena (graph_ s1)) = S (S (S n))) as Hlen1.
  { rewrite <- Hs1. simpl. rewrite length_app. simpl. unfold n. lia. }
  assert (blocks (graph_ s1) =
          <[b := (pre ++ [S n; n; S (S n)]) ++ instr :: post]> (blocks (graph_ s))) as Hbl1.
  { rewrite <- Hs1. simpl. by rewrite <- app_assoc. }
  apply HandleSpeculation_inv in H2 as [(? & _)|(_ & mi & _ & H2)]; [done|].
  pose proof (HandleSpeculation_rewrite_frame R instr mi s1 s2 (S (S n)) _ Hwf1 H2 Hg)
    as Hframe.
  destruct (HandleSpeculation_rewrite_old R instr mi s1 s2 n _ Hwf1 H2 Hget)
    as (load & Hload & Hlpay & Hlty & Hlpc & Hlse & Hlin).
  destruct (HandleSpeculation_rewrite_old R instr mi s1 s2 (S n) _ Hwf1 H2 Hld)
    as (ref & Href & Hrpay & _ & Hrpc & _ & Hrin).
  apply HandleSpeculation_rewrite_inv in H2
    as (i' & invoke' & b' & pre' & post' & env0 & new_i & sd & H2); [|done].
  simpl in H2.
  destruct H2 as (Hi' & _ & Hl' & Hbl2 & _ & _ & _ & Hnew & Hpay & Hdir & _ & _ & Hpc & _).
  rewrite Hins1 in Hi'. injection Hi' as <-.
  assert (b' = b) as ->.
  { destruct (decide (b' = b)) as [|Hne]; [done|].
    destruct (graph_wf_unique _ _ _ _ _ Hwf1 Hl1) as (_ & _ & Hother).
    exfalso. eapply (Hother b'); [done..|]. apply elem_of_app. right. apply list_elem_of_here. }
  rewrite Hl1 in Hl'. injection Hl' as Hl'.
  destruct (graph_wf_unique _ _ _ _ _ Hwf1 Hl1) as (Hpre1 & _ & _).
  assert (instr ∉ pre') as Hpre'.
  { intros Hin. rewrite Hl' in Hl1.
    destruct (graph_wf_unique _ _ _ _ _ Hwf1 Hl1) as (? & _ & _). done. }
  apply split_at_unique in Hl' as [<- <-]; [|done..].
  exists b, pre, post, i, object, cls, m, cm. simpl.
  split_and!; try done.
  - rewrite Hbl2, Hlen1, Hbl1, list_insert_insert_eq.
    f_equal. rewrite <- app_assoc. reflexivity.
  - exists ref. split_and!; done.
  - exists load. split_and!; done.
  - eexists. split; [apply Hframe|done].
    unfold names. simpl. intros [Hin|(env & frame & ? & _)]; [|done].
    apply elem_of_cons in Hin as [Hin|Hin]; [simplify_eq; unfold n in *; lia|].
    apply list_elem_of_singleton in Hin. simplify_eq. unfold n in *. lia.
  - rewrite Hlen1 in Hnew. eexists _, _, _. split_and!; done.
  - intros Hne. exists ref. split_and!; try done.
    destruct Hrin as [->| ->]; simpl; [done|].
    by rewrite decide_False.
  - intros Hne. exists load. split_and!; try done.
    destruct Hlin as [->| ->]; simpl; [done|].
    by rewrite replace_ref_id.
Qed.

(** X23. The operations of the pass keep the graph well formed: after any
    sequence of them that starts on a graph in which no instruction is listed
    twice and every block entry is an object of the arena, this is still so;
    no object of the arena is lost or changes its kind, and the arena never
    shrinks. *)
Theorem pass_keeps_graph_well_formed R ops s s' :
  graph_wf (graph_ s) →
  run_all R ops s = Some s' →
  graph_wf (graph_ s') ∧
  arena_extends (graph_ s) (graph_ s') ∧
  (length (arena (graph_ s)) ≤ length (arena (graph_ s')))%nat.
Proof.
  intros Hwf H. split; [by eapply run_all_graph_wf|].
  pose proof (run_all_extends _ _ _ _ H) as Hext.
  split; [done|].
  destruct (arena (graph_ s)) as [|x a] eqn:Ha using rev_ind; [simpl; lia|].
  clear IHa. rewrite length_app. simpl.
  destruct (Hext (length a) x) as (i' & Hi' & _).
  { rewrite Ha. rewrite lookup_app_r, Nat.sub_diag by lia. done. }
  apply lookup_lt_Some in Hi'. lia.
Qed.

Lemma not_cached_new_pass g instr : ¬ has_cached (new_pass g) instr.
Proof. intros [[? H]|[? H]]; simpl in H; by rewrite lookup_empty in H. Qed.

(** ** The further properties on concrete methods *)

(** X1 on the example method. *)
Lemma Gate_stable_witness :
  ∃ s',
    run_all Example.runtime0 Example2.session (new_pass Example.graph0) = Some s' ∧
    Gate s' true = Gate (new_pass Example.graph0) true ∧
    (Gate (new_pass Example.graph0) true = true →
     true = true ∧ is_Some (art_method_ (graph_ s'))).
Proof.
  eexists. split; [vm_compute; reflexivity|].
  apply (Gate_stable Example.runtime0 Example2.session). vm_compute. reflexivity.
Defined.

(** X2 on the example method. *)
Lemma IsCandidate_stable_witness :
  ∃ s',
    run_all Example.runtime0 Example2.session (new_pass Example.graph0) = Some s' ∧
    IsCandidate s' 3 = IsCandidate (new_pass Example.graph0) 3.
Proof.
  eexists. split; [vm_compute; reflexivity|].
  apply (IsCandidate_stable Example.runtime0 Example2.session).
  - vm_compute. reflexivity.
  - simpl. by eexists.
Defined.

(** X3 on the example method. *)
Lemma cache_entries_kept_witness :
  ∃ s',
    run_all Example.runtime0 Example2.session Example.precise3 = Some s' ∧
    precise_prediction_ s' !! 3%nat = precise_prediction_ Example.precise3 !! 3%nat ∧
    imprecise_predictions_ s' !! 3%nat = imprecise_predictions_ Example.precise3 !! 3%nat ∧
    GetPrimaryType s' 3 = GetPrimaryType Example.precise3 3 ∧
    GetRecoveryMethod s' 3 = GetRecoveryMethod Example.precise3 3.
Proof.
  eexists. split; [vm_compute; reflexivity|].
  apply (cache_entries_kept Example.runtime0 Example2.session).
  - vm_compute. reflexivity.
  - left. by eexists.
Defined.

(** X4 on the example method. *)
Lemma HasPrediction_commit_witness :
  ∃ s',
    HasPrediction Example.runtime0 3 true (new_pass Example.graph0) = Some (true, s') ∧
    has_cached s' 3 ∧ graph_ s' = Example.graph0.
Proof.
  eexists. split; [vm_compute; reflexivity|].
  edestruct (HasPrediction_commit Example.runtime0 3 (new_pass Example.graph0) true)
    as (Hc & _ & Hg & _); [vm_compute; reflexivity|].
  split; [by apply Hc|exact Hg].
Defined.

(** X5 on the example method. *)
Lemma HasPrediction_query_then_commit_witness :
  ∃ s',
    HasPrediction Example.runtime0 3 true (new_pass Example.graph0) = Some (true, s') ∧
    HasPrediction Example.runtime0 3 false (new_pass Example.graph0) =
      Some (true, new_pass Example.graph0) ∧
    HasPrediction Example.runtime0 3 false s' = Some (true, s') ∧
    HasPrediction Example.runtime0 3 true s' = Some (true, s').
Proof.
  eexists. split; [vm_compute; reflexivity|].
  apply (HasPrediction_query_then_commit Example.runtime0 3 (new_pass Example.graph0)).
  vm_compute. reflexivity.
Defined.

(** X6 on the example method. *)
Lemma HasPrediction_final_target_witness :
  ∃ s',
    HasPrediction Example.runtime0 3 true (new_pass Example.graph0) = Some (true, s') ∧
    GetPrimaryType s' 3 = Some (Some 171%nat) ∧
    GetRecoveryMethod s' 3 = Some kRecoveryNotNeeded.
Proof.
  eexists.
  apply (HasPrediction_final_target Example.runtime0 3 (new_pass Example.graph0) 71).
  - reflexivity.
  - apply not_cached_new_pass.
  - reflexivity.
  - reflexivity.
Defined.

(** X7 on the example method. *)
Lemma HasPrediction_receiver_type_witness :
  ∃ s',
    HasPrediction Example2.runtime_open 3 true (new_pass Example2.graph1) = Some (true, s') ∧
    precise_prediction_ s' !! 3%nat = Some (Some 171%nat).
Proof.
  refine (proj2 (HasPrediction_receiver_type Example2.runtime_open 3
                   (new_pass Example2.graph1) 71 _ 2 _ _ _ _ _ _ _ _)
                _ 1%nat _ 171%nat _ _ _); try reflexivity.
  apply not_cached_new_pass.
Defined.

(** X8 on the example method. *)
Lemma GetPrimaryType_cached_witness :
  is_Some (GetPrimaryType Example.two4 4) ∧
  ∃ t rest, [Some 5%nat; Some 160%nat] = t :: rest ∧ GetPrimaryType Example.two4 4 = Some t.
Proof.
  destruct (GetPrimaryType_cached Example.two4 4 cache_invariant_two4) as (Hc & _ & Hi).
  split.
  - apply Hc. right. by eexists.
  - apply Hi; reflexivity.
Defined.

(** X9 on the example method. *)
Lemma precise_consistency_witness :
  GetRecoveryMethod Example.precise3 3 = Some kRecoveryNotNeeded ∧
  GetMispredictRate Example.runtime0 Example.precise3 3 = Some (0, 10) ∧
  GetCost Example.runtime0 Example.precise3 3 = Some 0.
Proof.
  assert (is_Some (precise_prediction_ Example.precise3 !! 3%nat)) as Hp by (by eexists).
  destruct (precise_consistency Example.runtime0 Example.precise3 3) as (H1 & H2 & H3).
  - reflexivity.
  - by left.
  - split; [by apply H1|]. split; [by apply H2|by apply H3].
Defined.

(** X10 on the example method. *)
Lemma GetMispredictRate_denominator_witness :
  (∃ n, GetMispredictRate Example.runtime0 Example.two4 4 = Some (n, 10) ∧ 0 ≤ n ≤ 1) ∧
  (∃ n, GetMispredictRate Example2.runtime_release (new_pass Example.graph0) 4 = Some (n, 0)).
Proof.
  split.
  - apply (proj1 (GetMispredictRate_denominator Example.runtime0 Example.two4 4)).
    + reflexivity.
    + right. by eexists.
  - apply (proj2 (GetMispredictRate_denominator Example2.runtime_release
                    (new_pass Example.graph0) 4)).
    + apply not_cached_new_pass.
    + reflexivity.
Defined.

(** X11 on the example method. *)
Lemma queries_need_cached_prediction_witness :
  GetCost Example.runtime0 (new_pass Example.graph0) 4 = None ∧
  GetRecoveryMethod (new_pass Example.graph0) 4 = None ∧
  GetPrimaryType (new_pass Example.graph0) 4 = None ∧
  (kIsDebugBuild Example.runtime0 = true →
   GetMispredictRate Example.runtime0 (new_pass Example.graph0) 4 = None).
Proof.
  apply (queries_need_cached_prediction Example.runtime0 (new_pass Example.graph0) 4).
  apply not_cached_new_pass.
Defined.

(** X12 on the example method. *)
Lemma GetProfit_value_witness :
  GetProfit Example.runtime0 Example.precise3 3 = Some 13.
Proof.
  refine (proj1 (GetProfit_value Example.runtime0 Example.precise3 3 _
                   (mkInvokeData 2 7 kVirtual false) _ _ _ _ _ _ _)).
  - reflexivity.
  - left. by eexists.
  - reflexivity.
  - reflexivity.
  - simpl. lia.
  - simpl. lia.
  - simpl. lia.
Defined.

(** X15 on the example method. *)
Lemma HandleSpeculation_arguments_witness :
  ∃ s' new_i,
    HandleSpeculation Example.runtime0 3 false Example.precise3 = Some (true, s') ∧
    arena (graph_ s') !! 6%nat = Some new_i ∧
    inputs new_i = [Some 1%nat; Some 2%nat; Some 0%nat].
Proof.
  destruct (HandleSpeculation Example.runtime0 3 false Example.precise3)
    as [[b s']|] eqn:Hrun; [|vm_compute in Hrun; discriminate Hrun].
  assert (b = true) as -> by (vm_compute in Hrun; congruence).
  destruct (HandleSpeculation_arguments Example.runtime0 3 false Example.precise3 s'
              graph0_wf Hrun)
    as (i & invoke & cm & new_i & Hi & Hinv & Hcm & Hnew & _ & _ & Hsame).
  simpl in Hi. injection Hi as <-. simpl in Hinv. injection Hinv as <-.
  vm_compute in Hcm. injection Hcm as <-.
  exists s', new_i. split; [done|]. split; [exact Hnew|].
  apply Hsame.
  - reflexivity.
  - simpl. intros Hin.
    repeat (apply elem_of_cons in Hin as [Hin|Hin]; [discriminate Hin|]).
    by apply elem_of_nil in Hin.
  - discriminate.
Defined.

(** X16 on the example method. *)
Lemma HandleSpeculation_no_use_left_witness :
  ∃ s',
    HandleSpeculation Example.runtime0 3 false Example.precise3 = Some (true, s') ∧
    unused_in (graph_ s') 3.
Proof.
  destruct (HandleSpeculation Example.runtime0 3 false Example.precise3)
    as [[b s']|] eqn:Hrun; [|vm_compute in Hrun; discriminate Hrun].
  assert (b = true) as -> by (vm_compute in Hrun; congruence).
  exists s'. split; [done|].
  exact (HandleSpeculation_no_use_left Example.runtime0 3 false Example.precise3 s'
           graph0_wf Hrun).
Defined.

(** X17 on the example method. *)
Lemma HandleSpeculation_result_not_candidate_witness :
  ∃ s',
    HandleSpeculation Example.runtime0 3 false Example.precise3 = Some (true, s') ∧
    IsCandidate s' 6 = Some false ∧
    IsCandidate s' 3 = IsCandidate Example.precise3 3.
Proof.
  destruct (HandleSpeculation Example.runtime0 3 false Example.precise3)
    as [[b s']|] eqn:Hrun; [|vm_compute in Hrun; discriminate Hrun].
  assert (b = true) as -> by (vm_compute in Hrun; congruence).
  exists s'. split; [done|].
  exact (HandleSpeculation_result_not_candidate Example.runtime0 3 false Example.precise3 s'
           graph0_wf Hrun).
Defined.

(** X18 on the example method. *)
Lemma HandleSpeculation_once_witness :
  ∃ s' s'',
    HandleSpeculation Example.runtime0 3 false Example.precise3 = Some (true, s') ∧
    is_Some (GetBlock Example.graph0 3) ∧
    run_all Example.runtime0 [OpHasPrediction 4 false; OpGetProfit 3] s' = Some s'' ∧
    GetBlock (graph_ s'') 3 = None ∧
    has_cached s'' 3 ∧
    HandleSpeculation Example.runtime0 3 true s'' = None.
Proof.
  destruct (HandleSpeculation Example.runtime0 3 false Example.precise3)
    as [[b s']|] eqn:Hrun; [|vm_compute in Hrun; discriminate Hrun].
  assert (b = true) as -> by (vm_compute in Hrun; congruence).
  destruct (run_all Example.runtime0 [OpHasPrediction 4 false; OpGetProfit 3] s')
    as [s''|] eqn:Hops;
    [|vm_compute in Hrun; injection Hrun as <-; vm_compute in Hops; discriminate Hops].
  destruct (HandleSpeculation_once Example.runtime0 3 false Example.precise3 s'
              graph0_wf Hrun) as (Hin & _ & Honce).
  destruct (Honce _ _ Hops) as (Hout & Hc & _).
  exists s', s''. split_and!; try done.
  vm_compute in Hrun. injection Hrun as <-. vm_compute in Hops. injection Hops as <-.
  vm_compute. reflexivity.
Defined.

(** X19 on the example method. *)
Lemma HandleSpeculation_frame_witness :
  ∃ s',
    HandleSpeculation Example.runtime0 3 false Example.precise3 = Some (true, s') ∧
    arena (graph_ s') !! 5%nat = Example.arena0 !! 5%nat.
Proof.
  destruct (HandleSpeculation Example.runtime0 3 false Example.precise3)
    as [[b s']|] eqn:Hrun; [|vm_compute in Hrun; discriminate Hrun].
  assert (b = true) as -> by (vm_compute in Hrun; congruence).
  exists s'. split; [done|].
  refine (proj1 (HandleSpeculation_frame Example.runtime0 3 false Example.precise3 s' 5 _
                   graph0_wf Hrun eq_refl _)).
  intros [Hin|(env & frame & Henv & _)]; [|discriminate Henv].
  simpl in Hin. apply list_elem_of_singleton in Hin. discriminate Hin.
Defined.

(** X20 on the example method. *)
Lemma HandleSpeculation_after_guard_witness :
  ∃ s1,
    InsertSpeculationGuard Example.runtime0 4 4 Example.one4 = Some (Some 8%nat, s1) ∧
    HandleSpeculation Example.runtime0 4 true s1 =
    HandleSpeculation Example.runtime0 4 false s1.
Proof.
  eexists. split; [vm_compute; reflexivity|].
  apply (HandleSpeculation_after_guard Example.runtime0 4 4 Example.one4 8).
  vm_compute. reflexivity.
Defined.

(** X21 on the example method. *)
Lemma guard_cost_agreement_witness :
  ∃ s1 m ld lc,
    InsertSpeculationGuard Example.runtime0 4 4 Example.one4 = Some (Some 8%nat, s1) ∧
    art_method_ (graph_ Example.one4) = Some m ∧
    arena (graph_ s1) !! 7%nat = Some ld ∧
    payload ld = PLoadClass lc ∧
    (is_referrers_class lc = true ↔ 5%nat = GetDeclaringClass Example.runtime0 m) ∧
    GetCost Example.runtime0 Example.one4 4 =
      Some (wrap64 (if is_referrers_class lc then 1 + 2 else 3 + 2)).
Proof.
  destruct (InsertSpeculationGuard Example.runtime0 4 4 Example.one4)
    as [[g s1]|] eqn:Hguard; [|vm_compute in Hguard; discriminate Hguard].
  assert (g = Some 8%nat) as -> by (vm_compute in Hguard; congruence).
  destruct (guard_cost_agreement Example.runtime0 4 4 Example.one4 8 s1 5 graph0_wf)
    as (m & ld & lc & H); [reflexivity|reflexivity|reflexivity|exact Hguard|].
  exists s1, m, ld, lc. split; [reflexivity|]. exact H.
Defined.

(** X22 on the example method. *)
Lemma guard_then_direct_call_witness :
  ∃ s1 s2,
    InsertSpeculationGuard Example.runtime0 3 3 Example.precise3 = Some (Some 8%nat, s1) ∧
    HandleSpeculation Example.runtime0 3 true s1 = Some (true, s2) ∧
    blocks (graph_ s2) = [[0; 1; 2]; [7; 6; 8; 9; 4; 5]]%nat ∧
    is_type_reference Example.runtime0 (graph_ s2) 0 4 false 12 7 ∧
    is_type_load Example.runtime0 (graph_ s2) (Some 1%nat) 12 6 ∧
    is_guard (graph_ s2) 7 6 12 8.
Proof.
  destruct (InsertSpeculationGuard Example.runtime0 3 3 Example.precise3)
    as [[g s1]|] eqn:Hguard; [|vm_compute in Hguard; discriminate Hguard].
  assert (g = Some 8%nat) as -> by (vm_compute in Hguard; congruence).
  destruct (HandleSpeculation Example.runtime0 3 true s1)
    as [[b s2]|] eqn:Hrun;
    [|vm_compute in Hguard; injection Hguard as <-; vm_compute in Hrun; discriminate Hrun].
  assert (b = true) as ->.
  { vm_compute in Hguard. injection Hguard as <-. vm_compute in Hrun. congruence. }
  destruct (guard_then_direct_call Example.runtime0 3 true Example.precise3 8 s1 s2
              graph0_wf Hguard Hrun)
    as (bl & pre & post & i & receiver & cls & m & cm & Hi & Hrecv & Hty & Hm & Hcm &
        _ & _ & _ & _ & _ & Hg & _ & Href & Hload).
  simpl in Hi. injection Hi as <-.
  vm_compute in Hrecv. injection Hrecv as <-.
  vm_compute in Hty. injection Hty as <-.
  simpl in Hm. injection Hm as <-.
  vm_compute in Hcm. injection Hcm as <-.
  exists s1, s2. split_and!; try done.
  - vm_compute in Hguard. injection Hguard as <-. vm_compute in Hrun. injection Hrun as <-.
    reflexivity.
  - apply Href. discriminate.
  - apply Hload. discriminate.
Defined.

(** X13 on the example method. *)
Lemma GetCost_at_most_max_witness :
  ∃ cost,
    GetCost Example.runtime0 Example.two4 4 = Some cost ∧
    cost ≤ 2 * GetMaxCost Example.runtime0.
Proof.
  destruct (GetCost_at_most_max Example.runtime0 Example.two4 4 [5; 160]%nat 60)
    as (cost & Hcost & Hle & _).
  - exact cost_constants_runtime0.
  - simpl. lia.
  - simpl. lia.
  - simpl. lia.
  - reflexivity.
  - reflexivity.
  - reflexivity.
  - reflexivity.
  - exists cost. split; [exact Hcost|exact Hle].
Defined.

(** X14 on the example method. *)
Lemma IsPredictionSame_symmetric_witness :
  IsPredictionSame Example.runtime0 Example.two4 4 4 = Some true.
Proof.
  refine (proj2 (IsPredictionSame_symmetric Example.runtime0 Example.two4 4 4)
            _ _ _ _ _ _ _ eq_refl eq_refl eq_refl eq_refl); try reflexivity;
    right; by eexists.
Defined.

(** X23 on the example method. *)
Lemma pass_keeps_graph_well_formed_witness :
  ∃ s',
    run_all Example.runtime0 Example2.session (new_pass Example.graph0) = Some s' ∧
    graph_wf (graph_ s') ∧
    arena_extends Example.graph0 (graph_ s') ∧
    (6 ≤ length (arena (graph_ s')))%nat.
Proof.
  eexists. split; [vm_compute; reflexivity|].
  apply (pass_keeps_graph_well_formed Example.runtime0 Example2.session
           (new_pass Example.graph0) _ graph0_wf).
  vm_compute. reflexivity.
Defined.
